(** * c11-events: events.c as state-passing functions

    [events.c] builds Win32-style events on the C11 thread primitives.  Its
    functions are embedded here one by one, each as a function in a state
    monad over the memory they share: the events, the waiters of the
    current [event_wait_multiple] call, the rendezvous mutex and the
    caller's index cell.

    - The primitives ([mtx_*], [cnd_*], [thrd_*], [calloc]) are external.
      A [world] fixes what they answer: the status of the n-th primitive
      call, whether [calloc] succeeds, and what the other threads do each
      time the calling thread blocks.  A theorem that holds for every world
      holds for every pattern of primitive failures and every schedule of
      that shape.
    - The calling thread runs atomically between two blocking calls
      ([cnd_wait], [cnd_timedwait], [thrd_join], and [thrd_create], after
      which the new thread may run).  At a blocking call the other threads
      run: the proxies of the call, each in bursts from one blocking point
      of [_event_wait_helper] to the next, and foreign threads, seen as
      stores to the latch of an event.  Nothing is interleaved inside a
      burst.  [thrd_join] waits for the thread to return and then reports
      its status.
    - [mtx] of an event is set while the mutex is held across such a
      point.  A thread that needs a held mutex does not move; the calling
      thread locking a plain mutex it holds never returns ([Stuck]).
    - Loops that may run for ever take fuel; [NoFuel] means the call has
      not returned yet.
    - Every action on a primitive or on a shared flag is appended to the
      [trace], with the thread that did it. *)

From Stdlib Require Import ZArith Bool Lia.
From stdpp Require Import list.

Open Scope nat_scope.

(** ** <threads.h> and <errno.h> *)

(** The five result codes C11 gives to the thread primitives. *)
Inductive thrd_res :=
| thrd_success | thrd_nomem | thrd_timedout | thrd_busy | thrd_error.

Definition is_success (s : thrd_res) : bool :=
  match s with thrd_success => true | _ => false end.

(** [event_error_t] is [int]; the errno macros take their Linux values. *)
Definition ENOMEM : Z := 12.
Definition EBUSY : Z := 16.
Definition EINVAL : Z := 22.
Definition ETIMEDOUT : Z := 110.
Definition ECANCELED : Z := 125.

Definition _thrd_status_to_errno (thrd_status : thrd_res) : Z :=
  match thrd_status with
  | thrd_success => 0
  | thrd_nomem => ENOMEM
  | thrd_timedout => ETIMEDOUT
  | thrd_busy => EBUSY
  | thrd_error => -1
  end.

(** ** Data model *)

(** [struct _event_t].  [mtx] is [true] while the mutex is held; [cnd] has
    no state of its own (who sleeps on it is recorded in the sleeper). *)
Record event_t := Event {
  mtx : bool;
  signaled : bool;
  is_manual_reset : bool
}.

(** A proxy thread, as far as another thread can tell: not created, created
    and about to lock its event (line 66), asleep in [cnd_wait] (line 68),
    or returned from [_event_wait_helper] with an exit code. *)
Inductive thrd_t :=
| thrd_none
| thrd_start
| thrd_sleep
| thrd_exit (code : Z).

(** [struct _event_waiter_t]; [p_wait_info] always points to the one
    [wait_info] of the call and is left out. *)
Record _event_waiter_t := Waiter {
  thrd : thrd_t;
  p_event : option nat;
  joinable : bool;
  canceled : bool;
  done : bool
}.

(** What [calloc] hands out. *)
Definition waiter_zero : _event_waiter_t :=
  Waiter thrd_none None false false false.

Inductive tid := T_caller | T_helper (i : nat).

(** A mutex/condvar pair lives in an event or in [wait_info]. *)
Inductive obj := O_event (p : nat) | O_wait_info.

Inductive action :=
| A_mtx_init (o : obj) (r : thrd_res)
| A_cnd_init (o : obj) (r : thrd_res)
| A_mtx_destroy (o : obj)
| A_cnd_destroy (o : obj)
| A_calloc (ok : bool)
| A_free
| A_mtx_lock (o : obj) (r : thrd_res)
| A_mtx_unlock (o : obj) (r : thrd_res)
| A_cnd_signal (o : obj) (r : thrd_res)
| A_cnd_broadcast (o : obj) (r : thrd_res)
| A_cnd_wait (o : obj) (r : thrd_res)
| A_cnd_timedwait (o : obj) (r : thrd_res)
| A_thrd_create (i : nat) (r : thrd_res)
| A_thrd_join (i : nat) (r : thrd_res)
| A_set_signaled (p : nat) (b : bool)
| A_set_canceled (i : nat) (b : bool)
| A_set_done (i : nat) (b : bool)
| A_set_idx (n : nat).

(** What the rest of the program does while the calling thread is blocked:
    a proxy gets the processor, or some other thread changes the latch of
    an event (the net effect of its [event_signal], [event_reset] or
    consuming [event_wait]). *)
Inductive env_action :=
| ProxyRun (i : nat)
| ExtStore (p : nat) (b : bool).

Record world := World {
  prim : nat -> thrd_res;
  sched : nat -> list env_action;
  calloc_ok : bool
}.

Record state := State {
  events : list event_t;
  wait_info_mtx : bool;
  waiters : list _event_waiter_t;
  idx_signaled_event : nat;
  tick : nat;
  self : tid;
  trace : list (tid * action)
}.

Definition set_events (f : list event_t -> list event_t) (s : state) : state :=
  State (f (events s)) (wait_info_mtx s) (waiters s) (idx_signaled_event s)
        (tick s) (self s) (trace s).
Definition set_wait_info_mtx (b : bool) (s : state) : state :=
  State (events s) b (waiters s) (idx_signaled_event s)
        (tick s) (self s) (trace s).
Definition set_waiters (f : list _event_waiter_t -> list _event_waiter_t)
    (s : state) : state :=
  State (events s) (wait_info_mtx s) (f (waiters s)) (idx_signaled_event s)
        (tick s) (self s) (trace s).
Definition set_idx (n : nat) (s : state) : state :=
  State (events s) (wait_info_mtx s) (waiters s) n
        (tick s) (self s) (trace s).
Definition set_tick (n : nat) (s : state) : state :=
  State (events s) (wait_info_mtx s) (waiters s) (idx_signaled_event s)
        n (self s) (trace s).
Definition set_self (t : tid) (s : state) : state :=
  State (events s) (wait_info_mtx s) (waiters s) (idx_signaled_event s)
        (tick s) t (trace s).
Definition log (a : action) (s : state) : state :=
  State (events s) (wait_info_mtx s) (waiters s) (idx_signaled_event s)
        (tick s) (self s) (trace s ++ [(self s, a)]).

(** ** The monad: state, plus the ways a thread stops short of returning *)

Inductive stop :=
| Abort    (* CHECK_THRD_ERR called abort() *)
| Stuck    (* locking a plain mutex the thread already holds *)
| Fault    (* a null or dangling pointer was dereferenced *)
| NoFuel.  (* still looping or blocked when the fuel ran out *)

Inductive res (A : Type) :=
| Ok (a : A)
| Stop (s : stop).
Arguments Ok {A} a.
Arguments Stop {A} s.

Definition M (A : Type) : Type := state -> res A * state.

Definition ret {A} (a : A) : M A := fun s => (Ok a, s).
Definition bind {A B} (c : M A) (k : A -> M B) : M B :=
  fun s => match c s with
           | (Ok a, s') => k a s'
           | (Stop e, s') => (Stop e, s')
           end.
Definition halt {A} (e : stop) : M A := fun s => (Stop e, s).
Definition get : M state := fun s => (Ok s, s).
Definition modify (f : state -> state) : M unit := fun s => (Ok tt, f s).

Declare Scope m_scope.
Delimit Scope m_scope with m.
Notation "x <- c ;; k" := (bind c (fun x => k))
  (at level 100, c at next level, right associativity) : m_scope.
Notation "c ;; k" := (bind c (fun _ => k))
  (at level 100, right associativity) : m_scope.
Open Scope m_scope.

(** [for (size_t i = from; i < from + n; ++i) body(i)] *)
Fixpoint for_loop (n : nat) (from : nat) (body : nat -> M unit) : M unit :=
  match n with
  | 0 => ret tt
  | S n' => body from ;; for_loop n' (S from) body
  end.

Section WithWorld.

Variable w : world.

(** ** The primitives *)

(** The status of the next fallible primitive call. *)
Definition next_status : M thrd_res :=
  fun s => (Ok (prim w (tick s)), set_tick (S (tick s)) s).

Definition mtx_of (o : obj) (s : state) : option bool :=
  match o with
  | O_event p => mtx <$> events s !! p
  | O_wait_info => Some (wait_info_mtx s)
  end.

Definition set_mtx (o : obj) (b : bool) : state -> state :=
  match o with
  | O_event p =>
      set_events (alter (fun e => Event b (signaled e) (is_manual_reset e)) p)
  | O_wait_info => set_wait_info_mtx b
  end.

(** [mtx_plain]: locking a mutex that is already held never returns. *)
Definition mtx_lock (o : obj) : M thrd_res :=
  s <- get;;
  match mtx_of o s with
  | None => halt Fault
  | Some held =>
      r <- next_status;;
      if is_success r then
        if held then halt Stuck
        else modify (set_mtx o true);; modify (log (A_mtx_lock o r));; ret r
      else modify (log (A_mtx_lock o r));; ret r
  end.

Definition mtx_unlock (o : obj) : M thrd_res :=
  s <- get;;
  match mtx_of o s with
  | None => halt Fault
  | Some _ =>
      r <- next_status;;
      (if is_success r then modify (set_mtx o false) else ret tt);;
      modify (log (A_mtx_unlock o r));; ret r
  end.

Definition cnd_signal (o : obj) : M thrd_res :=
  s <- get;;
  match mtx_of o s with
  | None => halt Fault
  | Some _ => r <- next_status;; modify (log (A_cnd_signal o r));; ret r
  end.

Definition cnd_broadcast (o : obj) : M thrd_res :=
  s <- get;;
  match mtx_of o s with
  | None => halt Fault
  | Some _ => r <- next_status;; modify (log (A_cnd_broadcast o r));; ret r
  end.

(** [CHECK_THRD_ERR]: [_check_thrd_err] prints and aborts on any failure. *)
Definition CHECK_THRD_ERR (c : M thrd_res) : M unit :=
  r <- c;; if is_success r then ret tt else halt Abort.

(** ** Loads and stores *)

Definition load_event (p : nat) : M event_t :=
  s <- get;;
  match events s !! p with
  | Some e => ret e
  | None => halt Fault
  end.

Definition store_signaled (p : nat) (b : bool) : M unit :=
  _ <- load_event p;;
  modify (set_events (alter (fun e => Event (mtx e) b (is_manual_reset e)) p));;
  modify (log (A_set_signaled p b)).

Definition load_waiter (i : nat) : M _event_waiter_t :=
  s <- get;;
  match waiters s !! i with
  | Some wt => ret wt
  | None => halt Fault
  end.

Definition store_waiter (i : nat) (f : _event_waiter_t -> _event_waiter_t)
    : M unit :=
  _ <- load_waiter i;; modify (set_waiters (alter f i)).

Definition with_thrd (t : thrd_t) (x : _event_waiter_t) :=
  Waiter t (p_event x) (joinable x) (canceled x) (done x).
Definition with_joinable (b : bool) (x : _event_waiter_t) :=
  Waiter (thrd x) (p_event x) b (canceled x) (done x).
Definition with_canceled (b : bool) (x : _event_waiter_t) :=
  Waiter (thrd x) (p_event x) (joinable x) b (done x).
Definition with_done (b : bool) (x : _event_waiter_t) :=
  Waiter (thrd x) (p_event x) (joinable x) (canceled x) b.

Definition store_canceled (i : nat) (b : bool) : M unit :=
  store_waiter i (with_canceled b);; modify (log (A_set_canceled i b)).
Definition store_done (i : nat) (b : bool) : M unit :=
  store_waiter i (with_done b);; modify (log (A_set_done i b)).

(** Dereference of an [event_t*]. *)
Definition deref (p : option nat) : M nat :=
  match p with
  | Some a => ret a
  | None => halt Fault
  end.

(** ** [_event_wait_helper], the body of a proxy thread

    A proxy runs in bursts: from its creation to its first [cnd_wait], from
    one return of [cnd_wait] to the next call, and to its exit.  Each burst
    is one function below; [thrd] of its waiter records where it stands. *)

(** Lines 83-96: publish [done], wake the coordinator, compute the exit
    code. *)
Definition _event_wait_helper_finish (i : nat) (thrd_status : thrd_res)
    (signaled : bool) : M unit :=
  CHECK_THRD_ERR (mtx_lock O_wait_info);;
  store_done i true;;
  CHECK_THRD_ERR (cnd_signal O_wait_info);;
  CHECK_THRD_ERR (mtx_unlock O_wait_info);;
  store_waiter i (with_thrd (thrd_exit
    (if negb (is_success thrd_status) then _thrd_status_to_errno thrd_status
     else if negb signaled then ECANCELED
     else 0%Z))).

(** Lines 78-80. *)
Definition _event_wait_helper_unlock (i p : nat) (thrd_status : thrd_res)
    (signaled : bool) : M unit :=
  thrd_status_2 <- mtx_unlock (O_event p);;
  _event_wait_helper_finish i
    (if is_success thrd_status then thrd_status_2 else thrd_status) signaled.

(** Entering [cnd_wait] on line 68: the event mutex is released and the
    thread sleeps. *)
Definition _event_wait_helper_sleep (i p : nat) : M unit :=
  modify (set_mtx (O_event p) false);;
  store_waiter i (with_thrd thrd_sleep).

(** Lines 68-75, from the return of [cnd_wait] (which holds the event
    mutex again) to the next [cnd_wait] or to the end of the loop. *)
Definition _event_wait_helper_wake (i p : nat) : M unit :=
  thrd_status <- next_status;;
  modify (set_mtx (O_event p) true);;
  modify (log (A_cnd_wait (O_event p) thrd_status));;
  if is_success thrd_status then
    CHECK_THRD_ERR (mtx_lock O_wait_info);;
    wt <- load_waiter i;;
    CHECK_THRD_ERR (mtx_unlock O_wait_info);;
    if canceled wt then _event_wait_helper_unlock i p thrd_status false
    else
      e <- load_event p;;
      if signaled e then _event_wait_helper_unlock i p thrd_status true
      else _event_wait_helper_sleep i p
  else _event_wait_helper_unlock i p thrd_status false.

(** Lines 60-67. *)
Definition _event_wait_helper_start (i p : nat) : M unit :=
  thrd_status <- mtx_lock (O_event p);;
  if is_success thrd_status then
    e <- load_event p;;
    if signaled e then _event_wait_helper_unlock i p thrd_status true
    else _event_wait_helper_sleep i p
  else _event_wait_helper_finish i thrd_status false.

(** One burst of proxy [i].  A proxy whose event mutex or whose rendezvous
    mutex is held by another thread cannot move. *)
Definition _event_wait_helper (i : nat) : M unit :=
  s <- get;;
  match waiters s !! i with
  | None => ret tt
  | Some wt =>
      match thrd wt with
      | thrd_none | thrd_exit _ => ret tt
      | t =>
          p <- deref (p_event wt);;
          match mtx_of (O_event p) s with
          | None => halt Fault
          | Some held =>
              if held || wait_info_mtx s then ret tt
              else
                modify (set_self (T_helper i));;
                match t with
                | thrd_start => _event_wait_helper_start i p
                | _ => _event_wait_helper_wake i p
                end;;
                modify (set_self (self s))
          end
      end
  end.

(** ** The other threads *)

Definition run_env_action (a : env_action) : M unit :=
  match a with
  | ProxyRun i => _event_wait_helper i
  | ExtStore p b =>
      s <- get;;
      match events s !! p with
      | Some e =>
          if mtx e then ret tt
          else modify (set_events
                 (alter (fun e => Event (mtx e) b (is_manual_reset e)) p))
      | None => ret tt
      end
  end.

Fixpoint run_env (l : list env_action) : M unit :=
  match l with
  | [] => ret tt
  | a :: l' => run_env_action a;; run_env l'
  end.

(** The calling thread is blocked: the next batch of the schedule runs. *)
Definition yield : M unit :=
  s <- get;;
  modify (set_tick (S (tick s)));;
  run_env (sched w (tick s)).

(** ** Blocking primitives of the calling thread *)

Definition cnd_wait (o : obj) : M thrd_res :=
  modify (set_mtx o false);;
  yield;;
  r <- next_status;;
  modify (set_mtx o true);;
  modify (log (A_cnd_wait o r));; ret r.

Definition cnd_timedwait (o : obj) (p_time : Z) : M thrd_res :=
  modify (set_mtx o false);;
  yield;;
  r <- next_status;;
  modify (set_mtx o true);;
  modify (log (A_cnd_timedwait o r));; ret r.

(** A created thread may run at once. *)
Definition thrd_create (i : nat) : M thrd_res :=
  r <- next_status;;
  (if is_success r then store_waiter i (with_thrd thrd_start) else ret tt);;
  modify (log (A_thrd_create i r));;
  (if is_success r then yield else ret tt);;
  ret r.

(** [thrd_join] blocks until the thread has returned, then reports its
    status and exit code. *)
Fixpoint thrd_join (fuel : nat) (i : nat) : M (thrd_res * Z) :=
  wt <- load_waiter i;;
  match thrd wt with
  | thrd_exit code =>
      r <- next_status;; modify (log (A_thrd_join i r));; ret (r, code)
  | thrd_none => halt Fault
  | _ =>
      match fuel with
      | 0 => halt NoFuel
      | S fuel' => yield;; thrd_join fuel' i
      end
  end.

Definition mtx_init (o : obj) : M thrd_res :=
  r <- next_status;; modify (log (A_mtx_init o r));; ret r.
Definition cnd_init (o : obj) : M thrd_res :=
  r <- next_status;; modify (log (A_cnd_init o r));; ret r.
Definition mtx_destroy (o : obj) : M unit := modify (log (A_mtx_destroy o)).
Definition cnd_destroy (o : obj) : M unit := modify (log (A_cnd_destroy o)).

(** ** The single-event operations *)

Definition event_init (p_event : option nat) (is_manual_reset initial_state : bool)
    : M Z :=
  match p_event with
  | None => ret EINVAL
  | Some p =>
      _ <- load_event p;;
      thrd_status <- mtx_init (O_event p);;
      if is_success thrd_status then
        thrd_status <- cnd_init (O_event p);;
        if is_success thrd_status then
          modify (set_events
            (alter (fun _ => Event false initial_state is_manual_reset) p));;
          ret 0%Z
        else
          mtx_destroy (O_event p);;
          ret (_thrd_status_to_errno thrd_status)
      else ret (_thrd_status_to_errno thrd_status)
  end.

Definition event_destroy (p_event : option nat) : M unit :=
  match p_event with
  | None => ret tt
  | Some p => cnd_destroy (O_event p);; mtx_destroy (O_event p)
  end.

Definition event_signal (p_event : option nat) : M Z :=
  match p_event with
  | None => ret EINVAL
  | Some p =>
      thrd_status <- mtx_lock (O_event p);;
      thrd_status <-
        (if is_success thrd_status then
           store_signaled p true;;
           e <- load_event p;;
           thrd_status <- (if is_manual_reset e then cnd_broadcast (O_event p)
                           else cnd_signal (O_event p));;
           thrd_status_2 <- mtx_unlock (O_event p);;
           ret (if is_success thrd_status then thrd_status_2 else thrd_status)
         else ret thrd_status);;
      ret (_thrd_status_to_errno thrd_status)
  end.

Definition event_reset (p_event : option nat) : M Z :=
  match p_event with
  | None => ret EINVAL
  | Some p =>
      thrd_status <- mtx_lock (O_event p);;
      thrd_status <-
        (if is_success thrd_status then
           store_signaled p false;;
           mtx_unlock (O_event p)
         else ret thrd_status);;
      ret (_thrd_status_to_errno thrd_status)
  end.

Definition event_pulse (p_event : option nat) : M Z :=
  err <- event_signal p_event;;
  if (err =? 0)%Z then event_reset p_event else ret err.

(** [p_time ? cnd_timedwait(cnd, mtx, p_time) : cnd_wait(cnd, mtx)] *)
Definition cnd_wait_until (o : obj) (p_time : option Z) : M thrd_res :=
  match p_time with
  | Some t => cnd_timedwait o t
  | None => cnd_wait o
  end.

(** Lines 176-182: the [do ... while] of [event_wait], entered with the
    mutex held.  The result is [thrd_status] on leaving the loop.  One unit
    of fuel pays for one more turn. *)
Fixpoint event_wait_loop (fuel : nat) (p : nat) (p_time : option Z)
    (thrd_status : thrd_res) : M thrd_res :=
  e <- load_event p;;
  if signaled e then
    (if negb (is_manual_reset e) then store_signaled p false else ret tt);;
    ret thrd_status
  else
    thrd_status <- cnd_wait_until (O_event p) p_time;;
    if is_success thrd_status then
      match fuel with
      | 0 => halt NoFuel
      | S fuel' => event_wait_loop fuel' p p_time thrd_status
      end
    else ret thrd_status.

Definition event_wait (fuel : nat) (p_event : option nat) (p_time : option Z)
    : M Z :=
  match p_event with
  | None => ret EINVAL
  | Some p =>
      thrd_status <- mtx_lock (O_event p);;
      thrd_status <-
        (if is_success thrd_status then
           thrd_status <- event_wait_loop fuel p p_time thrd_status;;
           thrd_status_2 <- mtx_unlock (O_event p);;
           ret (if is_success thrd_status then thrd_status_2 else thrd_status)
         else ret thrd_status);;
      ret (_thrd_status_to_errno thrd_status)
  end.

(** ** [event_wait_multiple] *)

(** [err], [thrd_status] and [all_signaled] of [event_wait_multiple]. *)
Record locals := Locals {
  err : Z;
  thrd_status : thrd_res;
  all_signaled : bool
}.

(** Where control goes after a scan: on to the next statement, or
    [goto clean_up_threads]. *)
Inductive flow := Next | Goto_clean_up_threads.

(** [p_events[i]] *)
Definition load_p_events (p_events : list (option nat)) (i : nat)
    : M (option nat) :=
  match p_events !! i with
  | Some p => ret p
  | None => halt Fault
  end.

(** [*p_idx_signaled_event = n]; the pointer is [true] when it is not null
    and then points to [idx_signaled_event] of the state. *)
Definition store_idx (p_idx_signaled_event : bool) (n : nat) : M unit :=
  if p_idx_signaled_event then
    modify (set_idx n);; modify (log (A_set_idx n))
  else halt Fault.

Section Coordinator.

Variable fuel : nat.
Variable p_events : list (option nat).
Variable wait_all : bool.
Variable p_time : option Z.
Variable p_idx_signaled_event : bool.

(** Lines 232-233: [for (j = 0; j < i; ++j) thrd_join(p_waiters[j].thrd, NULL)]. *)
Definition join_spawned (i : nat) : M unit :=
  for_loop i 0 (fun j => _ <- thrd_join fuel j;; ret tt).

(** Lines 223-237, for the [n] indices from [i] on.  The result is
    [thrd_status] after the loop; a failure has already joined the proxies
    spawned before it and goes to [clean_up_wait_info_cnd]. *)
Fixpoint spawn_waiters (n i : nat) : M thrd_res :=
  match n with
  | 0 => ret thrd_success
  | S n' =>
      p <- load_p_events p_events i;;
      store_waiter i (fun x => Waiter (thrd x) p true (canceled x) (done x));;
      store_canceled i false;;
      store_done i false;;
      thrd_status <- thrd_create i;;
      if is_success thrd_status then spawn_waiters n' (S i)
      else join_spawned i;; ret thrd_status
  end.

(** Lines 250-262 and 297-309: join a done proxy once.  [Next] carries on
    with the scan. *)
Definition join_done (i : nat) (wt : _event_waiter_t) (l : locals)
    : M (flow * locals) :=
  if joinable wt then
    r <- thrd_join fuel i;;
    store_waiter i (with_joinable false);;
    if negb (is_success (fst r)) then
      ret (Goto_clean_up_threads, Locals 0 (fst r) (all_signaled l))
    else if negb (snd r =? 0)%Z then
      ret (Goto_clean_up_threads, Locals (snd r) (fst r) (all_signaled l))
    else ret (Next, Locals (snd r) (fst r) (all_signaled l))
  else ret (Next, l).

(** Lines 247-266. *)
Fixpoint scan_all (n i : nat) (l : locals) : M (flow * locals) :=
  match n with
  | 0 => ret (Next, l)
  | S n' =>
      wt <- load_waiter i;;
      if done wt then
        r <- join_done i wt l;;
        match fst r with
        | Goto_clean_up_threads => ret r
        | Next => scan_all n' (S i) (snd r)
        end
      else scan_all n' (S i) (Locals (err l) (thrd_status l) false)
  end.

(** Lines 270-278: the result is [(locked, thrd_status, all_signaled)]
    after the loop. *)
Fixpoint lock_events (n locked : nat) (thrd_status : thrd_res)
    : M (nat * thrd_res * bool) :=
  match n with
  | 0 => ret (locked, thrd_status, true)
  | S n' =>
      p <- load_p_events p_events locked;;
      p <- deref p;;
      thrd_status <- mtx_lock (O_event p);;
      if negb (is_success thrd_status) then ret (locked, thrd_status, true)
      else
        e <- load_event p;;
        if negb (signaled e) then ret (locked, thrd_status, false)
        else lock_events n' (S locked) thrd_status
  end.

(** Lines 280-286: the result is [thrd_status_2] after the loop. *)
Fixpoint unlock_events (n i : nat) (all_signaled : bool)
    (thrd_status_2 : thrd_res) : M thrd_res :=
  match n with
  | 0 => ret thrd_status_2
  | S n' =>
      p <- load_p_events p_events i;;
      p <- deref p;;
      e <- load_event p;;
      (if all_signaled && negb (is_manual_reset e)
       then store_signaled p false else ret tt);;
      thrd_status_2 <- mtx_unlock (O_event p);;
      unlock_events n' (S i) all_signaled thrd_status_2
  end.

(** Lines 268-292, the group verification. *)
Definition verify_group (c_events : nat) (l : locals) : M locals :=
  r <- lock_events c_events 0 (thrd_status l);;
  let '(locked, thrd_status, all_signaled) := r in
  thrd_status_2 <- unlock_events locked 0 all_signaled thrd_success;;
  ret (Locals (err l)
         (if is_success thrd_status then thrd_status_2 else thrd_status)
         all_signaled).

(** Lines 311-318. *)
Definition take_signaled (i : nat) : M unit :=
  store_idx p_idx_signaled_event i;;
  p <- load_p_events p_events i;;
  p <- deref p;;
  e <- load_event p;;
  if negb (is_manual_reset e) then
    r <- mtx_lock (O_event p);;
    if is_success r then
      store_signaled p false;;
      _ <- mtx_unlock (O_event p);; ret tt
    else ret tt
  else ret tt.

(** Lines 294-320. *)
Fixpoint scan_any (n i : nat) (l : locals) : M (flow * locals) :=
  match n with
  | 0 => ret (Next, l)
  | S n' =>
      wt <- load_waiter i;;
      if done wt then
        r <- join_done i wt l;;
        match fst r with
        | Goto_clean_up_threads => ret r
        | Next => take_signaled i;; ret (Goto_clean_up_threads, snd r)
        end
      else scan_any n' (S i) l
  end.

(** Lines 245-321, the body of the [do ... while]. *)
Definition scan (c_events : nat) (l : locals) : M (flow * locals) :=
  if wait_all then
    r <- scan_all c_events 0 (Locals (err l) (thrd_status l) true);;
    match fst r with
    | Goto_clean_up_threads => ret r
    | Next =>
        if all_signaled (snd r) then
          l' <- verify_group c_events (snd r);;
          ret (Goto_clean_up_threads, l')
        else ret r
    end
  else scan_any c_events 0 l.

(** Lines 244-322.  One unit of fuel pays for one more turn. *)
Fixpoint wait_loop (turns : nat) (c_events : nat) (l : locals) : M locals :=
  r <- scan c_events l;;
  match fst r with
  | Goto_clean_up_threads => ret (snd r)
  | Next =>
      thrd_status <- cnd_wait_until O_wait_info p_time;;
      let l' := Locals (err (snd r)) thrd_status (all_signaled (snd r)) in
      if is_success thrd_status then
        match turns with
        | 0 => halt NoFuel
        | S turns' => wait_loop turns' c_events l'
        end
      else ret l'
  end.

(** Lines 325-336. *)
Definition cancel_waiter (i : nat) : M unit :=
  wt <- load_waiter i;;
  if negb (done wt) then
    p <- deref (p_event wt);;
    CHECK_THRD_ERR (mtx_lock (O_event p));;
    store_canceled i true;;
    CHECK_THRD_ERR (cnd_broadcast (O_event p));;
    CHECK_THRD_ERR (mtx_unlock (O_event p))
  else ret tt.

(** Lines 340-345. *)
Definition join_waiter (i : nat) : M unit :=
  wt <- load_waiter i;;
  if joinable wt then _ <- thrd_join fuel i;; ret tt else ret tt.

(** Lines 324-345. *)
Definition clean_up_threads (c_events : nat) : M unit :=
  for_loop c_events 0 cancel_waiter;;
  CHECK_THRD_ERR (mtx_unlock O_wait_info);;
  for_loop c_events 0 join_waiter.

(** Lines 222-348: from [restart_wait] to [clean_up_wait_info_cnd].  One
    unit of fuel pays for one [goto restart_wait]. *)
Fixpoint restart_wait (rounds : nat) (c_events : nat) (l : locals) : M locals :=
  created <- spawn_waiters c_events 0;;
  if negb (is_success created) then
    ret (Locals (err l) created (all_signaled l))
  else
    CHECK_THRD_ERR (mtx_lock O_wait_info);;
    l <- (if negb (is_success created)
          then ret (Locals (err l) created (all_signaled l))
          else wait_loop fuel c_events
                 (Locals (err l) created (all_signaled l)));;
    clean_up_threads c_events;;
    if wait_all && (err l =? 0)%Z && is_success (thrd_status l)
       && negb (all_signaled l)
    then
      match rounds with
      | 0 => halt NoFuel
      | S rounds' => restart_wait rounds' c_events l
      end
    else ret l.

End Coordinator.

(** Lines 192-363.  A failed [calloc] leaves [ENOMEM] in [errno]. *)
Definition event_wait_multiple (fuel : nat) (p_events : option (list (option nat)))
    (c_events : nat) (wait_all : bool) (p_time : option Z)
    (p_idx_signaled_event : bool) : M Z :=
  (if p_idx_signaled_event then store_idx p_idx_signaled_event 0 else ret tt);;
  if c_events =? 0 then ret 0%Z
  else
    match p_events with
    | None => ret EINVAL
    | Some arr =>
        if negb wait_all && negb p_idx_signaled_event then ret EINVAL
        else if c_events =? 1 then
          p <- load_p_events arr 0;;
          event_wait fuel p p_time
        else if negb (calloc_ok w) then
          modify (log (A_calloc false));; ret ENOMEM
        else
          modify (log (A_calloc true));;
          modify (set_waiters (fun _ => replicate c_events waiter_zero));;
          thrd_status <- mtx_init O_wait_info;;
          if negb (is_success thrd_status) then
            modify (log A_free);;
            ret (_thrd_status_to_errno thrd_status)
          else
            modify (set_wait_info_mtx false);;
            thrd_status <- cnd_init O_wait_info;;
            if negb (is_success thrd_status) then
              mtx_destroy O_wait_info;;
              modify (log A_free);;
              ret (_thrd_status_to_errno thrd_status)
            else
              l <- restart_wait fuel arr wait_all p_time p_idx_signaled_event
                     fuel c_events (Locals 0 thrd_status false);;
              cnd_destroy O_wait_info;;
              mtx_destroy O_wait_info;;
              modify (log A_free);;
              let '(Locals err thrd_status _) := l in
              if negb (err =? 0)%Z then ret err
              else ret (_thrd_status_to_errno thrd_status)
    end.

End WithWorld.

(** * Specifications of runs *)

(** [hoare P c Q]: from a state in [P], if [c] returns, it returns a value
    and a state in [Q]. *)
Definition hoare {A} (P : state -> Prop) (c : M A) (Q : A -> state -> Prop)
    : Prop :=
  forall s, P s ->
    match c s with
    | (Ok a, s') => Q a s'
    | (Stop _, _) => True
    end.

(** Predicates on the part of the state that only [p_waiters] and the
    caller's index cell make up: no primitive touches them. *)
Class Frame (I : state -> Prop) : Prop := {
  frame_events : forall f s, I s -> I (set_events f s);
  frame_wait_info_mtx : forall b s, I s -> I (set_wait_info_mtx b s);
  frame_tick : forall n s, I s -> I (set_tick n s);
  frame_self : forall t s, I s -> I (set_self t s);
  frame_log : forall a s, I s -> I (log a s)
}.

(** Predicates on the caller's index cell alone. *)
Class FrameWaiters (I : state -> Prop) : Prop := {
  fw_frame :: Frame I;
  frame_waiters : forall f s, I s -> I (set_waiters f s)
}.

Definition preserves {A} (I : state -> Prop) (c : M A) : Prop :=
  hoare I c (fun _ => I).

(** Predicates that, besides, no burst of a proxy breaks. *)
Class EnvFrame (w : world) (I : state -> Prop) : Prop := {
  env_frame :: Frame I;
  env_helper : forall i, preserves I (_event_wait_helper w i)
}.


(** Predicates that nothing but a store through the out pointer could
    break, and that do not look at the index cell either. *)
Class FrameIdx (I : state -> Prop) : Prop := {
  fi_frame :: FrameWaiters I;
  frame_idx : forall n s, I s -> I (set_idx n s)
}.

(** ** Invariants of [event_wait_multiple] *)

(** The caller's index cell holds zero, or [X] holds. *)
Definition idx_zero_or (X : Prop) (s : state) : Prop :=
  idx_signaled_event s = 0 \/ X.

(** [err] and [thrd_status] as they are when nothing has failed. *)
Definition no_failure (l : locals) : Prop :=
  err l = 0%Z /\ thrd_status l = thrd_success.

(** The trace begins with [pre]. *)
Definition trace_extends (pre : list (tid * action)) (s : state) : Prop :=
  exists rest, trace s = pre ++ rest.

(** A waiter that nobody has canceled and whose thread has not returned
    [ECANCELED]. *)
Definition clean_waiter (wt : _event_waiter_t) : Prop :=
  canceled wt = false /\ thrd wt <> thrd_exit ECANCELED.

(** The waiters before index [k] are clean. *)
Definition clean_below (k : nat) (s : state) : Prop :=
  forall j wt, j < k -> waiters s !! j = Some wt -> clean_waiter wt.

(** Waiter [i] is set up for [thrd_create]: the waiters before it are
    clean and its own [canceled] is reset. *)
Definition spawn_ready (i : nat) (s : state) : Prop :=
  clean_below i s
  /\ forall wt, waiters s !! i = Some wt -> canceled wt = false.

(** No condition on the state. *)
Definition any_state (s : state) : Prop := True.


(** The caller's index cell holds [n]. *)
Definition idx_is (n : nat) (s : state) : Prop := idx_signaled_event s = n.

(** Two states that differ at most in the caller's index cell and in the
    trace. *)
Definition core_eq (s1 s2 : state) : Prop :=
  events s1 = events s2 /\ wait_info_mtx s1 = wait_info_mtx s2
  /\ waiters s1 = waiters s2 /\ tick s1 = tick s2 /\ self s1 = self s2.

(** Two runs that return the same from such states, and end in such
    states. *)
Definition sim2 {A} (c1 c2 : M A) : Prop :=
  forall s1 s2, core_eq s1 s2 ->
    fst (c1 s1) = fst (c2 s2) /\ core_eq (snd (c1 s1)) (snd (c2 s2)).

Definition sim {A} (c : M A) : Prop := sim2 c c.

(** ** The life of the proxy threads *)

(** The thread of a waiter is alive: created and not yet returned. *)
Definition running (wt : _event_waiter_t) : bool :=
  match thrd wt with
  | thrd_start | thrd_sleep => true
  | _ => false
  end.

(** No thread is alive among the waiters before [lo], from [hi] on, or
    already joined. *)
Definition settled (lo hi : nat) (s : state) : Prop :=
  forall j wt, waiters s !! j = Some wt ->
    j < lo \/ hi <= j \/ joinable wt = false -> running wt = false.

(** No waiter has a live thread. *)
Definition no_proxy_running (s : state) : Prop :=
  forall j wt, waiters s !! j = Some wt -> running wt = false.

(** The thread of waiter [i] is alive (if there is such a waiter). *)
Definition running_at (i : nat) (s : state) : Prop :=
  forall wt, waiters s !! i = Some wt -> running wt = true.

(** The thread of waiter [i] is not alive. *)
Definition idle_at (i : nat) (s : state) : Prop :=
  forall wt, waiters s !! i = Some wt -> running wt = false.


(** Within a burst of proxy [i]: its thread is alive, so its waiter is not
    one that [settled] speaks of. *)
Definition in_burst (lo hi i : nat) (s : state) : Prop :=
  settled lo hi s /\ running_at i s.

(** Waiter [j] is [wt]. *)
Definition waiter_is (j : nat) (wt : _event_waiter_t) (s : state) : Prop :=
  waiters s !! j = Some wt.

(** [settled], and waiter [j] is known. *)
Definition seen (lo hi j : nat) (wt : _event_waiter_t) (s : state) : Prop :=
  settled lo hi s /\ waiter_is j wt s.

(** ** What happens to the events *)

(** From [s] to [s'] no latch was set, and only latches of auto-reset
    events were cleared; no event changed its reset mode. *)
Definition only_consumed (s s' : state) : Prop :=
  length (events s') = length (events s)
  /\ forall q e, events s !! q = Some e ->
       exists e', events s' !! q = Some e'
         /\ is_manual_reset e' = is_manual_reset e
         /\ (signaled e' = signaled e
             \/ (signaled e' = false /\ is_manual_reset e = false)).

(** ** What the call returns *)

(** The values of [_thrd_status_to_errno]. *)
Definition errno_image (z : Z) : Prop :=
  z = 0%Z \/ z = ENOMEM \/ z = ETIMEDOUT \/ z = EBUSY \/ z = (-1)%Z.

(** The values a proxy returns. *)
Definition exit_code (z : Z) : Prop := errno_image z \/ z = ECANCELED.

(** Every proxy that has returned has returned such a value. *)
Definition exit_codes (s : state) : Prop :=
  forall j wt z, waiters s !! j = Some wt -> thrd wt = thrd_exit z ->
    exit_code z.

(** ** What is never written *)

(** Predicates that neither taking nor releasing a mutex breaks, nor
    anything outside the events. *)
Class MtxFrame (I : state -> Prop) : Prop := {
  mf_mtx : forall p b s, I s ->
    I (set_events (alter (fun e => Event b (signaled e) (is_manual_reset e)) p)
         s);
  mf_wait_info_mtx : forall b s, I s -> I (set_wait_info_mtx b s);
  mf_waiters : forall f s, I s -> I (set_waiters f s);
  mf_idx : forall n s, I s -> I (set_idx n s);
  mf_tick : forall n s, I s -> I (set_tick n s);
  mf_self : forall t s, I s -> I (set_self t s);
  mf_log : forall a s, I s -> I (log a s)
}.

(** Predicates that, besides, no store to a latch breaks. *)
Class LatchFrame (I : state -> Prop) : Prop := {
  lf_frame :: MtxFrame I;
  lf_signaled : forall p b s, I s ->
    I (set_events (alter (fun e => Event (mtx e) b (is_manual_reset e)) p) s)
}.

(** The latch and the reset mode of every event. *)
Definition latches (s : state) : list (bool * bool) :=
  (fun e => (signaled e, is_manual_reset e)) <$> events s.

(** The reset mode of every event. *)
Definition modes (s : state) : list bool := is_manual_reset <$> events s.

(** The latches and modes are [L]. *)
Definition latches_are (L : list (bool * bool)) (s : state) : Prop :=
  latches s = L.

(** The modes are [L]. *)
Definition modes_are (L : list bool) (s : state) : Prop := modes s = L.

(** ** The teardown *)

(** What the cancel loop does to a waiter. *)
Definition cancel (wt : _event_waiter_t) : _event_waiter_t :=
  if done wt then wt else with_canceled true wt.

(** ** What the call logs: resources and stores to latches *)

(** The actions on what the call acquires: the array of waiters and the
    rendezvous mutex and condition variable. *)
Definition is_resource (a : action) : bool :=
  match a with
  | A_mtx_init _ _ | A_cnd_init _ _ | A_mtx_destroy _ | A_cnd_destroy _
  | A_calloc _ | A_free => true
  | _ => false
  end.

(** The stores to a latch. *)
Definition is_latch_store (a : action) : bool :=
  match a with
  | A_set_signaled _ _ => true
  | _ => false
  end.

(** The synchronisation inside a wait: locks, notifications, waits, and
    the flags of the waiters. *)
Definition is_sync (a : action) : bool :=
  match a with
  | A_mtx_lock _ _ | A_mtx_unlock _ _ | A_cnd_signal _ _
  | A_cnd_broadcast _ _ | A_cnd_wait _ _ | A_cnd_timedwait _ _
  | A_set_canceled _ _ | A_set_done _ _ => true
  | _ => false
  end.

(** Thread creation and joining. *)
Definition is_thread (a : action) : bool :=
  match a with
  | A_thrd_create _ _ | A_thrd_join _ _ => true
  | _ => false
  end.

(** The actions of a trace that [loud] picks, in order. *)
Definition logged (loud : action -> bool) (tr : list (tid * action))
    : list action :=
  List.filter loud (map snd tr).

(** The resource actions of a trace, in order. *)
Definition resources (tr : list (tid * action)) : list action :=
  logged is_resource tr.

(** The stores to latches of a trace, in order. *)
Definition latch_stores (tr : list (tid * action)) : list action :=
  logged is_latch_store tr.

(** Since the trace was [pre], the loud actions were [res]. *)
Definition logged_since (loud : action -> bool) (pre : list (tid * action))
    (res : list action) (s : state) : Prop :=
  exists rest, trace s = pre ++ rest /\ logged loud rest = res.

(** The resource actions of a call that has released what it acquired:
    nothing acquired; a failed [calloc]; the array and nothing else; the
    array and the mutex; the array, the mutex and the condition variable. *)
Definition released (res : list action) : Prop :=
  res = []
  \/ res = [A_calloc false]
  \/ (exists e, is_success e = false
        /\ res = [A_calloc true; A_mtx_init O_wait_info e; A_free])
  \/ (exists e, is_success e = false
        /\ res = [A_calloc true; A_mtx_init O_wait_info thrd_success;
                  A_cnd_init O_wait_info e; A_mtx_destroy O_wait_info;
                  A_free])
  \/ res = [A_calloc true; A_mtx_init O_wait_info thrd_success;
            A_cnd_init O_wait_info thrd_success; A_cnd_destroy O_wait_info;
            A_mtx_destroy O_wait_info; A_free].

(** Since the trace was [pre], the call has stored to no latch; or [ok]
    holds and it has cleared, once, the latch of the event whose index it
    reports. *)
Definition took_at_most_one (arr : list (option nat))
    (pre : list (tid * action)) (ok : Prop) (s : state) : Prop :=
  logged_since is_latch_store pre [] s
  \/ (ok /\ exists p, arr !! idx_signaled_event s = Some (Some p)
              /\ logged_since is_latch_store pre [A_set_signaled p false] s).

(** The index cell holds [i] and, since the trace was [pre], the stores to
    latches were [res]. *)
Definition at_idx (i : nat) (pre : list (tid * action)) (res : list action)
    (s : state) : Prop :=
  idx_signaled_event s = i /\ logged_since is_latch_store pre res s.

(** Predicates on the trace that a [quiet] action does not break, nor
    anything but a store through the out pointer. *)
Class LogFrame (quiet : action -> bool) (I : state -> Prop) : Prop := {
  lg_events : forall f s, I s -> I (set_events f s);
  lg_wait_info_mtx : forall b s, I s -> I (set_wait_info_mtx b s);
  lg_waiters : forall f s, I s -> I (set_waiters f s);
  lg_tick : forall n s, I s -> I (set_tick n s);
  lg_self : forall t s, I s -> I (set_self t s);
  lg_log : forall a s, quiet a = true -> I s -> I (log a s)
}.

(** Predicates that a store through the out pointer does not break. *)
Class IdxFrame (I : state -> Prop) : Prop :=
  lg_idx : forall n s, I s -> I (set_idx n s).

(** The actions that [quiet] lets through. *)
Class SyncQuiet (quiet : action -> bool) : Prop :=
  sync_quiet : forall a, is_sync a = true -> quiet a = true.

Class ThreadQuiet (quiet : action -> bool) : Prop :=
  thread_quiet : forall a, is_thread a = true -> quiet a = true.

Class LatchQuiet (quiet : action -> bool) : Prop :=
  latch_quiet : forall p b, quiet (A_set_signaled p b) = true.

Class IdxQuiet (quiet : action -> bool) : Prop :=
  idx_quiet : forall n, quiet (A_set_idx n) = true.

(** ** Who writes what in the waiters *)

(** What a burst of proxy [i] may do to waiter [j]: nothing if it is not
    its own, and to its own only set [done] and move its thread on, never
    back to not created. *)
Definition waiter_kept (i j : nat) (wt wt' : _event_waiter_t) : Prop :=
  p_event wt' = p_event wt /\ joinable wt' = joinable wt
  /\ canceled wt' = canceled wt
  /\ (done wt = true -> done wt' = true)
  /\ (thrd wt <> thrd_none -> thrd wt' <> thrd_none)
  /\ (j <> i -> wt' = wt).

(** The waiters are [ws], but for what proxy [i] may have done. *)
Definition waiters_kept (i : nat) (ws : list _event_waiter_t) (s : state)
    : Prop :=
  length (waiters s) = length ws
  /\ forall j wt, ws !! j = Some wt ->
       exists wt', waiters s !! j = Some wt' /\ waiter_kept i j wt wt'.

(** The waiters below [k] are set up as the spawn loop leaves them: waiter
    [i] waits for [p_events[i]], is joinable and not canceled, and its
    thread has been created. *)
Definition spawned_below (arr : list (option nat)) (k : nat) (s : state)
    : Prop :=
  forall i, i < k ->
    exists wt, waiters s !! i = Some wt /\ arr !! i = Some (p_event wt)
      /\ joinable wt = true /\ canceled wt = false
      /\ thrd wt <> thrd_none.

(** ** The threads the call creates and joins *)

(** The actions that create a thread or join one. *)
Definition is_thread_event (a : action) : bool :=
  match a with
  | A_thrd_create _ r => is_success r
  | A_thrd_join _ _ => true
  | _ => false
  end.

(** The thread of proxy [i] across an action: [Some true] when it has been
    created and not joined yet, [Some false] when there is none to join,
    and [None] for good once a thread is created over one not yet joined,
    or a join is made with no thread to join. *)
Definition thread_step (i : nat) (st : option bool) (a : action)
    : option bool :=
  match a with
  | A_thrd_create j r =>
      if (j =? i) && is_success r then
        match st with Some false => Some true | _ => None end
      else st
  | A_thrd_join j _ =>
      if j =? i then
        match st with Some true => Some false | _ => None end
      else st
  | _ => st
  end.

(** The thread of proxy [i] after a trace that starts with no thread. *)
Definition thread_after (i : nat) (tr : list (tid * action)) : option bool :=
  fold_left (thread_step i) (map snd tr) (Some false).

(** Since the trace was [pre], the threads with a join outstanding are
    those of [O]. *)
Definition threads_since (pre : list (tid * action)) (O : nat -> bool)
    (s : state) : Prop :=
  exists rest, trace s = pre ++ rest
    /\ forall i, thread_after i rest = Some (O i).

(** The [joinable] flags of the waiters. *)
Definition jmap (s : state) : list bool := joinable <$> waiters s.

(** The [joinable] flags are [J]. *)
Definition joinables (J : list bool) (s : state) : Prop := jmap s = J.

(** Waiter [i] has a join outstanding: it is between [lo] and [hi] and
    joinable. *)
Definition owes (lo hi : nat) (J : list bool) (i : nat) : bool :=
  (lo <=? i) && (i <? hi) && default false (J !! i).

(** The same, but for waiter [k], whose join has just been made. *)
Definition owes_but (lo hi k : nat) (J : list bool) (i : nat) : bool :=
  negb (i =? k) && owes lo hi J i.

(** Since the trace was [pre], the joins outstanding are those of the
    joinable waiters between [lo] and [hi]. *)
Definition owed (lo hi : nat) (pre : list (tid * action)) (s : state)
    : Prop :=
  threads_since pre (owes lo hi (jmap s)) s.

(** The same, and waiter [k] is joinable. *)
Definition owed_at (lo hi k : nat) (pre : list (tid * action)) (s : state)
    : Prop :=
  jmap s !! k = Some true /\ owed lo hi pre s.

(** The same, after the join on waiter [k]. *)
Definition paid (lo hi k : nat) (pre : list (tid * action)) (s : state)
    : Prop :=
  threads_since pre (owes_but lo hi k (jmap s)) s.

(** ** Runs that return *)

(** [total P c Q]: from a state in [P], [c] returns, and it returns a
    value and a state in [Q]. *)
Definition total {A} (P : state -> Prop) (c : M A) (Q : A -> state -> Prop)
    : Prop :=
  forall s, P s -> exists a s', c s = (Ok a, s') /\ Q a s'.

(** How far the thread of a waiter is from having returned: a thread that
    has not run yet may still go to sleep once. *)
Definition rank (wt : _event_waiter_t) : nat :=
  match thrd wt with
  | thrd_start => 2
  | thrd_sleep => 1
  | _ => 0
  end.

(** What one burst makes of the waiter of a proxy whose event is [e], when
    no primitive fails. *)
Definition burst (e : event_t) (wt : _event_waiter_t) : _event_waiter_t :=
  match thrd wt with
  | thrd_start =>
      if signaled e
      then Waiter (thrd_exit 0) (p_event wt) (joinable wt) (canceled wt) true
      else with_thrd thrd_sleep wt
  | thrd_sleep =>
      if canceled wt
      then Waiter (thrd_exit ECANCELED) (p_event wt) (joinable wt) true true
      else if signaled e
      then Waiter (thrd_exit 0) (p_event wt) (joinable wt) false true
      else wt
  | _ => wt
  end.

(** Every event mutex is free. *)
Definition events_free (s : state) : Prop :=
  forall p e, events s !! p = Some e -> mtx e = false.

(** A waiter in order: it waits for an event that exists, its thread has
    been created, and a thread that is done or has been joined has
    returned. *)
Definition waiter_ok (es : list event_t) (wt : _event_waiter_t) : Prop :=
  (exists p e, p_event wt = Some p /\ es !! p = Some e)
  /\ thrd wt <> thrd_none
  /\ (done wt = true -> rank wt = 0)
  /\ (joinable wt = false -> rank wt = 0).

(** Between two bursts: no mutex is held and the waiters are in order. *)
Definition quiescent (s : state) : Prop :=
  wait_info_mtx s = false /\ events_free s
  /\ forall i wt, waiters s !! i = Some wt -> waiter_ok (events s) wt.

(** Every proxy that has not returned has been canceled. *)
Definition marked (s : state) : Prop :=
  forall i wt, waiters s !! i = Some wt -> 0 < rank wt -> canceled wt = true.

(** From [s] to [s'] no thread has moved away from its return, none has
    changed its [joinable], and each canceled proxy that got a burst in
    [l] has moved one step closer. *)
Definition progress (l : list env_action) (s s' : state) : Prop :=
  length (waiters s') = length (waiters s)
  /\ forall j wt, waiters s !! j = Some wt ->
       exists wt', waiters s' !! j = Some wt'
         /\ rank wt' <= rank wt /\ joinable wt' = joinable wt
         /\ (In (ProxyRun j) l -> rank wt' <= pred (rank wt)).

(** The state the teardown starts from: the waiters are those of the
    call, in order; no event mutex is held. *)
Definition teardown_ready (c : nat) (s : state) : Prop :=
  length (waiters s) = c /\ events_free s
  /\ forall i wt, waiters s !! i = Some wt -> waiter_ok (events s) wt.

(** ** Waiting for any event, when one is signaled at the call *)

(** The thread of a waiter has returned 0, having seen its event
    signaled. *)
Definition finished (wt : _event_waiter_t) : Prop :=
  thrd wt = thrd_exit 0 /\ done wt = true.

(** A proxy that nobody has canceled, after its first burst: it has
    returned if its event [e] is signaled, and sleeps if not. *)
Definition matches (e : event_t) (wt : _event_waiter_t) : Prop :=
  if signaled e then finished wt
  else done wt = false /\ thrd wt = thrd_sleep.

(** A proxy that has not run yet. *)
Definition fresh (wt : _event_waiter_t) : Prop :=
  thrd wt = thrd_start /\ done wt = false.

(** The waiters while the call waits for any of the events [arr], with
    the events being [es], untouched: the waiters below [i] are spawned,
    each bound to its event, joinable but for those of [J], not canceled,
    and past its first burst but for those of [F]; the others have no
    thread yet. *)
Definition waiters_match (arr : list (option nat)) (es : list event_t)
    (c i : nat) (F J : nat -> Prop) (s : state) : Prop :=
  length (waiters s) = c
  /\ forall j wt, waiters s !! j = Some wt ->
       if j <? i then
         exists p e, arr !! j = Some (Some p) /\ es !! p = Some e
           /\ p_event wt = Some p /\ canceled wt = false
           /\ (joinable wt = true \/ (J j /\ finished wt))
           /\ (matches e wt \/ (F j /\ fresh wt))
       else thrd wt = thrd_none.


(** No index. *)
Definition nobody : nat -> Prop := fun _ => False.


(** ** Waiting for all events, when all are signaled at the call *)

(** Event [q] is named by one of the first [n] entries of [arr]. *)
Definition named (arr : list (option nat)) (n q : nat) : bool :=
  bool_decide (Some q ∈ take n arr).

(** An event whose mutex the group verification holds. *)
Definition held (e : event_t) : event_t :=
  Event true (signaled e) (is_manual_reset e).

(** A signaled event once the call has taken its signal and released its
    mutex: the latch is clear unless the event is a manual-reset event. *)
Definition consumed (e : event_t) : event_t :=
  Event false (is_manual_reset e) (is_manual_reset e).

(** The events during the group verification, the events having been [es]
    before it: those named below [i] have been consumed, those named from
    [i] to below [j] are held, the others are untouched. *)
Definition group_state (arr : list (option nat)) (es : list event_t)
    (i j : nat) (s : state) : Prop :=
  forall q, events s !! q
            = (fun e => if named arr i q then consumed e
                        else if named arr j q then held e else e)
              <$> es !! q.

(** * Concrete runs *)

(** An event whose mutex is free. *)
Definition ev (signaled manual_reset : bool) : event_t :=
  Event false signaled manual_reset.

(** The state at the call: the events of the caller, no waiters yet, and
    some old value in the caller's index cell. *)
Definition st_init (es : list event_t) : state :=
  State es false [] 7 0 T_caller [].

(** Every primitive succeeds and nobody else runs. *)
Definition w_quiet : world := World (fun _ => thrd_success) (fun _ => []) true.

(** Every primitive succeeds but the [k]-th call. *)
Definition w_fail_at (k : nat) (r : thrd_res) (acts : list env_action) : world :=
  World (fun t => if t =? k then r else thrd_success) (fun _ => acts) true.

(** Every primitive succeeds, and whenever the caller is blocked the first
    two proxies each get a burst. *)
Definition w_run : world :=
  World (fun _ => thrd_success) (fun _ => [ProxyRun 0; ProxyRun 1]) true.

(** Spawn failure: [thrd_create] of the second proxy (the sixth primitive
    call) fails with [thrd_nomem]; nobody signals the events. *)
Definition w_spawn_fail : world :=
  w_fail_at 5 thrd_nomem [ProxyRun 0; ProxyRun 1].

(** The waiters when the spawn-failure path reaches [thrd_join]: proxy 0
    asleep in [cnd_wait], proxy 1 never created. *)
Definition waiters_spawn_fail : list _event_waiter_t :=
  [Waiter thrd_sleep (Some 0) true false false;
   Waiter thrd_none (Some 1) true false false].

(** The caller cancels a proxy or broadcasts a condvar. *)
Definition caller_cancels (x : tid * action) : bool :=
  match x with
  | (T_caller, A_set_canceled _ true) => true
  | (T_caller, A_cnd_broadcast _ _) => true
  | _ => false
  end.

(** Restart: both proxies report ready, then another thread consumes
    event 0 (at the fourth tick, right after proxy 0 has run) before the
    group verification; after the restart the rendezvous wait times out. *)
Definition w_restart : world :=
  World (fun t => if t =? 33 then thrd_timedout else thrd_success)
        (fun t => if t =? 3 then [ProxyRun 0; ExtStore 0 false]
                  else [ProxyRun 0; ProxyRun 1])
        true.

(** The caller unlocks the mutex of event [p]. *)
Definition caller_unlocks (p : nat) (x : tid * action) : bool :=
  match x with
  | (T_caller, A_mtx_unlock (O_event q) _) => q =? p
  | _ => false
  end.

(** The caller creates proxy [i]. *)
Definition caller_creates (i : nat) (x : tid * action) : bool :=
  match x with
  | (T_caller, A_thrd_create j thrd_success) => j =? i
  | _ => false
  end.

(** * Reasoning about runs *)

Lemma hoare_ret {A} (P : state -> Prop) (a : A) (Q : A -> state -> Prop) :
  (forall s, P s -> Q a s) -> hoare P (ret a) Q.
Proof. intros H s Hs. simpl. auto. Qed.

Lemma hoare_bind {A B} (P : state -> Prop) (R : A -> state -> Prop)
    (Q : B -> state -> Prop) (c : M A) (k : A -> M B) :
  hoare P c R -> (forall a, hoare (R a) (k a) Q) -> hoare P (bind c k) Q.
Proof.
  intros Hc Hk s Hs. unfold bind. specialize (Hc s Hs).
  destruct (c s) as [[a|e] s']; [|exact I]. apply (Hk a s' Hc).
Qed.

Lemma hoare_conseq {A} (P P' : state -> Prop) (Q Q' : A -> state -> Prop)
    (c : M A) :
  hoare P' c Q' -> (forall s, P s -> P' s) ->
  (forall a s, Q' a s -> Q a s) -> hoare P c Q.
Proof.
  intros H HP HQ s Hs. specialize (H s (HP s Hs)).
  destruct (c s) as [[a|e] s']; auto.
Qed.

Lemma hoare_halt {A} (P : state -> Prop) (e : stop) (Q : A -> state -> Prop) :
  hoare P (halt e) Q.
Proof. intros s _. exact I. Qed.

Lemma hoare_get (P : state -> Prop) (Q : state -> state -> Prop) :
  (forall s, P s -> Q s s) -> hoare P get Q.
Proof. intros H s Hs. simpl. auto. Qed.

Lemma hoare_modify (P : state -> Prop) (f : state -> state)
    (Q : unit -> state -> Prop) :
  (forall s, P s -> Q tt (f s)) -> hoare P (modify f) Q.
Proof. intros H s Hs. simpl. auto. Qed.

Lemma frame_set_mtx I `{Frame I} o b s : I s -> I (set_mtx o b s).
Proof. destruct o; simpl; [apply frame_events|apply frame_wait_info_mtx]. Qed.

Lemma preserves_bind {A B} I (c : M A) (k : A -> M B) :
  preserves I c -> (forall a, preserves I (k a)) -> preserves I (bind c k).
Proof. intros Hc Hk. eapply hoare_bind; [exact Hc|exact Hk]. Qed.

Lemma preserves_ret {A} I (a : A) : preserves I (ret a).
Proof. apply hoare_ret. auto. Qed.

Lemma preserves_halt {A} I e : preserves I (@halt A e).
Proof. apply hoare_halt. Qed.

Lemma preserves_get I : preserves I get.
Proof. apply hoare_get. auto. Qed.

Lemma preserves_modify I (f : state -> state) :
  (forall s, I s -> I (f s)) -> preserves I (modify f).
Proof. intros H. apply hoare_modify. exact H. Qed.

Lemma preserves_for_loop I (body : nat -> M unit) n from :
  (forall i, preserves I (body i)) -> preserves I (for_loop n from body).
Proof.
  intros H. revert from. induction n as [|n IH]; intros from; simpl.
  - apply preserves_ret.
  - apply preserves_bind; [apply H|intros ?; apply IH].
Qed.

Create HintDb pres.

(** Break a run into its calls; the calls are closed with the [pres]
    lemmas. *)
Ltac pres_step :=
  lazymatch goal with
  | |- preserves _ (ret _) => apply preserves_ret
  | |- preserves _ (halt _) => apply preserves_halt
  | |- preserves _ get => apply preserves_get
  | |- preserves _ (bind _ _) => apply preserves_bind; [|intros ?]
  | |- preserves _ (modify _) =>
      apply preserves_modify; intros ? ?;
      first [ apply frame_set_mtx | apply frame_events
            | apply frame_wait_info_mtx | apply frame_tick
            | apply frame_self | apply frame_log | apply frame_waiters
            | apply frame_idx ];
      first [ assumption | typeclasses eauto ]
  | |- preserves _ (for_loop _ _ _) =>
      apply preserves_for_loop; intros ?; cbv beta
  | |- preserves _ (if ?b then _ else _) => destruct b
  | |- preserves _ (match ?x with _ => _ end) => destruct x
  | |- preserves _ _ => solve [eauto with pres typeclass_instances]
  end.
Ltac pres := repeat pres_step.

Section FramePrimitives.

Context (w : world) (I : state -> Prop) `{!Frame I}.

Lemma next_status_frame : preserves I (next_status w).
Proof. intros s Hs. simpl. apply frame_tick; exact Hs. Qed.
Hint Resolve next_status_frame : pres.

Lemma mtx_lock_frame o : preserves I (mtx_lock w o).
Proof. unfold mtx_lock. pres. Qed.

Lemma mtx_unlock_frame o : preserves I (mtx_unlock w o).
Proof. unfold mtx_unlock. pres. Qed.

Lemma cnd_signal_frame o : preserves I (cnd_signal w o).
Proof. unfold cnd_signal. pres. Qed.

Lemma cnd_broadcast_frame o : preserves I (cnd_broadcast w o).
Proof. unfold cnd_broadcast. pres. Qed.

Lemma CHECK_THRD_ERR_frame c : preserves I c -> preserves I (CHECK_THRD_ERR c).
Proof. intros H. unfold CHECK_THRD_ERR. pres. Qed.

Lemma load_event_frame p : preserves I (load_event p).
Proof. unfold load_event. pres. Qed.
Hint Resolve load_event_frame : pres.

Lemma store_signaled_frame p b : preserves I (store_signaled p b).
Proof. unfold store_signaled. pres. Qed.

Lemma load_waiter_frame i : preserves I (load_waiter i).
Proof. unfold load_waiter. pres. Qed.

Lemma deref_frame p : preserves I (deref p).
Proof. unfold deref. pres. Qed.

Lemma load_p_events_frame arr i : preserves I (load_p_events arr i).
Proof. unfold load_p_events. pres. Qed.

Lemma mtx_init_frame o : preserves I (mtx_init w o).
Proof. unfold mtx_init. pres. Qed.

Lemma cnd_init_frame o : preserves I (cnd_init w o).
Proof. unfold cnd_init. pres. Qed.

Lemma mtx_destroy_frame o : preserves I (mtx_destroy o).
Proof. unfold mtx_destroy. pres. Qed.

Lemma cnd_destroy_frame o : preserves I (cnd_destroy o).
Proof. unfold cnd_destroy. pres. Qed.

End FramePrimitives.

#[export] Hint Resolve next_status_frame mtx_lock_frame mtx_unlock_frame
  cnd_signal_frame cnd_broadcast_frame CHECK_THRD_ERR_frame load_event_frame
  store_signaled_frame load_waiter_frame deref_frame load_p_events_frame
  mtx_init_frame cnd_init_frame mtx_destroy_frame cnd_destroy_frame : pres.

Section FrameBlocking.

Context (w : world) (I : state -> Prop) `{!EnvFrame w I}.

Lemma run_env_action_frame a : preserves I (run_env_action w a).
Proof. destruct a; simpl; [apply env_helper|]. pres. Qed.

Lemma run_env_frame l : preserves I (run_env w l).
Proof.
  induction l as [|a l IH]; simpl; [pres|].
  apply preserves_bind; [apply run_env_action_frame|intros ?; exact IH].
Qed.
Hint Resolve run_env_frame : pres.

Lemma yield_frame : preserves I (yield w).
Proof. unfold yield. pres. Qed.
Hint Resolve yield_frame : pres.

Lemma cnd_wait_frame o : preserves I (cnd_wait w o).
Proof. unfold cnd_wait. pres. Qed.

Lemma cnd_timedwait_frame o t : preserves I (cnd_timedwait w o t).
Proof. unfold cnd_timedwait. pres. Qed.
Hint Resolve cnd_wait_frame cnd_timedwait_frame : pres.

Lemma cnd_wait_until_frame o p_time : preserves I (cnd_wait_until w o p_time).
Proof. unfold cnd_wait_until. pres. Qed.
Hint Resolve cnd_wait_until_frame : pres.

Lemma thrd_join_frame fuel i : preserves I (thrd_join w fuel i).
Proof.
  induction fuel as [|fuel IH]; simpl; pres.
Qed.

Lemma event_wait_loop_frame fuel p p_time ts :
  preserves I (event_wait_loop w fuel p p_time ts).
Proof.
  revert ts. induction fuel as [|fuel IH]; intros ts; simpl; pres.
Qed.
Hint Resolve event_wait_loop_frame : pres.

Lemma event_wait_frame fuel p p_time : preserves I (event_wait w fuel p p_time).
Proof. unfold event_wait. pres. Qed.

Section Groups.

Variable p_events : list (option nat).

Lemma lock_events_frame n locked ts :
  preserves I (lock_events w p_events n locked ts).
Proof.
  revert locked ts. induction n as [|n IH]; intros locked ts; simpl; pres.
Qed.

Lemma unlock_events_frame n i b ts :
  preserves I (unlock_events w p_events n i b ts).
Proof.
  revert i ts. induction n as [|n IH]; intros i ts; simpl; pres.
Qed.
Hint Resolve lock_events_frame unlock_events_frame : pres.

Lemma verify_group_frame c l : preserves I (verify_group w p_events c l).
Proof. unfold verify_group. pres. Qed.

End Groups.

End FrameBlocking.

#[export] Hint Resolve run_env_frame yield_frame cnd_wait_frame
  cnd_timedwait_frame cnd_wait_until_frame thrd_join_frame
  event_wait_loop_frame event_wait_frame lock_events_frame
  unlock_events_frame verify_group_frame : pres.

Section FrameProxies.

Context (w : world) (I : state -> Prop) `{!FrameWaiters I}.

Lemma store_waiter_frame i f : preserves I (store_waiter i f).
Proof. unfold store_waiter. pres. Qed.
Hint Resolve store_waiter_frame : pres.

Lemma store_canceled_frame i b : preserves I (store_canceled i b).
Proof. unfold store_canceled. pres. Qed.

Lemma store_done_frame i b : preserves I (store_done i b).
Proof. unfold store_done. pres. Qed.
Hint Resolve store_canceled_frame store_done_frame : pres.

Lemma _event_wait_helper_finish_frame i ts sig :
  preserves I (_event_wait_helper_finish w i ts sig).
Proof. unfold _event_wait_helper_finish. pres. Qed.
Hint Resolve _event_wait_helper_finish_frame : pres.

Lemma _event_wait_helper_unlock_frame i p ts sig :
  preserves I (_event_wait_helper_unlock w i p ts sig).
Proof. unfold _event_wait_helper_unlock. pres. Qed.
Hint Resolve _event_wait_helper_unlock_frame : pres.

Lemma _event_wait_helper_sleep_frame i p :
  preserves I (_event_wait_helper_sleep i p).
Proof. unfold _event_wait_helper_sleep. pres. Qed.
Hint Resolve _event_wait_helper_sleep_frame : pres.

Lemma _event_wait_helper_wake_frame i p :
  preserves I (_event_wait_helper_wake w i p).
Proof. unfold _event_wait_helper_wake. pres. Qed.

Lemma _event_wait_helper_start_frame i p :
  preserves I (_event_wait_helper_start w i p).
Proof. unfold _event_wait_helper_start. pres. Qed.
Hint Resolve _event_wait_helper_wake_frame _event_wait_helper_start_frame : pres.

Lemma _event_wait_helper_frame i : preserves I (_event_wait_helper w i).
Proof. unfold _event_wait_helper. pres. Qed.

#[export] Instance FrameWaiters_EnvFrame : EnvFrame w I.
Proof. split; [typeclasses eauto|apply _event_wait_helper_frame]. Qed.

Lemma thrd_create_frame i : preserves I (thrd_create w i).
Proof. unfold thrd_create. pres. Qed.
Hint Resolve thrd_create_frame : pres.

Section Scans.

Variables (fuel : nat) (p_events : list (option nat)).

Lemma join_spawned_frame i : preserves I (join_spawned w fuel i).
Proof. unfold join_spawned. pres. Qed.
Hint Resolve join_spawned_frame : pres.

Lemma spawn_waiters_frame n i : preserves I (spawn_waiters w fuel p_events n i).
Proof. revert i. induction n as [|n IH]; intros i; simpl; pres. Qed.

Lemma join_done_frame i wt l : preserves I (join_done w fuel i wt l).
Proof. unfold join_done. pres. Qed.
Hint Resolve join_done_frame : pres.

Lemma scan_all_frame n i l : preserves I (scan_all w fuel n i l).
Proof. revert i l. induction n as [|n IH]; intros i l; simpl; pres. Qed.

Lemma cancel_waiter_frame i : preserves I (cancel_waiter w i).
Proof. unfold cancel_waiter. pres. Qed.

Lemma join_waiter_frame i : preserves I (join_waiter w fuel i).
Proof. unfold join_waiter. pres. Qed.

Lemma clean_up_threads_frame c : preserves I (clean_up_threads w fuel c).
Proof.
  unfold clean_up_threads. pres.
  - apply cancel_waiter_frame.
  - apply join_waiter_frame.
Qed.

End Scans.

End FrameProxies.

#[export] Hint Resolve store_waiter_frame store_canceled_frame store_done_frame
  thrd_create_frame join_spawned_frame spawn_waiters_frame join_done_frame
  scan_all_frame cancel_waiter_frame join_waiter_frame clean_up_threads_frame
  : pres.

(** ** Runs with a result: an invariant along the binds, the result at the
    returns *)

Lemma hoare_true {A} (P : state -> Prop) (c : M A) :
  hoare P c (fun _ _ => True).
Proof. intros s _. destruct (c s) as [[a|e] s']; exact Logic.I. Qed.

Lemma hoare_bind_inv {A B} (P : state -> Prop) (Q : B -> state -> Prop)
    (c : M A) (k : A -> M B) :
  preserves P c -> (forall a, hoare P (k a) Q) -> hoare P (bind c k) Q.
Proof. intros Hc Hk. eapply hoare_bind; [exact Hc|exact Hk]. Qed.

Lemma is_success_true r : is_success r = true -> r = thrd_success.
Proof. destruct r; simpl; congruence. Qed.

Ltac hstep :=
  lazymatch goal with
  | |- hoare _ (ret _) _ => apply hoare_ret; intros ? ?
  | |- hoare _ (halt _) _ => apply hoare_halt
  | |- hoare _ (bind _ _) _ => apply hoare_bind_inv; [pres|intros ?]
  | |- hoare _ (if ?b then _ else _) _ => destruct b eqn:?
  | |- hoare _ (match ?x with _ => _ end) _ => destruct x eqn:?
  end.

#[export] Instance idx_zero_or_frame X : Frame (idx_zero_or X).
Proof. split; intros; assumption. Qed.

#[export] Instance idx_zero_or_frame_waiters X : FrameWaiters (idx_zero_or X).
Proof. split; [typeclasses eauto|intros; assumption]. Qed.

Lemma negb_is_success_false r : negb (is_success r) = false -> r = thrd_success.
Proof. destruct r; simpl; congruence. Qed.

Lemma negb_eqb_zero_false z : negb (z =? 0)%Z = false -> z = 0%Z.
Proof. intros H. apply Z.eqb_eq. destruct (z =? 0)%Z; simpl in *; congruence. Qed.

Lemma hoare_pure_pre {A} (P : state -> Prop) (F : Prop) (c : M A) Q :
  (F -> hoare P c Q) -> hoare (fun s => P s /\ F) c Q.
Proof. intros H s [Hs HF]. apply (H HF s Hs). Qed.

Lemma idx_zero_or_weaken (X Y : Prop) s :
  (X -> Y) -> idx_zero_or X s -> idx_zero_or Y s.
Proof. intros H [Hs|Hx]; [left|right]; auto. Qed.

(** ** The caller's index cell

    Only [take_signaled] stores through the out pointer after the entry
    store, and only on the way to a successful return. *)

Section IndexCell.

Context (w : world) (fuel : nat) (p_events : list (option nat))
  (p_time : option Z) (p_idx : bool).

Lemma join_done_no_failure X i wt l :
  no_failure l ->
  hoare (idx_zero_or X) (join_done w fuel i wt l)
    (fun r s => idx_zero_or X s /\ (fst r = Next -> no_failure (snd r))).
Proof.
  intros Hl. unfold join_done. repeat hstep; simpl; split; auto;
    try discriminate; intros _.
  split; simpl; auto using negb_is_success_false, negb_eqb_zero_false.
Qed.

Lemma scan_any_idx n i l :
  no_failure l ->
  hoare (idx_zero_or False) (scan_any w fuel p_events p_idx n i l)
    (fun r s =>
       match fst r with
       | Next => idx_zero_or False s /\ no_failure (snd r)
       | Goto_clean_up_threads => idx_zero_or (no_failure (snd r)) s
       end).
Proof.
  intros Hl. revert i. induction n as [|n IH]; intros i; simpl.
  - hstep. simpl. auto.
  - hstep. hstep; [|apply IH].
    eapply hoare_bind; [apply (join_done_no_failure False); exact Hl|].
    intros [f l']. simpl. destruct f.
    + eapply hoare_bind with (R := fun _ s => no_failure l').
      * intros s [_ Hs]. specialize (Hs eq_refl).
        destruct (take_signaled w p_events p_idx i s) as [[?|?] ?]; auto.
      * intros ?. apply hoare_ret. intros s Hs. simpl. right. exact Hs.
    + apply hoare_ret. intros s [Hs _]. simpl. destruct Hs as [Hs|[]]. left. exact Hs.
Qed.

Lemma scan_idx wait_all c l :
  (wait_all = false -> no_failure l) ->
  hoare (idx_zero_or False) (scan w fuel p_events wait_all p_idx c l)
    (fun r s =>
       match fst r with
       | Next => idx_zero_or False s /\ (wait_all = false -> no_failure (snd r))
       | Goto_clean_up_threads =>
           idx_zero_or (wait_all = false /\ no_failure (snd r)) s
       end).
Proof.
  intros Hl. unfold scan. destruct wait_all.
  - repeat hstep.
    all: match goal with H : idx_zero_or False _ |- _ => destruct H as [H|[]] end.
    all: simpl; try destruct (fst a); try split; try (left; assumption);
      discriminate.
  - eapply hoare_conseq; [apply scan_any_idx; auto|auto|].
    intros [f l'] s. simpl. destruct f; [tauto|].
    apply idx_zero_or_weaken. auto.
Qed.

Lemma wait_loop_idx wait_all turns c l :
  (wait_all = false -> no_failure l) ->
  hoare (idx_zero_or False)
    (wait_loop w fuel p_events wait_all p_time p_idx turns c l)
    (fun l' s => idx_zero_or (wait_all = false /\ no_failure l') s).
Proof.
  revert l. induction turns as [|turns IH]; intros l Hl; simpl.
  all: eapply hoare_bind; [apply scan_idx; exact Hl|].
  all: intros [f l']; simpl; destruct f;
    [|apply hoare_ret; intros s Hs; exact Hs].
  all: apply hoare_pure_pre; intros Hl'.
  all: repeat hstep; try (eapply idx_zero_or_weaken; [|eassumption]; intros []).
  apply IH. intros Hw. split; simpl; [apply Hl'; exact Hw|].
  apply is_success_true; assumption.
Qed.

Lemma restart_wait_idx wait_all rounds c l :
  (wait_all = false -> no_failure l) ->
  hoare (idx_zero_or False)
    (restart_wait w fuel p_events wait_all p_time p_idx rounds c l)
    (fun l' s => idx_zero_or (wait_all = false /\ no_failure l') s).
Proof.
  revert l. induction rounds as [|rounds IH]; intros l Hl; simpl.
  all: hstep; hstep;
    [hstep; eapply idx_zero_or_weaken; [|eassumption]; intros []|].
  all: hstep.
  all: match goal with H : negb (is_success ?a) = false |- _ =>
         apply negb_is_success_false in H; subst a end.
  all: eapply hoare_bind;
    [apply wait_loop_idx; intros Hw; split; [apply Hl; exact Hw|reflexivity]|].
  all: intros l'; simpl.
  all: eapply hoare_bind;
    [apply (clean_up_threads_frame w
              (idx_zero_or (wait_all = false /\ no_failure l')))|].
  all: intros ?. 
  all: destruct (wait_all && (err l' =? 0)%Z && is_success (thrd_status l')
                 && negb (all_signaled l')) eqn:Hr;
    [|apply hoare_ret; auto].
  - apply hoare_halt.
  - eapply hoare_conseq; [apply (IH l')| |auto].
    + intros Hw. rewrite Hw in Hr. discriminate.
    + intros s Hs. eapply idx_zero_or_weaken; [|exact Hs].
      intros [Hw _]. rewrite Hw in Hr. discriminate.
Qed.

End IndexCell.

(** ** Predicates that no statement of [event_wait_multiple] breaks *)

Section FrameAll.

Context (w : world) (I : state -> Prop) `{!FrameIdx I}.
Variables (fuel : nat) (p_events : list (option nat)) (wait_all : bool)
  (p_time : option Z) (p_idx : bool).

Lemma store_idx_frame n : preserves I (store_idx p_idx n).
Proof. unfold store_idx. pres. Qed.
Hint Resolve store_idx_frame : pres.

Lemma take_signaled_frame i : preserves I (take_signaled w p_events p_idx i).
Proof. unfold take_signaled. pres. Qed.
Hint Resolve take_signaled_frame : pres.

Lemma scan_any_frame n i l : preserves I (scan_any w fuel p_events p_idx n i l).
Proof. revert i l. induction n as [|n IH]; intros i l; simpl; pres. Qed.
Hint Resolve scan_any_frame : pres.

Lemma scan_frame c l : preserves I (scan w fuel p_events wait_all p_idx c l).
Proof. unfold scan. pres. Qed.
Hint Resolve scan_frame : pres.

Lemma wait_loop_frame turns c l :
  preserves I (wait_loop w fuel p_events wait_all p_time p_idx turns c l).
Proof. revert l. induction turns as [|turns IH]; intros l; simpl; pres. Qed.
Hint Resolve wait_loop_frame : pres.

Lemma restart_wait_frame rounds c l :
  preserves I (restart_wait w fuel p_events wait_all p_time p_idx rounds c l).
Proof. revert l. induction rounds as [|rounds IH]; intros l; simpl; pres. Qed.

End FrameAll.

#[export] Hint Resolve store_idx_frame take_signaled_frame scan_any_frame
  scan_frame wait_loop_frame restart_wait_frame : pres.

#[export] Instance trace_extends_frame pre : Frame (trace_extends pre).
Proof.
  split; try (intros; assumption).
  intros a s [rest H]. exists (rest ++ [(self s, a)]). simpl.
  rewrite H. rewrite <- app_assoc. reflexivity.
Qed.

#[export] Instance trace_extends_frame_waiters pre :
  FrameWaiters (trace_extends pre).
Proof. split; [typeclasses eauto|intros; assumption]. Qed.

#[export] Instance trace_extends_frame_idx pre : FrameIdx (trace_extends pre).
Proof. split; [typeclasses eauto|intros; assumption]. Qed.

(** ** Exit codes of the proxies

    [canceled] is set only in [clean_up_threads], after the last scan of a
    round; a proxy that is joined in a scan ran with [canceled] unset, so it
    did not return [ECANCELED]. *)

Ltac as_pres :=
  lazymatch goal with |- hoare ?P ?c _ => change (preserves P c) end.

#[export] Instance clean_below_frame k : Frame (clean_below k).
Proof. split; intros; assumption. Qed.

#[export] Instance spawn_ready_frame i : Frame (spawn_ready i).
Proof. split; intros; assumption. Qed.

Lemma store_waiter_clean k i f :
  (i < k -> forall wt, clean_waiter wt -> clean_waiter (f wt)) ->
  preserves (clean_below k) (store_waiter i f).
Proof.
  intros Hf. unfold store_waiter. apply preserves_bind; [pres|intros _].
  apply preserves_modify. intros s Hs j wt Hj. simpl.
  destruct (decide (i = j)) as [->|Hne].
  - rewrite list_lookup_alter_eq.
    destruct (waiters s !! j) as [wt0|] eqn:E; simpl; [|discriminate].
    intros [= <-]. apply Hf; [exact Hj|]. apply (Hs j wt0 Hj E).
  - rewrite list_lookup_alter_ne by exact Hne. apply Hs. exact Hj.
Qed.

Lemma load_waiter_clean k i :
  hoare (clean_below k) (load_waiter i)
    (fun wt s => clean_below k s /\ (i < k -> clean_waiter wt)).
Proof.
  unfold load_waiter. intros s Hs. unfold bind, get.
  destruct (waiters s !! i) as [wt|] eqn:E; simpl; [|exact Logic.I].
  split; [exact Hs|]. intros Hi. apply (Hs i wt Hi E).
Qed.

Section Proxy.

Context (w : world) (k : nat).

Lemma _event_wait_helper_finish_clean i ts sig :
  (i < k -> sig = true \/ is_success ts = false) ->
  preserves (clean_below k) (_event_wait_helper_finish w i ts sig).
Proof.
  intros H. unfold _event_wait_helper_finish.
  apply preserves_bind; [pres|intros _].
  apply preserves_bind.
  { unfold store_done. apply preserves_bind; [|intros _; pres].
    apply store_waiter_clean. intros _ wt Hwt. exact Hwt. }
  intros _. apply preserves_bind; [pres|intros _].
  apply preserves_bind; [pres|intros _].
  apply store_waiter_clean. intros Hi wt [Hc _]. split; [exact Hc|].
  simpl. destruct (H Hi) as [-> | Hts].
  - destruct ts; simpl; discriminate.
  - rewrite Hts. destruct ts; simpl in *; discriminate.
Qed.

Lemma _event_wait_helper_unlock_clean i p ts sig :
  (i < k -> sig = true \/ is_success ts = false) ->
  preserves (clean_below k) (_event_wait_helper_unlock w i p ts sig).
Proof.
  intros H. unfold _event_wait_helper_unlock.
  apply preserves_bind; [pres|intros ts2].
  apply _event_wait_helper_finish_clean. intros Hi.
  destruct (H Hi) as [-> | Hts]; [left; reflexivity|right].
  rewrite Hts. exact Hts.
Qed.

Lemma _event_wait_helper_sleep_clean i p :
  preserves (clean_below k) (_event_wait_helper_sleep i p).
Proof.
  unfold _event_wait_helper_sleep. apply preserves_bind; [pres|intros _].
  apply store_waiter_clean. intros _ wt [Hc _]. split; [exact Hc|discriminate].
Qed.

Lemma _event_wait_helper_wake_clean i p :
  preserves (clean_below k) (_event_wait_helper_wake w i p).
Proof.
  unfold _event_wait_helper_wake.
  apply preserves_bind; [pres|intros ts].
  apply preserves_bind; [pres|intros _].
  apply preserves_bind; [pres|intros _].
  destruct (is_success ts) eqn:Hts.
  2: { apply _event_wait_helper_unlock_clean. auto. }
  apply preserves_bind; [pres|intros _].
  eapply hoare_bind; [apply load_waiter_clean|]. intros wt.
  apply hoare_pure_pre. intros Hwt.
  apply preserves_bind; [pres|intros _].
  destruct (canceled wt) eqn:Hc.
  - apply _event_wait_helper_unlock_clean. intros Hi.
    destruct (Hwt Hi) as [Hc' _]. congruence.
  - apply preserves_bind; [pres|intros e].
    destruct (signaled e).
    + apply _event_wait_helper_unlock_clean. auto.
    + apply _event_wait_helper_sleep_clean.
Qed.

Lemma _event_wait_helper_start_clean i p :
  preserves (clean_below k) (_event_wait_helper_start w i p).
Proof.
  unfold _event_wait_helper_start.
  apply preserves_bind; [pres|intros ts].
  destruct (is_success ts) eqn:Hts.
  2: { apply _event_wait_helper_finish_clean. auto. }
  apply preserves_bind; [pres|intros e].
  destruct (signaled e).
  - apply _event_wait_helper_unlock_clean. auto.
  - apply _event_wait_helper_sleep_clean.
Qed.

Lemma _event_wait_helper_clean i :
  preserves (clean_below k) (_event_wait_helper w i).
Proof.
  unfold _event_wait_helper.
  apply preserves_bind; [pres|intros s0].
  destruct (waiters s0 !! i) as [wt|]; [|pres].
  destruct (thrd wt); try (solve [pres]).
  all: apply preserves_bind; [pres|intros p].
  all: destruct (mtx_of (O_event p) s0) as [held|]; [|pres].
  all: destruct (held || wait_info_mtx s0); [pres|].
  all: apply preserves_bind; [pres|intros _].
  all: apply preserves_bind; [|intros _; pres].
  - apply _event_wait_helper_start_clean.
  - apply _event_wait_helper_wake_clean.
Qed.

#[export] Instance clean_below_env : EnvFrame w (clean_below k).
Proof. split; [typeclasses eauto|apply _event_wait_helper_clean]. Qed.

End Proxy.

Section CoordinatorClean.

Context (w : world) (fuel : nat) (p_events : list (option nat))
  (wait_all : bool) (p_time : option Z) (p_idx : bool).

Lemma store_waiter_spawn_ready i f :
  (forall wt, canceled (f wt) = canceled wt) ->
  preserves (spawn_ready i) (store_waiter i f).
Proof.
  intros Hf. unfold store_waiter. apply preserves_bind; [pres|intros _].
  apply preserves_modify. intros s [Hs Hi]. split.
  - intros j wt Hj. simpl. rewrite list_lookup_alter_ne by lia. apply Hs. exact Hj.
  - intros wt. simpl. rewrite list_lookup_alter_eq.
    destruct (waiters s !! i) as [wt0|] eqn:E; simpl; [|discriminate].
    intros [= <-]. rewrite Hf. apply Hi. reflexivity.
Qed.

Lemma store_canceled_spawn_ready i :
  hoare (clean_below i) (store_canceled i false) (fun _ => spawn_ready i).
Proof.
  unfold store_canceled, store_waiter.
  eapply hoare_bind with (R := fun _ => spawn_ready i);
    [|intros _; as_pres; pres].
  apply hoare_bind_inv; [pres|intros _].
  apply hoare_modify. intros s Hs. split.
  - intros j wt Hj. simpl. rewrite list_lookup_alter_ne by lia. apply Hs. exact Hj.
  - intros wt. simpl. rewrite list_lookup_alter_eq.
    destruct (waiters s !! i) as [wt0|] eqn:E; simpl; [|discriminate].
    intros [= <-]. reflexivity.
Qed.

Lemma thrd_create_clean i :
  hoare (spawn_ready i) (thrd_create w i)
    (fun r s => is_success r = true -> clean_below (S i) s).
Proof.
  unfold thrd_create.
  apply hoare_bind_inv; [pres|intros r].
  destruct (is_success r) eqn:Hr.
  2: { repeat (apply hoare_bind_inv; [pres|intros _]).
       apply hoare_ret. intros s _ H. congruence. }
  eapply hoare_bind with (R := fun _ => clean_below (S i)).
  { unfold store_waiter.
    apply hoare_bind_inv; [pres|intros _].
    apply hoare_modify. intros s [Hs Hi] j wt Hj. simpl.
    destruct (decide (i = j)) as [<-|Hne].
    - rewrite list_lookup_alter_eq.
      destruct (waiters s !! i) as [wt0|] eqn:E; simpl; [|discriminate].
      intros [= <-]. split; simpl; [apply Hi; reflexivity|discriminate].
    - rewrite list_lookup_alter_ne by exact Hne. apply Hs. lia. }
  intros _. apply hoare_bind_inv; [pres|intros _].
  apply hoare_bind_inv; [pres|intros _].
  apply hoare_ret. auto.
Qed.

Lemma spawn_waiters_clean n i :
  hoare (clean_below i) (spawn_waiters w fuel p_events n i)
    (fun r s => is_success r = true -> clean_below (i + n) s).
Proof.
  revert i. induction n as [|n IH]; intros i; simpl.
  - apply hoare_ret. intros s Hs _. replace (i + 0) with i by lia. exact Hs.
  - apply hoare_bind_inv; [pres|intros p].
    apply hoare_bind_inv.
    { apply store_waiter_clean. intros Hi. lia. }
    intros ?; cbv beta.
    eapply hoare_bind; [apply store_canceled_spawn_ready|intros ?; cbv beta].
    eapply hoare_bind with (R := fun _ => spawn_ready i).
    { unfold store_done. apply preserves_bind; [|intros _; pres].
      apply store_waiter_spawn_ready. reflexivity. }
    intros ?; cbv beta.
    eapply hoare_bind; [apply thrd_create_clean|intros r].
    destruct (is_success r) eqn:Hr.
    + eapply hoare_conseq; [apply (IH (S i))|auto|].
      intros r' s H Hr'. replace (i + S n) with (S i + n) by lia. auto.
    + apply hoare_bind with (R := fun _ _ => True); [apply hoare_true|].
      intros ?; cbv beta. apply hoare_ret. intros s _ H. congruence.
Qed.

Lemma thrd_join_clean c turns i :
  i < c ->
  hoare (clean_below c) (thrd_join w turns i)
    (fun r s => clean_below c s /\ snd r <> ECANCELED).
Proof.
  intros Hi. induction turns as [|turns IH]; simpl.
  all: eapply hoare_bind; [apply load_waiter_clean|intros wt; cbv beta].
  all: apply hoare_pure_pre; intros Hwt; specialize (Hwt Hi).
  all: destruct (thrd wt) eqn:Ht; try apply hoare_halt.
  all: try (repeat (apply hoare_bind_inv; [pres|intros ?]);
            apply hoare_ret; intros s Hs; split; [exact Hs|]; simpl;
            intros ->; destruct Hwt as [_ Hwt]; congruence).
  all: apply hoare_bind_inv; [pres|intros ?]; exact IH.
Qed.

Lemma errno_not_canceled ts : _thrd_status_to_errno ts <> ECANCELED.
Proof. destruct ts; discriminate. Qed.

Lemma join_done_clean c i wt l :
  i < c -> err l <> ECANCELED ->
  hoare (clean_below c) (join_done w fuel i wt l)
    (fun r s => clean_below c s /\ err (snd r) <> ECANCELED).
Proof.
  intros Hi Hl. unfold join_done.
  destruct (joinable wt); [|apply hoare_ret; auto].
  eapply hoare_bind; [apply (thrd_join_clean c); exact Hi|intros r; cbv beta].
  apply hoare_pure_pre; intros Hr.
  apply hoare_bind_inv.
  { apply store_waiter_clean. intros _ x Hx. exact Hx. }
  intros ?. repeat hstep; (split; [assumption|simpl; auto; discriminate]).
Qed.

Lemma take_signaled_clean c i :
  preserves (clean_below c) (take_signaled w p_events p_idx i).
Proof.
  unfold take_signaled. apply preserves_bind; [|intros ?; pres].
  unfold store_idx. destruct p_idx; [|pres].
  apply preserves_bind; [|intros ?; pres].
  apply preserves_modify. intros s Hs. exact Hs.
Qed.

Lemma scan_all_clean c n i l :
  i + n <= c -> err l <> ECANCELED ->
  hoare (clean_below c) (scan_all w fuel n i l)
    (fun r s => clean_below c s /\ err (snd r) <> ECANCELED).
Proof.
  revert i l. induction n as [|n IH]; intros i l Hi Hl; simpl.
  - apply hoare_ret. auto.
  - apply hoare_bind_inv; [pres|intros wt].
    destruct (done wt).
    + eapply hoare_bind; [apply (join_done_clean c); [lia|exact Hl]|].
      intros [f l']; cbv beta. apply hoare_pure_pre. simpl. intros Hl'.
      destruct f; [apply IH; [lia|exact Hl']|].
      apply hoare_ret. auto.
    + apply IH; [lia|exact Hl].
Qed.

Lemma scan_any_clean c n i l :
  i + n <= c -> err l <> ECANCELED ->
  hoare (clean_below c) (scan_any w fuel p_events p_idx n i l)
    (fun r s => clean_below c s /\ err (snd r) <> ECANCELED).
Proof.
  revert i l. induction n as [|n IH]; intros i l Hi Hl; simpl.
  - apply hoare_ret. auto.
  - apply hoare_bind_inv; [pres|intros wt].
    destruct (done wt); [|apply IH; [lia|exact Hl]].
    eapply hoare_bind; [apply (join_done_clean c); [lia|exact Hl]|].
    intros [f l']; cbv beta. apply hoare_pure_pre. simpl. intros Hl'.
    destruct f; [|apply hoare_ret; auto].
    apply hoare_bind_inv; [apply take_signaled_clean|intros ?].
    apply hoare_ret. auto.
Qed.

Lemma verify_group_clean c n l :
  err l <> ECANCELED ->
  hoare (clean_below c) (verify_group w p_events n l)
    (fun l' s => clean_below c s /\ err l' <> ECANCELED).
Proof.
  intros Hl. unfold verify_group.
  apply hoare_bind_inv; [pres|intros [[locked ts] b]].
  apply hoare_bind_inv; [pres|intros ts2].
  apply hoare_ret. auto.
Qed.

Lemma scan_clean c l :
  err l <> ECANCELED ->
  hoare (clean_below c) (scan w fuel p_events wait_all p_idx c l)
    (fun r s => clean_below c s /\ err (snd r) <> ECANCELED).
Proof.
  intros Hl. unfold scan. destruct wait_all.
  - eapply hoare_bind; [apply (scan_all_clean c); [lia|exact Hl]|].
    intros [f l']; cbv beta. apply hoare_pure_pre. simpl. intros Hl'.
    destruct f; [|apply hoare_ret; auto].
    destruct (all_signaled l'); [|apply hoare_ret; auto].
    eapply hoare_bind; [apply verify_group_clean; exact Hl'|].
    intros l''; cbv beta. apply hoare_ret. auto.
  - apply scan_any_clean; [lia|exact Hl].
Qed.

Lemma wait_loop_clean turns c l :
  err l <> ECANCELED ->
  hoare (clean_below c)
    (wait_loop w fuel p_events wait_all p_time p_idx turns c l)
    (fun l' s => clean_below c s /\ err l' <> ECANCELED).
Proof.
  revert l. induction turns as [|turns IH]; intros l Hl; simpl.
  all: eapply hoare_bind; [apply scan_clean; exact Hl|].
  all: intros [f l']; cbv beta; apply hoare_pure_pre; simpl; intros Hl'.
  all: destruct f; [|apply hoare_ret; auto].
  all: apply hoare_bind_inv; [pres|intros ts].
  all: destruct (is_success ts); [|apply hoare_ret; auto].
  - apply hoare_halt.
  - apply IH. exact Hl'.
Qed.

Lemma restart_wait_not_canceled rounds c l :
  err l <> ECANCELED ->
  hoare (fun _ => True)
    (restart_wait w fuel p_events wait_all p_time p_idx rounds c l)
    (fun l' _ => err l' <> ECANCELED).
Proof.
  revert l. induction rounds as [|rounds IH]; intros l Hl; simpl.
  all: eapply hoare_bind;
    [eapply hoare_conseq;
       [apply (spawn_waiters_clean c 0)|intros s _ j wt Hj; lia|
        intros r s H; exact H]|].
  all: intros created; cbv beta.
  all: destruct (is_success created) eqn:Hc; simpl;
    [|apply hoare_ret; auto].
  all: eapply hoare_bind with (R := fun _ => clean_below c);
    [intros s Hs; specialize (Hs eq_refl);
     apply (CHECK_THRD_ERR_frame _ _ (mtx_lock_frame w _ O_wait_info) s Hs)|].
  all: intros ?.
  all: eapply hoare_bind; [apply wait_loop_clean; exact Hl|].
  all: intros l'; cbv beta; apply hoare_pure_pre; intros Hl'.
  all: apply hoare_bind with (R := fun _ _ => True); [apply hoare_true|].
  all: intros ?.
  all: destruct (wait_all && (err l' =? 0)%Z && is_success (thrd_status l')
                 && negb (all_signaled l')); [|apply hoare_ret; auto].
  - apply hoare_halt.
  - apply IH. exact Hl'.
Qed.

End CoordinatorClean.

#[export] Instance any_state_frame : Frame any_state.
Proof. split; intros; exact Logic.I. Qed.
#[export] Instance any_state_frame_waiters : FrameWaiters any_state.
Proof. split; [typeclasses eauto|intros; exact Logic.I]. Qed.
#[export] Instance any_state_frame_idx : FrameIdx any_state.
Proof. split; [typeclasses eauto|intros; exact Logic.I]. Qed.

Lemma event_wait_not_canceled w fuel p p_time :
  hoare any_state (event_wait w fuel p p_time) (fun r _ => r <> ECANCELED).
Proof.
  unfold event_wait. destruct p as [p|]; [|hstep; discriminate].
  apply hoare_bind_inv; [pres|intros ts].
  apply hoare_bind_inv; [pres|intros ts'].
  apply hoare_ret. intros s _. apply errno_not_canceled.
Qed.

(** ** The scan of wait_any *)

(** Unfold a run of the single-event operations down to the primitives. *)
Ltac unfold_run :=
  unfold event_signal, event_reset, event_wait, mtx_lock, mtx_unlock,
    cnd_signal, cnd_broadcast, store_signaled, load_event, bind, get, mtx_of,
    next_status, modify, ret, log, set_mtx, set_events, set_tick.


Lemma bind_inv {A B} (c : M A) (k : A -> M B) s b s' :
  bind c k s = (Ok b, s') ->
  exists a s1, c s = (Ok a, s1) /\ k a s1 = (Ok b, s').
Proof.
  unfold bind. destruct (c s) as [[a|e] s1]; [|discriminate].
  intros H. exists a, s1. auto.
Qed.

Lemma load_waiter_inv i s wt s1 :
  load_waiter i s = (Ok wt, s1) -> s1 = s /\ waiters s !! i = Some wt.
Proof.
  unfold load_waiter, bind, get. destruct (waiters s !! i); simpl; [|discriminate].
  intros [= -> ->]. auto.
Qed.

Lemma join_done_goto_failure w fuel i wt l s l2 s1 :
  join_done w fuel i wt l s = (Ok (Goto_clean_up_threads, l2), s1) ->
  ~ no_failure l2.
Proof.
  unfold join_done. destruct (joinable wt); [|discriminate].
  intros H. apply bind_inv in H as (r & s2 & _ & H).
  apply bind_inv in H as ([] & s3 & _ & H).
  destruct (negb (is_success r.1)) eqn:Hs.
  - injection H as <- _. intros [_ Ht]. simpl in Ht. rewrite Ht in Hs. discriminate.
  - destruct (negb (r.2 =? 0)%Z) eqn:Hz; [|discriminate].
    injection H as <- _. intros [He _]. simpl in He. rewrite He in Hz. discriminate.
Qed.

Section ScanAny.

Context (w : world) (fuel : nat) (arr : list (option nat)).


End ScanAny.

#[export] Instance idx_is_frame n : Frame (idx_is n).
Proof. split; intros; assumption. Qed.
#[export] Instance idx_is_frame_waiters n : FrameWaiters (idx_is n).
Proof. split; [typeclasses eauto|intros; assumption]. Qed.

Lemma errno_zero ts : _thrd_status_to_errno ts = 0%Z -> ts = thrd_success.
Proof. destruct ts; simpl; try discriminate. reflexivity. Qed.

Section WaitAny.

Context (w : world) (fuel : nat) (arr : list (option nat)) (p_time : option Z).



End WaitAny.

(** ** Runs on known states *)

Lemma bind_ok {A B} (c : M A) (k : A -> M B) s a s1 :
  c s = (Ok a, s1) -> bind c k s = k a s1.
Proof. unfold bind. intros ->. reflexivity. Qed.

Lemma bind_stop_fst {A B} (c : M A) (k : A -> M B) s e :
  fst (c s) = Stop e -> fst (bind c k s) = Stop e.
Proof. unfold bind. destruct (c s) as [[a|e'] s1]; simpl; congruence. Qed.

(** Run the first call of a sequence on a known state. *)
Ltac run_head :=
  lazymatch goal with
  | |- fst (bind ?c ?k ?s) = _ =>
      let r := eval vm_compute in (c s) in
      lazymatch r with
      | (Ok ?a, ?s1) =>
          rewrite (bind_ok c k s a s1) by (vm_compute; reflexivity); cbv beta
      end
  end.

Lemma thrd_join_S w fuel i :
  thrd_join w (S fuel) i
  = bind (load_waiter i) (fun wt =>
      match thrd wt with
      | thrd_exit code =>
          bind (next_status w) (fun r =>
            bind (modify (log (A_thrd_join i r))) (fun _ => ret (r, code)))
      | thrd_none => halt Fault
      | _ => bind (yield w) (fun _ => thrd_join w fuel i)
      end).
Proof. reflexivity. Qed.

Lemma thrd_join_blocks fuel : forall n tr,
  fst (thrd_join w_spawn_fail fuel 0
         (State [ev false false; ev false false] false waiters_spawn_fail 0
            (6 + n) T_caller tr))
  = Stop NoFuel.
Proof.
  induction fuel as [|fuel IH]; intros n tr; [reflexivity|].
  rewrite thrd_join_S. run_head. cbn [thrd]. run_head.
  apply (IH (4 + n)).
Qed.

(** Group verification that finds the first event unsignaled returns with
    that event's mutex held: the unlock loop runs over the indices below
    [locked] only. *)
Lemma verify_group_first_unsignaled w p arr c l e s :
  events s !! p = Some e -> mtx e = false -> signaled e = false ->
  prim w (tick s) = thrd_success ->
  verify_group w (Some p :: arr) (S c) l s
  = (Ok (Locals (err l) thrd_success false),
     log (A_mtx_lock (O_event p) thrd_success)
       (set_mtx (O_event p) true (set_tick (S (tick s)) s))).
Proof.
  intros He Hm Hs Hl. destruct s as [es wm ws ix t me tr]. simpl in *.
  unfold verify_group. simpl.
  unfold load_p_events, deref, load_event. unfold_run. simpl.
  rewrite He. simpl. rewrite Hl, Hm. simpl.
  rewrite list_lookup_alter_eq, He. simpl. rewrite Hs. simpl. reflexivity.
Qed.

(** ** Runs that do not look at the index cell or at the trace *)

Lemma sim_ret {A} (a : A) : sim (ret a).
Proof. intros s1 s2 H. simpl. auto. Qed.

Lemma sim_halt {A} e : sim (@halt A e).
Proof. intros s1 s2 H. simpl. auto. Qed.

Lemma sim2_bind {A B} (c1 c2 : M A) (k1 k2 : A -> M B) :
  sim2 c1 c2 -> (forall a, sim2 (k1 a) (k2 a)) -> sim2 (bind c1 k1) (bind c2 k2).
Proof.
  intros Hc Hk s1 s2 H. unfold bind. destruct (Hc s1 s2 H) as [Hr Hs].
  destruct (c1 s1) as [[a1|e1] s1'], (c2 s2) as [[a2|e2] s2']; simpl in *;
    try discriminate.
  - injection Hr as <-. apply Hk. exact Hs.
  - injection Hr as <-. auto.
Qed.

Lemma sim_bind {A B} (c : M A) (k : A -> M B) :
  sim c -> (forall a, sim (k a)) -> sim (bind c k).
Proof. apply sim2_bind. Qed.

Lemma sim_get_bind {B} (k : state -> M B) :
  (forall a1 a2, core_eq a1 a2 -> sim2 (k a1) (k a2)) -> sim (bind get k).
Proof. intros Hk s1 s2 H. unfold bind, get. apply Hk; exact H. Qed.

Lemma sim_modify (f : state -> state) :
  (forall s1 s2, core_eq s1 s2 -> core_eq (f s1) (f s2)) -> sim (modify f).
Proof. intros Hf s1 s2 H. simpl. auto. Qed.

Lemma core_eq_set_events f s1 s2 :
  core_eq s1 s2 -> core_eq (set_events f s1) (set_events f s2).
Proof. intros (He & Hm & Hw & Ht & Hs). repeat split; simpl; congruence. Qed.
Lemma core_eq_set_wait_info_mtx b s1 s2 :
  core_eq s1 s2 -> core_eq (set_wait_info_mtx b s1) (set_wait_info_mtx b s2).
Proof. intros (He & Hm & Hw & Ht & Hs). repeat split; simpl; congruence. Qed.
Lemma core_eq_set_waiters f s1 s2 :
  core_eq s1 s2 -> core_eq (set_waiters f s1) (set_waiters f s2).
Proof. intros (He & Hm & Hw & Ht & Hs). repeat split; simpl; congruence. Qed.
Lemma core_eq_set_tick n s1 s2 :
  core_eq s1 s2 -> core_eq (set_tick n s1) (set_tick n s2).
Proof. intros (He & Hm & Hw & Ht & Hs). repeat split; simpl; congruence. Qed.
Lemma core_eq_set_self t s1 s2 :
  core_eq s1 s2 -> core_eq (set_self t s1) (set_self t s2).
Proof. intros (He & Hm & Hw & Ht & Hs). repeat split; simpl; congruence. Qed.
Lemma core_eq_log a s1 s2 : core_eq s1 s2 -> core_eq (log a s1) (log a s2).
Proof. intros (He & Hm & Hw & Ht & Hs). repeat split; simpl; congruence. Qed.
Lemma core_eq_set_mtx o b s1 s2 :
  core_eq s1 s2 -> core_eq (set_mtx o b s1) (set_mtx o b s2).
Proof.
  destruct o; simpl; [apply core_eq_set_events|apply core_eq_set_wait_info_mtx].
Qed.
Lemma core_eq_entry s : core_eq (log (A_set_idx 0) (set_idx 0 s)) s.
Proof. repeat split. Qed.

Create HintDb sim.
#[export] Hint Resolve core_eq_set_events core_eq_set_wait_info_mtx
  core_eq_set_waiters core_eq_set_tick core_eq_set_self core_eq_log
  core_eq_set_mtx : sim.

Ltac sim_step :=
  lazymatch goal with
  | |- sim (ret _) => apply sim_ret
  | |- sim (halt _) => apply sim_halt
  | |- sim2 ?c ?c => change (sim c)
  | |- sim (bind get _) =>
      apply sim_get_bind;
      let a1 := fresh "a" in let a2 := fresh "a" in let H := fresh "H" in
      intros a1 a2 H;
      let H' := fresh in
      pose proof H as H';
      destruct H' as (?He & ?Hm & ?Hw & ?Ht & ?Hs);
      unfold mtx_of;
      repeat match goal with
             | E : _ a1 = _ a2 |- _ => rewrite E; clear E
             end
  | |- sim (bind _ _) => apply sim_bind; [|intros ?]
  | |- sim (modify _) => apply sim_modify; intros ? ? ?; eauto with sim
  | |- sim (if ?b then _ else _) => destruct b
  | |- sim (match ?x with _ => _ end) => destruct x
  | |- sim _ => solve [eauto with sim]
  end.
Ltac sim_run := repeat sim_step.

Section Sim.
Variable w : world.

Lemma next_status_sim : sim (next_status w).
Proof.
  intros s1 s2 H. unfold next_status. simpl.
  pose proof H as (He & Hm & Hw & Ht & Hs). rewrite Ht.
  split; [reflexivity|]. apply core_eq_set_tick. exact H.
Qed.
Hint Resolve next_status_sim : sim.

Lemma mtx_lock_sim o : sim (mtx_lock w o).
Proof. unfold mtx_lock. sim_run. Qed.
Lemma mtx_unlock_sim o : sim (mtx_unlock w o).
Proof. unfold mtx_unlock. sim_run. Qed.
Lemma cnd_signal_sim o : sim (cnd_signal w o).
Proof. unfold cnd_signal. sim_run. Qed.
Lemma CHECK_THRD_ERR_sim c : sim c -> sim (CHECK_THRD_ERR c).
Proof. intros H. unfold CHECK_THRD_ERR. sim_run. Qed.
Lemma load_event_sim p : sim (load_event p).
Proof. unfold load_event. sim_run. Qed.
Hint Resolve mtx_lock_sim mtx_unlock_sim cnd_signal_sim CHECK_THRD_ERR_sim
  load_event_sim : sim.
Lemma store_signaled_sim p b : sim (store_signaled p b).
Proof. unfold store_signaled. sim_run. Qed.
Lemma load_waiter_sim i : sim (load_waiter i).
Proof. unfold load_waiter. sim_run. Qed.
Hint Resolve store_signaled_sim load_waiter_sim : sim.
Lemma store_waiter_sim i f : sim (store_waiter i f).
Proof. unfold store_waiter. sim_run. Qed.
Hint Resolve store_waiter_sim : sim.
Lemma store_done_sim i b : sim (store_done i b).
Proof. unfold store_done. sim_run. Qed.
Lemma deref_sim p : sim (deref p).
Proof. unfold deref. sim_run. Qed.
Hint Resolve store_done_sim deref_sim : sim.
Lemma _event_wait_helper_finish_sim i ts sig :
  sim (_event_wait_helper_finish w i ts sig).
Proof. unfold _event_wait_helper_finish. sim_run. Qed.
Hint Resolve _event_wait_helper_finish_sim : sim.
Lemma _event_wait_helper_unlock_sim i p ts sig :
  sim (_event_wait_helper_unlock w i p ts sig).
Proof. unfold _event_wait_helper_unlock. sim_run. Qed.
Lemma _event_wait_helper_sleep_sim i p : sim (_event_wait_helper_sleep i p).
Proof. unfold _event_wait_helper_sleep. sim_run. Qed.
Hint Resolve _event_wait_helper_unlock_sim _event_wait_helper_sleep_sim : sim.
Lemma _event_wait_helper_wake_sim i p : sim (_event_wait_helper_wake w i p).
Proof. unfold _event_wait_helper_wake. sim_run. Qed.
Lemma _event_wait_helper_start_sim i p : sim (_event_wait_helper_start w i p).
Proof. unfold _event_wait_helper_start. sim_run. Qed.
Hint Resolve _event_wait_helper_wake_sim _event_wait_helper_start_sim : sim.
Lemma _event_wait_helper_sim i : sim (_event_wait_helper w i).
Proof. unfold _event_wait_helper. sim_run. Qed.
Hint Resolve _event_wait_helper_sim : sim.
Lemma run_env_action_sim a : sim (run_env_action w a).
Proof. destruct a; simpl; sim_run. Qed.
Lemma run_env_sim l : sim (run_env w l).
Proof.
  induction l as [|a l IH]; simpl; [sim_run|].
  apply sim_bind; [apply run_env_action_sim|intros ?; exact IH].
Qed.
Hint Resolve run_env_sim : sim.
Lemma yield_sim : sim (yield w).
Proof. unfold yield. sim_run. Qed.
Hint Resolve yield_sim : sim.
Lemma cnd_wait_until_sim o p_time : sim (cnd_wait_until w o p_time).
Proof. unfold cnd_wait_until, cnd_wait, cnd_timedwait. sim_run. Qed.
Hint Resolve cnd_wait_until_sim : sim.
Lemma event_wait_loop_sim fuel p p_time ts :
  sim (event_wait_loop w fuel p p_time ts).
Proof. revert ts. induction fuel as [|fuel IH]; intros ts; simpl; sim_run. Qed.
Hint Resolve event_wait_loop_sim : sim.
Lemma event_wait_sim fuel p p_time : sim (event_wait w fuel p p_time).
Proof. unfold event_wait. sim_run. Qed.
End Sim.

(** * More of the code: single events, proxies, teardown, verification *)

(** Unfold a run of [event_init] or [event_pulse] down to the primitives. *)
Ltac unfold_init :=
  unfold event_init, event_pulse, mtx_init, cnd_init, mtx_destroy, cnd_destroy;
  unfold_run.

(** Unfold a burst of a proxy down to the primitives. *)
Ltac unfold_helper :=
  unfold _event_wait_helper, _event_wait_helper_start, _event_wait_helper_wake,
    _event_wait_helper_unlock, _event_wait_helper_finish,
    _event_wait_helper_sleep, store_done, store_waiter, load_waiter,
    CHECK_THRD_ERR, deref, halt, set_self, set_waiters, set_wait_info_mtx;
  unfold_run.


Lemma event_wait_loop_success w fuel p p_time ts s ts1 s1 :
  event_wait_loop w fuel p p_time ts s = (Ok ts1, s1) ->
  is_success ts = true -> is_success ts1 = true ->
  exists e, events s1 !! p = Some e /\ signaled e = is_manual_reset e.
Proof.
  revert ts s. induction fuel as [|fuel IH]; intros ts s; simpl; intros H Hts Hts1.
  all: apply bind_inv in H as (e & s2 & He & H).
  all: unfold load_event, bind, get in He.
  all: destruct (events s !! p) as [e0|] eqn:Hev; simpl in He; try discriminate.
  all: injection He as <- <-.
  all: destruct (signaled e0) eqn:Hsig.
  1,3: destruct (is_manual_reset e0) eqn:Hman; simpl in H.
  1,3: injection H as _ <-; exists e0; split; [exact Hev|congruence].
  1,2: apply bind_inv in H as ([] & s3 & Hst & H); injection H as _ <-;
    unfold store_signaled, load_event, bind, get, modify in Hst; rewrite Hev in Hst;
    simpl in Hst; injection Hst as <-; simpl;
    rewrite list_lookup_alter_eq, Hev; simpl; eexists; split; [reflexivity|];
    simpl; congruence.
  all: apply bind_inv in H as (ts' & s3 & _ & H).
  all: destruct (is_success ts') eqn:Hts'; try discriminate.
  2: apply (IH _ _ H Hts' Hts1).
  all: injection H as <- _; congruence.
Qed.

(** ** No proxy outlives the call *)

#[export] Instance settled_frame lo hi : Frame (settled lo hi).
Proof. split; intros; assumption. Qed.
#[export] Instance running_at_frame i : Frame (running_at i).
Proof. split; intros; assumption. Qed.
#[export] Instance idle_at_frame i : Frame (idle_at i).
Proof. split; intros; assumption. Qed.
#[export] Instance and_frame (I J : state -> Prop) `{!Frame I} `{!Frame J} :
  Frame (fun s => I s /\ J s).
Proof.
  split; intros; match goal with H : _ /\ _ |- _ => destruct H end; split;
    first [apply frame_events|apply frame_wait_info_mtx|apply frame_tick
          |apply frame_self|apply frame_log]; assumption.
Qed.

Lemma settled_all k lo hi s : settled k k s -> settled lo hi s.
Proof. intros H j wt Hj _. apply (H j wt Hj). lia. Qed.

Lemma settled_no_proxy k s : settled k k s <-> no_proxy_running s.
Proof.
  split.
  - intros H j wt Hj. apply (H j wt Hj). lia.
  - intros H j wt Hj _. apply (H j wt Hj).
Qed.


(** A store to waiter [i] that keeps it out of the way of [settled]. *)
Lemma store_waiter_settled (P : state -> Prop) lo hi i f :
  (forall s wt, P s -> settled lo hi s -> waiters s !! i = Some wt ->
     i < lo \/ hi <= i \/ joinable (f wt) = false -> running (f wt) = false) ->
  hoare (fun s => settled lo hi s /\ P s) (store_waiter i f)
    (fun _ => settled lo hi).
Proof.
  intros Hf. unfold store_waiter.
  eapply hoare_bind with (R := fun _ s => settled lo hi s /\ P s).
  { unfold load_waiter. intros s Hs. unfold bind, get.
    destruct (waiters s !! i); simpl; auto. }
  intros _. apply hoare_modify. intros s [Hs HP] j wt. simpl.
  destruct (decide (i = j)) as [<-|Hne].
  - rewrite list_lookup_alter_eq.
    destruct (waiters s !! i) as [wt0|] eqn:E; simpl; [|discriminate].
    intros [= <-]. apply (Hf s wt0 HP Hs E).
  - rewrite list_lookup_alter_ne by exact Hne. apply Hs.
Qed.

Lemma store_waiter_settled_same lo hi i f :
  (forall wt, joinable (f wt) = joinable wt /\ running (f wt) = running wt) ->
  preserves (settled lo hi) (store_waiter i f).
Proof.
  intros Hf.
  eapply hoare_conseq;
    [apply (store_waiter_settled (fun _ => True) lo hi i f)| |auto].
  - intros s wt _ Hs Hw Hc. destruct (Hf wt) as [Hj Hr]. rewrite Hr.
    apply (Hs i wt Hw). rewrite <- Hj. exact Hc.
  - intros s Hs. split; [exact Hs|exact Logic.I].
Qed.

Lemma store_waiter_running_at k i f :
  (forall wt, running (f wt) = running wt) ->
  preserves (running_at k) (store_waiter i f).
Proof.
  intros Hf. unfold store_waiter. apply preserves_bind; [pres|intros _].
  apply preserves_modify. intros s Hs wt. simpl.
  destruct (decide (i = k)) as [<-|Hne].
  - rewrite list_lookup_alter_eq.
    destruct (waiters s !! i) as [wt0|] eqn:E; simpl; [|discriminate].
    intros [= <-]. rewrite Hf. apply Hs. exact E.
  - rewrite list_lookup_alter_ne by exact Hne. apply Hs.
Qed.

Section ProxySettled.

Context (w : world) (lo hi : nat).

#[export] Instance in_burst_frame i : Frame (in_burst lo hi i).
Proof. split; intros; assumption. Qed.

Lemma hoare_get_bind {B} (P : state -> Prop) (k : state -> M B) Q :
  (forall s0, hoare (fun s => P s /\ s = s0) (k s0) Q) -> hoare P (bind get k) Q.
Proof. intros H s Hs. unfold bind, get. apply (H s s). auto. Qed.

Lemma store_waiter_in_burst i f :
  (forall wt, joinable (f wt) = joinable wt /\ running (f wt) = running wt) ->
  preserves (in_burst lo hi i) (store_waiter i f).
Proof.
  intros Hf s [Hs Hr].
  pose proof (store_waiter_settled_same lo hi i f Hf s Hs) as H1.
  pose proof (store_waiter_running_at i i f (fun wt => proj2 (Hf wt)) s Hr) as H2.
  destruct (store_waiter i f s) as [[a|e] s']; [split; assumption|exact Logic.I].
Qed.

Lemma store_waiter_burst_end i t :
  hoare (in_burst lo hi i) (store_waiter i (with_thrd t)) (fun _ => settled lo hi).
Proof.
  eapply hoare_conseq;
    [apply (store_waiter_settled (running_at i) lo hi i (with_thrd t))| |auto].
  - intros s wt Hr Hs Hw Hc. simpl in Hc.
    pose proof (Hr wt Hw) as Hrun. rewrite (Hs i wt Hw Hc) in Hrun. discriminate.
  - intros s Hs. exact Hs.
Qed.

Lemma _event_wait_helper_finish_settled i ts sig :
  hoare (in_burst lo hi i) (_event_wait_helper_finish w i ts sig)
    (fun _ => settled lo hi).
Proof.
  unfold _event_wait_helper_finish.
  apply hoare_bind_inv; [pres|intros ?].
  apply hoare_bind_inv.
  { unfold store_done. apply preserves_bind; [|intros ?; pres].
    apply store_waiter_in_burst. intros wt. split; reflexivity. }
  intros ?. apply hoare_bind_inv; [pres|intros ?].
  apply hoare_bind_inv; [pres|intros ?].
  apply store_waiter_burst_end.
Qed.

Lemma _event_wait_helper_unlock_settled i p ts sig :
  hoare (in_burst lo hi i) (_event_wait_helper_unlock w i p ts sig)
    (fun _ => settled lo hi).
Proof.
  unfold _event_wait_helper_unlock.
  apply hoare_bind_inv; [pres|intros ?].
  apply _event_wait_helper_finish_settled.
Qed.

Lemma _event_wait_helper_sleep_settled i p :
  hoare (in_burst lo hi i) (_event_wait_helper_sleep i p) (fun _ => settled lo hi).
Proof.
  unfold _event_wait_helper_sleep.
  apply hoare_bind_inv; [pres|intros ?].
  apply store_waiter_burst_end.
Qed.

Lemma _event_wait_helper_wake_settled i p :
  hoare (in_burst lo hi i) (_event_wait_helper_wake w i p) (fun _ => settled lo hi).
Proof.
  unfold _event_wait_helper_wake.
  repeat (apply hoare_bind_inv; [pres|intros ?]).
  destruct (is_success a); [|apply _event_wait_helper_unlock_settled].
  repeat (apply hoare_bind_inv; [pres|intros ?]).
  destruct (canceled a3); [apply _event_wait_helper_unlock_settled|].
  apply hoare_bind_inv; [pres|intros e].
  destruct (signaled e);
    [apply _event_wait_helper_unlock_settled
    |apply _event_wait_helper_sleep_settled].
Qed.

Lemma _event_wait_helper_start_settled i p :
  hoare (in_burst lo hi i) (_event_wait_helper_start w i p) (fun _ => settled lo hi).
Proof.
  unfold _event_wait_helper_start.
  apply hoare_bind_inv; [pres|intros ts].
  destruct (is_success ts); [|apply _event_wait_helper_finish_settled].
  apply hoare_bind_inv; [pres|intros e].
  destruct (signaled e);
    [apply _event_wait_helper_unlock_settled
    |apply _event_wait_helper_sleep_settled].
Qed.

Lemma _event_wait_helper_settled i :
  preserves (settled lo hi) (_event_wait_helper w i).
Proof.
  unfold _event_wait_helper. apply hoare_get_bind. intros s0.
  destruct (waiters s0 !! i) as [wt|] eqn:Hw; [|apply hoare_ret; tauto].
  assert (Hb : running wt = true ->
               forall s, settled lo hi s /\ s = s0 -> in_burst lo hi i s).
  { intros Hr s [Hs ->]. split; [exact Hs|]. intros wt' Hw'. congruence. }
  unfold running in Hb.
  destruct (thrd wt); try (apply hoare_ret; tauto).
  all: eapply hoare_conseq with (P' := in_burst lo hi i) (Q' := fun _ => settled lo hi);
    [|apply Hb; reflexivity|auto].
  all: apply hoare_bind_inv; [pres|intros p].
  all: destruct (mtx_of (O_event p) s0) as [held|]; [|apply hoare_halt].
  all: destruct (held || wait_info_mtx s0);
    [apply hoare_ret; intros s [Hs _]; exact Hs|].
  all: apply hoare_bind_inv; [pres|intros ?].
  all: eapply hoare_bind with (R := fun _ => settled lo hi);
    [|intros ?; as_pres; pres].
  - apply _event_wait_helper_start_settled.
  - apply _event_wait_helper_wake_settled.
Qed.

#[export] Instance settled_env : EnvFrame w (settled lo hi).
Proof. split; [typeclasses eauto|apply _event_wait_helper_settled]. Qed.

End ProxySettled.

#[export] Instance waiter_is_frame j wt : Frame (waiter_is j wt).
Proof. split; intros; assumption. Qed.

#[export] Instance seen_frame lo hi j wt : Frame (seen lo hi j wt).
Proof. split; intros; assumption. Qed.


Lemma hoare_for_loop (I : nat -> state -> Prop) (body : nat -> M unit) n from :
  (forall i, from <= i < from + n ->
     hoare (I i) (body i) (fun _ => I (S i))) ->
  hoare (I from) (for_loop n from body) (fun _ => I (from + n)).
Proof.
  revert from. induction n as [|n IH]; intros from H; simpl.
  - apply hoare_ret. intros s Hs. replace (from + 0) with from by lia. exact Hs.
  - eapply hoare_bind; [apply H; lia|]. intros ?.
    replace (from + S n) with (S from + n) by lia.
    apply IH. intros i Hi. apply H. lia.
Qed.

Section CoordinatorSettled.

Context (w : world) (fuel : nat) (p_events : list (option nat))
  (wait_all : bool) (p_time : option Z) (p_idx : bool).
















End CoordinatorSettled.

#[export] Instance no_proxy_running_frame : Frame no_proxy_running.
Proof. split; intros; assumption. Qed.

#[export] Instance no_proxy_running_env w : EnvFrame w no_proxy_running.
Proof.
  split; [typeclasses eauto|]. intros i s Hs.
  pose proof (_event_wait_helper_settled w 0 0 i s
                (proj2 (settled_no_proxy 0 s) Hs)) as H.
  destruct (_event_wait_helper w i s) as [[a|e] s']; [|exact Logic.I].
  apply (settled_no_proxy 0). exact H.
Qed.


(** ** The group verification of wait_all *)

Lemma only_consumed_refl s : only_consumed s s.
Proof. split; [reflexivity|]. intros q e He. exists e. auto. Qed.

Lemma only_consumed_trans s1 s2 s3 :
  only_consumed s1 s2 -> only_consumed s2 s3 -> only_consumed s1 s3.
Proof.
  intros [L12 H12] [L23 H23]. split; [congruence|]. intros q e He.
  destruct (H12 q e He) as (e2 & He2 & Hm2 & Hs2).
  destruct (H23 q e2 He2) as (e3 & He3 & Hm3 & Hs3).
  exists e3. split; [exact He3|]. split; [congruence|].
  destruct Hs3 as [Hs3|[Hs3 Hm]]; [|right; split; congruence].
  destruct Hs2 as [Hs2|[Hs2 Hm]]; [left|right; split]; congruence.
Qed.

(** Updating one event by [f] that keeps the mode and does not set the
    latch of a manual-reset event. *)
Lemma only_consumed_alter (f : event_t -> event_t) p s g :
  (forall e, is_manual_reset (f e) = is_manual_reset e
             /\ (signaled (f e) = signaled e
                 \/ (signaled (f e) = false /\ is_manual_reset e = false))) ->
  events (g s) = alter f p (events s) ->
  only_consumed s (g s).
Proof.
  intros Hf Hg. split; [rewrite Hg; apply length_alter|].
  intros q e He. rewrite Hg.
  destruct (decide (p = q)) as [<-|Hne].
  - rewrite list_lookup_alter_eq, He. simpl. exists (f e). split; [reflexivity|].
    apply Hf.
  - rewrite list_lookup_alter_ne by exact Hne. exists e. auto.
Qed.

Lemma only_consumed_same s s' : events s' = events s -> only_consumed s s'.
Proof.
  intros H. split; [congruence|]. intros q e He. rewrite H. exists e. auto.
Qed.

Lemma only_consumed_back s s' q e' :
  only_consumed s s' -> events s' !! q = Some e' ->
  exists e, events s !! q = Some e
    /\ is_manual_reset e' = is_manual_reset e
    /\ (signaled e' = signaled e
        \/ (signaled e' = false /\ is_manual_reset e = false)).
Proof.
  intros [L H] He'.
  destruct (events s !! q) as [e|] eqn:He.
  - destruct (H q e He) as (e2 & He2 & Hr). exists e.
    split; [reflexivity|]. congruence.
  - apply lookup_lt_Some in He'. apply lookup_ge_None in He. lia.
Qed.

Lemma mtx_lock_only_consumed w p s r s1 :
  mtx_lock w (O_event p) s = (Ok r, s1) ->
  only_consumed s s1
  /\ (is_success r = true ->
      exists e, events s !! p = Some e /\ mtx e = false).
Proof.
  unfold mtx_lock, bind, get, mtx_of, next_status, modify, ret.
  destruct (events s !! p) as [e|] eqn:He; simpl; [|discriminate].
  destruct (is_success (prim w (tick s))) eqn:Hr.
  - destruct (mtx e) eqn:Hm; simpl; [discriminate|].
    intros [= <- <-]. split; [|intros _; eauto].
    apply (only_consumed_alter
             (fun e => Event true (signaled e) (is_manual_reset e)) p s
             (fun s => log _ (set_mtx (O_event p) true (set_tick _ s)))).
    + intros x. simpl. auto.
    + reflexivity.
  - intros [= <- <-]. split; [|congruence].
    apply only_consumed_same. reflexivity.
Qed.

Lemma mtx_unlock_only_consumed w p s r s1 :
  mtx_unlock w (O_event p) s = (Ok r, s1) -> only_consumed s s1.
Proof.
  unfold mtx_unlock, bind, get, mtx_of, next_status, modify, ret.
  destruct (events s !! p) as [e|] eqn:He; simpl; [|discriminate].
  destruct (is_success (prim w (tick s))) eqn:Hr; intros [= <- <-].
  - apply (only_consumed_alter
             (fun e => Event false (signaled e) (is_manual_reset e)) p s
             (fun s => log _ (set_mtx (O_event p) false (set_tick _ s)))).
    + intros x. simpl. auto.
    + reflexivity.
  - apply only_consumed_same. reflexivity.
Qed.

Lemma load_event_inv p s e s1 :
  load_event p s = (Ok e, s1) -> s1 = s /\ events s !! p = Some e.
Proof.
  unfold load_event, bind, get. destruct (events s !! p); simpl; [|discriminate].
  intros [= -> ->]. auto.
Qed.

Lemma store_signaled_only_consumed p s s1 :
  store_signaled p false s = (Ok tt, s1) ->
  (exists e, events s !! p = Some e /\ is_manual_reset e = false) ->
  only_consumed s s1.
Proof.
  unfold store_signaled. intros H (e & He & Hm).
  apply bind_inv in H as (e0 & s2 & Hl & H). apply load_event_inv in Hl as [-> _].
  unfold bind, modify in H. injection H as <-.
  split; [simpl; apply length_alter|].
  intros q x Hx. simpl. destruct (decide (p = q)) as [<-|Hne].
  - rewrite list_lookup_alter_eq, Hx. simpl. eexists. split; [reflexivity|].
    simpl. split; [reflexivity|]. right. split; [reflexivity|congruence].
  - rewrite list_lookup_alter_ne by exact Hne. exists x. auto.
Qed.

Section Group.

Context (w : world) (arr : list (option nat)).

(** The locking loop that ends with [all_signaled] still set: it locked
    the events from [locked] to [locked'], each one signaled; it stopped
    short of the end only at a lock that failed. *)
Lemma lock_events_all n locked ts s locked' ts' s1 :
  lock_events w arr n locked ts s = (Ok (locked', ts', true), s1) ->
  locked <= locked' <= locked + n
  /\ (locked' < locked + n -> is_success ts' = false)
  /\ only_consumed s s1
  /\ forall k, locked <= k < locked' ->
       exists p e, arr !! k = Some (Some p) /\ events s !! p = Some e
                   /\ signaled e = true.
Proof.
  revert locked ts s. induction n as [|n IH]; intros locked ts s; simpl.
  - intros [= <- <- <-]. split; [lia|]. split; [lia|].
    split; [apply only_consumed_refl|]. intros k Hk. lia.
  - intros H.
    apply bind_inv in H as (po & sa & Hp & H).
    unfold load_p_events in Hp. destruct (arr !! locked) as [po'|] eqn:Ha;
      [|discriminate]. injection Hp as -> <-.
    apply bind_inv in H as (p & sb & Hd & H).
    destruct po as [p'|]; [|discriminate]. injection Hd as -> <-.
    apply bind_inv in H as (r & s2 & Hlock & H).
    apply mtx_lock_only_consumed in Hlock as [Hoc Hfree].
    destruct (is_success r) eqn:Hr; simpl in H.
    2: { injection H as <- <- <-. split; [lia|]. split; [auto|].
         split; [exact Hoc|]. intros k Hk. lia. }
    apply bind_inv in H as (e1 & s3 & He1 & H).
    apply load_event_inv in He1 as [-> He1].
    destruct (signaled e1) eqn:Hsig; simpl in H; [|discriminate].
    destruct (IH _ _ _ H) as (Hl & Hfail & Hoc' & Hall).
    split; [lia|]. split; [intros Hlt; apply Hfail; lia|].
    split; [eapply only_consumed_trans; eassumption|].
    intros k Hk. destruct (decide (k = locked)) as [->|Hne].
    + destruct (only_consumed_back _ _ _ _ Hoc He1) as (e & He & _ & Hs).
      exists p, e. split; [exact Ha|]. split; [exact He|].
      destruct Hs as [Hs|[Hs _]]; congruence.
    + destruct (Hall k ltac:(lia)) as (q & e2 & Hq & He2 & Hs2).
      destruct (only_consumed_back _ _ _ _ Hoc He2) as (e & He & _ & Hs).
      exists q, e. split; [exact Hq|]. split; [exact He|].
      destruct Hs as [Hs|[Hs _]]; congruence.
Qed.

Lemma unlock_events_all n i ts2 s ts2' s1 :
  unlock_events w arr n i true ts2 s = (Ok ts2', s1) ->
  only_consumed s s1
  /\ forall k, i <= k < i + n ->
       exists p e, arr !! k = Some (Some p) /\ events s1 !! p = Some e
                   /\ (is_manual_reset e = false -> signaled e = false).
Proof.
  revert i ts2 s. induction n as [|n IH]; intros i ts2 s; simpl.
  - intros [= <- <-]. split; [apply only_consumed_refl|]. intros k Hk. lia.
  - intros H.
    apply bind_inv in H as (po & sa & Hp & H).
    unfold load_p_events in Hp. destruct (arr !! i) as [po'|] eqn:Ha;
      [|discriminate]. injection Hp as -> <-.
    apply bind_inv in H as (p & sb & Hd & H).
    destruct po as [p'|]; [|discriminate]. injection Hd as -> <-.
    apply bind_inv in H as (e & sc & He & H).
    apply load_event_inv in He as [-> He].
    apply bind_inv in H as ([] & s2 & Hst & H).
    apply bind_inv in H as (r & s3 & Hun & H).
    apply mtx_unlock_only_consumed in Hun as Hoc2.
    destruct (IH _ _ _ H) as (Hoc3 & Hall).
    assert (Hoc1 : only_consumed s s2
                   /\ exists e2, events s2 !! p = Some e2
                        /\ (is_manual_reset e2 = false -> signaled e2 = false)).
    { destruct (is_manual_reset e) eqn:Hman; simpl in Hst.
      - injection Hst as <-. split; [apply only_consumed_refl|].
        exists e. split; [exact He|congruence].
      - split; [apply (store_signaled_only_consumed p); eauto|].
        unfold store_signaled in Hst.
        apply bind_inv in Hst as (e0 & s4 & Hl & Hst).
        apply load_event_inv in Hl as [-> _].
        unfold bind, modify in Hst. injection Hst as <-. simpl.
        rewrite list_lookup_alter_eq, He. simpl. eexists. split; [reflexivity|].
        reflexivity. }
    destruct Hoc1 as (Hoc1 & e2 & He2 & Hclr).
    split; [eapply only_consumed_trans; [exact Hoc1|];
            eapply only_consumed_trans; eassumption|].
    intros k Hk. destruct (decide (k = i)) as [->|Hne].
    + destruct (proj2 Hoc2 p e2 He2) as (e3 & He3 & Hm3 & Hs3).
      destruct (proj2 Hoc3 p e3 He3) as (e4 & He4 & Hm4 & Hs4).
      exists p, e4. split; [exact Ha|]. split; [exact He4|].
      intros Hm. assert (is_manual_reset e2 = false) by congruence.
      specialize (Hclr H0).
      destruct Hs4 as [Hs4|[Hs4 _]]; [|exact Hs4].
      destruct Hs3 as [Hs3|[Hs3 _]]; congruence.
    + apply Hall. lia.
Qed.

(** The verification that ends with [all_signaled] set has consumed the
    events it locked, which are all of them unless a lock failed. *)
Lemma verify_group_locked c l s l' s' :
  verify_group w arr c l s = (Ok l', s') ->
  all_signaled l' = true ->
  exists locked,
    locked <= c
    /\ (locked < c -> is_success (thrd_status l') = false)
    /\ only_consumed s s'
    /\ forall k, k < locked ->
         exists p e e', arr !! k = Some (Some p)
           /\ events s !! p = Some e /\ signaled e = true
           /\ events s' !! p = Some e'
           /\ signaled e' = is_manual_reset e
           /\ is_manual_reset e' = is_manual_reset e.
Proof.
  unfold verify_group. intros H Hall.
  apply bind_inv in H as ([[locked ts] b] & s1 & Hlock & H).
  apply bind_inv in H as (ts2 & s2 & Hun & H).
  injection H as <- <-. simpl in Hall. subst b.
  destruct (lock_events_all _ _ _ _ _ _ _ Hlock) as (Hle & Hfail & Hoc1 & Hl).
  destruct (unlock_events_all _ _ _ _ _ _ Hun) as (Hoc2 & Hu).
  exists locked. split; [lia|]. split.
  { intros Hlt. simpl. rewrite (Hfail ltac:(lia)). apply Hfail. lia. }
  split; [eapply only_consumed_trans; eassumption|].
  intros k Hk.
  destruct (Hl k ltac:(lia)) as (p & e & Ha & He & Hsig).
  destruct (Hu k ltac:(lia)) as (p' & e' & Ha' & He' & Hclr).
  assert (p' = p) by congruence. subst p'.
  destruct (proj2 (only_consumed_trans _ _ _ Hoc1 Hoc2) p e He)
    as (e2 & He2 & Hm2 & Hs2).
  assert (e2 = e') by congruence. subst e2.
  exists p, e, e'. repeat (split; [assumption|]). split; [|exact Hm2].
  destruct (is_manual_reset e) eqn:Hman.
  - destruct Hs2 as [Hs2|[_ Hx]]; congruence.
  - apply Hclr. congruence.
Qed.

End Group.

Section WaitAll.

Context (w : world) (fuel : nat) (arr : list (option nat)) (p_time : option Z)
  (p_idx : bool).

Lemma scan_all_goto_failure n i l s l2 s1 :
  scan_all w fuel n i l s = (Ok (Goto_clean_up_threads, l2), s1) ->
  ~ no_failure l2.
Proof.
  revert i l s. induction n as [|n IH]; intros i l s; simpl; [discriminate|].
  intros H. apply bind_inv in H as (wt & sa & _ & H).
  destruct (done wt); [|apply (IH _ _ _ H)].
  apply bind_inv in H as ([f l'] & sb & Hj & H). simpl in H.
  destruct f; [apply (IH _ _ _ H)|].
  injection H as <- <-. apply (join_done_goto_failure _ _ _ _ _ _ _ _ Hj).
Qed.

Lemma wait_loop_all_success turns c l s l' s' :
  wait_loop w fuel arr true p_time p_idx turns c l s = (Ok l', s') ->
  no_failure l' -> all_signaled l' = true ->
  exists l1 s1, verify_group w arr c l1 s1 = (Ok l', s').
Proof.
  revert l s. induction turns as [|turns IH]; intros l s; simpl; intros H Hl' Ha.
  all: apply bind_inv in H as ([f l1] & s1 & Hscan & H); simpl in H.
  all: unfold scan in Hscan.
  all: apply bind_inv in Hscan as ([f2 l2] & s2 & Hsa & Hscan); simpl in Hscan.
  all: destruct f2;
    [|injection Hscan as <- <- <-; injection H as <- <-;
      apply scan_all_goto_failure in Hsa; contradiction].
  all: destruct (all_signaled l2) eqn:Hal2.
  1,3: apply bind_inv in Hscan as (l3 & s3 & Hv & Hscan);
    injection Hscan as <- <- <-; injection H as <- <-; eauto.
  all: injection Hscan as <- <- <-.
  all: apply bind_inv in H as (ts & s3 & _ & H).
  all: destruct (is_success ts) eqn:Hts; try discriminate.
  2: apply (IH _ _ H Hl' Ha).
  all: injection H as <- <-; destruct Hl' as [_ Ht]; simpl in Ht; subst ts;
    discriminate.
Qed.

Lemma restart_wait_all_success rounds c l s l' s' :
  restart_wait w fuel arr true p_time p_idx rounds c l s = (Ok l', s') ->
  no_failure l' ->
  exists l1 s1 s2,
    verify_group w arr c l1 s1 = (Ok l', s2)
    /\ all_signaled l' = true
    /\ clean_up_threads w fuel c s2 = (Ok tt, s').
Proof.
  revert l s. induction rounds as [|rounds IH]; intros l s; simpl; intros H Hl'.
  all: apply bind_inv in H as (created & s1 & _ & H).
  all: destruct (is_success created) eqn:Hc; simpl in H.
  2,4: injection H as <- <-; destruct Hl' as [_ Ht]; simpl in Ht;
    subst created; discriminate.
  all: apply bind_inv in H as ([] & s2 & _ & H).
  all: apply bind_inv in H as (l2 & s3 & Hloop & H).
  all: apply bind_inv in H as ([] & s4 & Hclean & H).
  all: destruct ((err l2 =? 0)%Z && is_success (thrd_status l2)
                 && negb (all_signaled l2)) eqn:Hr; simpl in H;
    try discriminate.
  2: apply (IH _ _ H Hl').
  all: injection H as <- <-.
  all: assert (Ha : all_signaled l2 = true)
    by (destruct Hl' as [He Ht]; rewrite He, Ht in Hr; simpl in Hr;
        destruct (all_signaled l2); [reflexivity|discriminate]).
  all: destruct (wait_loop_all_success _ _ _ _ _ _ Hloop Hl' Ha) as (l1 & s0 & Hv).
  all: exists l1, s0, s3; auto.
Qed.

End WaitAll.

(** ** The values [event_wait_multiple] returns *)


Lemma errno_image_status ts : errno_image (_thrd_status_to_errno ts).
Proof. destruct ts; unfold errno_image; simpl; tauto. Qed.

#[export] Instance exit_codes_frame : Frame exit_codes.
Proof. split; intros; assumption. Qed.

Lemma store_waiter_exit_codes i f :
  (forall wt z, thrd (f wt) = thrd_exit z ->
     thrd wt = thrd_exit z \/ exit_code z) ->
  preserves exit_codes (store_waiter i f).
Proof.
  intros Hf. unfold store_waiter. apply preserves_bind; [pres|intros _].
  apply preserves_modify. intros s Hs j wt z. simpl.
  destruct (decide (i = j)) as [<-|Hne].
  - rewrite list_lookup_alter_eq.
    destruct (waiters s !! i) as [wt0|] eqn:E; simpl; [|discriminate].
    intros [= <-] Hz. destruct (Hf wt0 z Hz) as [H|H]; [|exact H].
    apply (Hs i wt0 z E H).
  - rewrite list_lookup_alter_ne by exact Hne. apply Hs.
Qed.

Lemma store_canceled_exit_codes i b : preserves exit_codes (store_canceled i b).
Proof.
  unfold store_canceled. apply preserves_bind; [|intros ?; pres].
  apply store_waiter_exit_codes. intros wt z H. left. exact H.
Qed.

Lemma store_done_exit_codes i b : preserves exit_codes (store_done i b).
Proof.
  unfold store_done. apply preserves_bind; [|intros ?; pres].
  apply store_waiter_exit_codes. intros wt z H. left. exact H.
Qed.

Section ProxyCodes.

Context (w : world).

Lemma _event_wait_helper_finish_exit_codes i ts sig :
  preserves exit_codes (_event_wait_helper_finish w i ts sig).
Proof.
  unfold _event_wait_helper_finish.
  apply preserves_bind; [pres|intros ?].
  apply preserves_bind; [apply store_done_exit_codes|intros ?].
  apply preserves_bind; [pres|intros ?].
  apply preserves_bind; [pres|intros ?].
  apply store_waiter_exit_codes. intros wt z [= <-]. right.
  destruct (negb (is_success ts)); [left; apply errno_image_status|].
  destruct (negb sig); [right; reflexivity|].
  left. left. reflexivity.
Qed.

Lemma _event_wait_helper_unlock_exit_codes i p ts sig :
  preserves exit_codes (_event_wait_helper_unlock w i p ts sig).
Proof.
  unfold _event_wait_helper_unlock. apply preserves_bind; [pres|intros ?].
  apply _event_wait_helper_finish_exit_codes.
Qed.

Lemma _event_wait_helper_sleep_exit_codes i p :
  preserves exit_codes (_event_wait_helper_sleep i p).
Proof.
  unfold _event_wait_helper_sleep. apply preserves_bind; [pres|intros ?].
  apply store_waiter_exit_codes. intros wt z H. discriminate H.
Qed.

Lemma _event_wait_helper_wake_exit_codes i p :
  preserves exit_codes (_event_wait_helper_wake w i p).
Proof.
  unfold _event_wait_helper_wake.
  apply preserves_bind; [pres|intros ts].
  apply preserves_bind; [pres|intros ?].
  apply preserves_bind; [pres|intros ?].
  destruct (is_success ts); [|apply _event_wait_helper_unlock_exit_codes].
  apply preserves_bind; [pres|intros ?].
  apply preserves_bind; [pres|intros wt].
  apply preserves_bind; [pres|intros ?].
  destruct (canceled wt); [apply _event_wait_helper_unlock_exit_codes|].
  apply preserves_bind; [pres|intros e].
  destruct (signaled e);
    [apply _event_wait_helper_unlock_exit_codes
    |apply _event_wait_helper_sleep_exit_codes].
Qed.

Lemma _event_wait_helper_start_exit_codes i p :
  preserves exit_codes (_event_wait_helper_start w i p).
Proof.
  unfold _event_wait_helper_start.
  apply preserves_bind; [pres|intros ts].
  destruct (is_success ts); [|apply _event_wait_helper_finish_exit_codes].
  apply preserves_bind; [pres|intros e].
  destruct (signaled e);
    [apply _event_wait_helper_unlock_exit_codes
    |apply _event_wait_helper_sleep_exit_codes].
Qed.

Lemma _event_wait_helper_exit_codes i :
  preserves exit_codes (_event_wait_helper w i).
Proof.
  unfold _event_wait_helper. apply preserves_bind; [pres|intros s].
  destruct (waiters s !! i) as [wt|]; [|pres].
  destruct (thrd wt); try solve [pres].
  all: apply preserves_bind; [pres|intros p].
  all: destruct (mtx_of (O_event p) s) as [held|]; [|pres].
  all: destruct (held || wait_info_mtx s); [pres|].
  all: apply preserves_bind; [pres|intros ?].
  all: apply preserves_bind; [|intros ?; pres].
  - apply _event_wait_helper_start_exit_codes.
  - apply _event_wait_helper_wake_exit_codes.
Qed.

#[export] Instance exit_codes_env : EnvFrame w exit_codes.
Proof. split; [typeclasses eauto|apply _event_wait_helper_exit_codes]. Qed.

End ProxyCodes.

Section CoordinatorCodes.

Context (w : world) (fuel : nat) (p_events : list (option nat))
  (wait_all : bool) (p_time : option Z) (p_idx : bool).

Lemma thrd_create_exit_codes i : preserves exit_codes (thrd_create w i).
Proof.
  unfold thrd_create. apply preserves_bind; [pres|intros ts].
  apply preserves_bind; [|intros ?; pres].
  destruct (is_success ts); [|pres].
  apply store_waiter_exit_codes. intros wt z H. discriminate H.
Qed.

Lemma load_waiter_exit_codes i :
  hoare exit_codes (load_waiter i)
    (fun wt s => exit_codes s
                 /\ forall z, thrd wt = thrd_exit z -> exit_code z).
Proof.
  unfold load_waiter. intros s Hs. unfold bind, get.
  destruct (waiters s !! i) as [wt|] eqn:E; simpl; [|exact Logic.I].
  split; [exact Hs|]. intros z Hz. apply (Hs i wt z E Hz).
Qed.

Lemma thrd_join_exit_codes turns i :
  hoare exit_codes (thrd_join w turns i)
    (fun r s => exit_codes s /\ exit_code (snd r)).
Proof.
  induction turns as [|turns IH]; simpl.
  all: eapply hoare_bind; [apply load_waiter_exit_codes|intros wt; cbv beta].
  all: apply hoare_pure_pre; intros Hwt.
  all: destruct (thrd wt) eqn:Ht; try apply hoare_halt.
  all: try (repeat (apply hoare_bind_inv; [pres|intros ?]);
            apply hoare_ret; intros s Hs; split; [exact Hs|];
            apply Hwt; reflexivity).
  all: apply hoare_bind_inv; [pres|intros ?]; exact IH.
Qed.

Lemma join_spawned_exit_codes i :
  preserves exit_codes (join_spawned w fuel i).
Proof. unfold join_spawned. pres. Qed.

Lemma spawn_waiters_exit_codes n i :
  preserves exit_codes (spawn_waiters w fuel p_events n i).
Proof.
  revert i. induction n as [|n IH]; intros i; simpl; [pres|].
  apply preserves_bind; [pres|intros p].
  apply preserves_bind.
  { apply store_waiter_exit_codes. intros wt z H. left. exact H. }
  intros ?.
  apply preserves_bind; [apply store_canceled_exit_codes|intros ?].
  apply preserves_bind; [apply store_done_exit_codes|intros ?].
  apply preserves_bind; [apply thrd_create_exit_codes|intros ts].
  destruct (is_success ts); [apply IH|].
  apply preserves_bind; [apply join_spawned_exit_codes|intros ?]. pres.
Qed.

Lemma join_done_exit_codes i wt l :
  exit_code (err l) ->
  hoare exit_codes (join_done w fuel i wt l)
    (fun r s => exit_codes s /\ exit_code (err (snd r))).
Proof.
  intros Hl. unfold join_done.
  destruct (joinable wt); [|apply hoare_ret; auto].
  eapply hoare_bind; [apply thrd_join_exit_codes|intros r; cbv beta].
  apply hoare_pure_pre; intros Hr.
  apply hoare_bind_inv.
  { apply store_waiter_exit_codes. intros x z H. left. exact H. }
  intros ?.
  destruct (negb (is_success (fst r)));
    [apply hoare_ret; intros s Hs; split; [exact Hs|left; left; reflexivity]|].
  destruct (negb (snd r =? 0)%Z); apply hoare_ret; auto.
Qed.

Lemma scan_all_exit_codes n i l :
  exit_code (err l) ->
  hoare exit_codes (scan_all w fuel n i l)
    (fun r s => exit_codes s /\ exit_code (err (snd r))).
Proof.
  revert i l. induction n as [|n IH]; intros i l Hl; simpl.
  - apply hoare_ret. auto.
  - apply hoare_bind_inv; [pres|intros wt].
    destruct (done wt); [|apply IH; exact Hl].
    eapply hoare_bind; [apply join_done_exit_codes; exact Hl|].
    intros [f l']; cbv beta. apply hoare_pure_pre. simpl. intros Hl'.
    destruct f; [apply IH; exact Hl'|apply hoare_ret; auto].
Qed.

Lemma take_signaled_exit_codes i :
  preserves exit_codes (take_signaled w p_events p_idx i).
Proof.
  unfold take_signaled. apply preserves_bind; [|intros ?; pres].
  unfold store_idx. destruct p_idx; [|pres].
  apply preserves_bind; [|intros ?; pres].
  apply preserves_modify. intros s Hs. exact Hs.
Qed.

Lemma scan_any_exit_codes n i l :
  exit_code (err l) ->
  hoare exit_codes (scan_any w fuel p_events p_idx n i l)
    (fun r s => exit_codes s /\ exit_code (err (snd r))).
Proof.
  revert i l. induction n as [|n IH]; intros i l Hl; simpl.
  - apply hoare_ret. auto.
  - apply hoare_bind_inv; [pres|intros wt].
    destruct (done wt); [|apply IH; exact Hl].
    eapply hoare_bind; [apply join_done_exit_codes; exact Hl|].
    intros [f l']; cbv beta. apply hoare_pure_pre. simpl. intros Hl'.
    destruct f; [|apply hoare_ret; auto].
    apply hoare_bind_inv; [apply take_signaled_exit_codes|intros ?].
    apply hoare_ret. auto.
Qed.

Lemma verify_group_exit_codes n l :
  exit_code (err l) ->
  hoare exit_codes (verify_group w p_events n l)
    (fun l' s => exit_codes s /\ exit_code (err l')).
Proof.
  intros Hl. unfold verify_group.
  apply hoare_bind_inv; [pres|intros [[locked ts] b]].
  apply hoare_bind_inv; [pres|intros ts2].
  apply hoare_ret. auto.
Qed.

Lemma scan_exit_codes c l :
  exit_code (err l) ->
  hoare exit_codes (scan w fuel p_events wait_all p_idx c l)
    (fun r s => exit_codes s /\ exit_code (err (snd r))).
Proof.
  intros Hl. unfold scan. destruct wait_all.
  - eapply hoare_bind; [apply scan_all_exit_codes; exact Hl|].
    intros [f l']; cbv beta. apply hoare_pure_pre. simpl. intros Hl'.
    destruct f; [|apply hoare_ret; auto].
    destruct (all_signaled l'); [|apply hoare_ret; auto].
    eapply hoare_bind; [apply verify_group_exit_codes; exact Hl'|].
    intros l''; cbv beta. apply hoare_ret. auto.
  - apply scan_any_exit_codes. exact Hl.
Qed.

Lemma wait_loop_exit_codes turns c l :
  exit_code (err l) ->
  hoare exit_codes
    (wait_loop w fuel p_events wait_all p_time p_idx turns c l)
    (fun l' s => exit_codes s /\ exit_code (err l')).
Proof.
  revert l. induction turns as [|turns IH]; intros l Hl; simpl.
  all: eapply hoare_bind; [apply scan_exit_codes; exact Hl|].
  all: intros [f l']; cbv beta; apply hoare_pure_pre; simpl; intros Hl'.
  all: destruct f; [|apply hoare_ret; auto].
  all: apply hoare_bind_inv; [pres|intros ts].
  all: destruct (is_success ts); [|apply hoare_ret; auto].
  - apply hoare_halt.
  - apply IH. exact Hl'.
Qed.

Lemma clean_up_threads_exit_codes c :
  preserves exit_codes (clean_up_threads w fuel c).
Proof.
  unfold clean_up_threads.
  apply preserves_bind.
  { apply preserves_for_loop. intros i. unfold cancel_waiter.
    apply preserves_bind; [pres|intros wt].
    destruct (negb (done wt)); [|pres].
    apply preserves_bind; [pres|intros p].
    apply preserves_bind; [pres|intros ?].
    apply preserves_bind; [apply store_canceled_exit_codes|intros ?]. pres. }
  intros ?. apply preserves_bind; [pres|intros ?].
  apply preserves_for_loop. intros i. unfold join_waiter. pres.
Qed.

Lemma restart_wait_exit_codes rounds c l :
  exit_code (err l) ->
  hoare exit_codes
    (restart_wait w fuel p_events wait_all p_time p_idx rounds c l)
    (fun l' _ => exit_code (err l')).
Proof.
  revert l. induction rounds as [|rounds IH]; intros l Hl; simpl.
  all: apply hoare_bind_inv; [apply spawn_waiters_exit_codes|intros created].
  all: destruct (is_success created) eqn:Hc; simpl;
    [|apply hoare_ret; auto].
  all: apply hoare_bind_inv; [pres|intros ?].
  all: eapply hoare_bind; [apply wait_loop_exit_codes; exact Hl|].
  all: intros l'; cbv beta; apply hoare_pure_pre; intros Hl'.
  all: apply hoare_bind_inv; [apply clean_up_threads_exit_codes|intros ?].
  all: destruct (wait_all && (err l' =? 0)%Z && is_success (thrd_status l')
                 && negb (all_signaled l')); [|apply hoare_ret; auto].
  - apply hoare_halt.
  - apply IH. exact Hl'.
Qed.

End CoordinatorCodes.

Lemma event_wait_errno_image w fuel p p_time :
  hoare any_state (event_wait w fuel (Some p) p_time)
    (fun r _ => errno_image r).
Proof.
  unfold event_wait.
  apply hoare_bind_inv; [pres|intros ts].
  apply hoare_bind_inv; [pres|intros ts'].
  apply hoare_ret. intros s _. apply errno_image_status.
Qed.

(** ** What is never written *)


Lemma fmap_alter_same {A B} (f : A -> B) (g : A -> A) (l : list A) p :
  (forall x, f (g x) = f x) -> f <$> alter g p l = f <$> l.
Proof.
  intros H. revert p. induction l as [|x l IH]; intros [|p]; simpl;
    try reflexivity.
  - rewrite H. reflexivity.
  - f_equal. apply IH.
Qed.

#[export] Instance latches_are_mtx_frame L : MtxFrame (latches_are L).
Proof.
  split; intros; try assumption.
  unfold latches_are, latches in *. simpl.
  rewrite fmap_alter_same; [assumption|reflexivity].
Qed.

#[export] Instance modes_are_mtx_frame L : MtxFrame (modes_are L).
Proof.
  split; intros; try assumption.
  unfold modes_are, modes in *. simpl.
  rewrite fmap_alter_same; [assumption|reflexivity].
Qed.

#[export] Instance modes_are_latch_frame L : LatchFrame (modes_are L).
Proof.
  split; [typeclasses eauto|]. intros.
  unfold modes_are, modes in *. simpl.
  rewrite fmap_alter_same; [assumption|reflexivity].
Qed.

Lemma mf_set_mtx I `{MtxFrame I} o b s : I s -> I (set_mtx o b s).
Proof. destruct o; simpl; [apply mf_mtx|apply mf_wait_info_mtx]. Qed.

Create HintDb keep.

(** Break a run into its calls; the calls are closed with the [keep]
    lemmas. *)
Ltac keep_step :=
  lazymatch goal with
  | |- preserves _ (ret _) => apply preserves_ret
  | |- preserves _ (halt _) => apply preserves_halt
  | |- preserves _ get => apply preserves_get
  | |- preserves _ (bind _ _) => apply preserves_bind; [|intros ?]
  | |- preserves _ (modify _) =>
      apply preserves_modify; intros ? ?;
      first [ apply mf_set_mtx | apply lf_signaled | apply mf_mtx
            | apply mf_wait_info_mtx | apply mf_waiters | apply mf_idx
            | apply mf_tick | apply mf_self | apply mf_log ];
      first [ assumption | typeclasses eauto ]
  | |- preserves _ (for_loop _ _ _) =>
      apply preserves_for_loop; intros ?; cbv beta
  | |- preserves _ (if ?b then _ else _) => destruct b
  | |- preserves _ (match ?x with _ => _ end) => destruct x
  | |- preserves _ _ => solve [eauto with keep typeclass_instances]
  end.
Ltac keep := repeat keep_step.

Section KeepMtx.

Context (w : world) (I : state -> Prop) `{!MtxFrame I}.

Lemma next_status_keep : preserves I (next_status w).
Proof. intros s Hs. simpl. apply mf_tick; exact Hs. Qed.
Hint Resolve next_status_keep : keep.

Lemma mtx_lock_keep o : preserves I (mtx_lock w o).
Proof. unfold mtx_lock. keep. Qed.
Lemma mtx_unlock_keep o : preserves I (mtx_unlock w o).
Proof. unfold mtx_unlock. keep. Qed.
Lemma cnd_signal_keep o : preserves I (cnd_signal w o).
Proof. unfold cnd_signal. keep. Qed.
Lemma cnd_broadcast_keep o : preserves I (cnd_broadcast w o).
Proof. unfold cnd_broadcast. keep. Qed.
Lemma CHECK_THRD_ERR_keep c : preserves I c -> preserves I (CHECK_THRD_ERR c).
Proof. intros H. unfold CHECK_THRD_ERR. keep. Qed.
Lemma load_event_keep p : preserves I (load_event p).
Proof. unfold load_event. keep. Qed.
Lemma load_waiter_keep i : preserves I (load_waiter i).
Proof. unfold load_waiter. keep. Qed.
Lemma deref_keep p : preserves I (deref p).
Proof. unfold deref. keep. Qed.
Lemma load_p_events_keep arr i : preserves I (load_p_events arr i).
Proof. unfold load_p_events. keep. Qed.
Hint Resolve mtx_lock_keep mtx_unlock_keep cnd_signal_keep cnd_broadcast_keep
  CHECK_THRD_ERR_keep load_event_keep load_waiter_keep deref_keep
  load_p_events_keep : keep.

Lemma store_waiter_keep i f : preserves I (store_waiter i f).
Proof. unfold store_waiter. keep. Qed.
Hint Resolve store_waiter_keep : keep.
Lemma store_canceled_keep i b : preserves I (store_canceled i b).
Proof. unfold store_canceled. keep. Qed.
Lemma store_done_keep i b : preserves I (store_done i b).
Proof. unfold store_done. keep. Qed.
Hint Resolve store_canceled_keep store_done_keep : keep.

Lemma _event_wait_helper_finish_keep i ts sig :
  preserves I (_event_wait_helper_finish w i ts sig).
Proof. unfold _event_wait_helper_finish. keep. Qed.
Hint Resolve _event_wait_helper_finish_keep : keep.

Lemma _event_wait_helper_unlock_keep i p ts sig :
  preserves I (_event_wait_helper_unlock w i p ts sig).
Proof. unfold _event_wait_helper_unlock. keep. Qed.
Hint Resolve _event_wait_helper_unlock_keep : keep.

Lemma _event_wait_helper_sleep_keep i p :
  preserves I (_event_wait_helper_sleep i p).
Proof. unfold _event_wait_helper_sleep. keep. Qed.
Hint Resolve _event_wait_helper_sleep_keep : keep.

Lemma _event_wait_helper_wake_keep i p :
  preserves I (_event_wait_helper_wake w i p).
Proof. unfold _event_wait_helper_wake. keep. Qed.

Lemma _event_wait_helper_start_keep i p :
  preserves I (_event_wait_helper_start w i p).
Proof. unfold _event_wait_helper_start. keep. Qed.
Hint Resolve _event_wait_helper_wake_keep _event_wait_helper_start_keep : keep.

Lemma _event_wait_helper_keep i : preserves I (_event_wait_helper w i).
Proof. unfold _event_wait_helper. keep. Qed.

End KeepMtx.

#[export] Hint Resolve next_status_keep mtx_lock_keep mtx_unlock_keep
  cnd_signal_keep cnd_broadcast_keep CHECK_THRD_ERR_keep load_event_keep
  load_waiter_keep deref_keep load_p_events_keep store_waiter_keep
  store_canceled_keep store_done_keep _event_wait_helper_keep : keep.

Section KeepLatch.

Context (w : world) (I : state -> Prop) `{!LatchFrame I}.

Lemma store_signaled_keep p b : preserves I (store_signaled p b).
Proof. unfold store_signaled. keep. Qed.
Hint Resolve store_signaled_keep : keep.

Lemma run_env_keep l : preserves I (run_env w l).
Proof.
  induction l as [|a l IH]; simpl; [keep|].
  apply preserves_bind; [|intros ?; exact IH].
  destruct a; simpl; keep.
Qed.
Hint Resolve run_env_keep : keep.

Lemma yield_keep : preserves I (yield w).
Proof. unfold yield. keep. Qed.
Hint Resolve yield_keep : keep.

Lemma cnd_wait_until_keep o p_time : preserves I (cnd_wait_until w o p_time).
Proof. unfold cnd_wait_until, cnd_wait, cnd_timedwait. keep. Qed.
Hint Resolve cnd_wait_until_keep : keep.

Lemma thrd_create_keep i : preserves I (thrd_create w i).
Proof. unfold thrd_create. keep. Qed.

Lemma thrd_join_keep fuel i : preserves I (thrd_join w fuel i).
Proof. induction fuel as [|fuel IH]; simpl; keep. Qed.
Hint Resolve thrd_create_keep thrd_join_keep : keep.

Lemma event_wait_loop_keep fuel p p_time ts :
  preserves I (event_wait_loop w fuel p p_time ts).
Proof. revert ts. induction fuel as [|fuel IH]; intros ts; simpl; keep. Qed.
Hint Resolve event_wait_loop_keep : keep.

Lemma event_wait_keep fuel p p_time : preserves I (event_wait w fuel p p_time).
Proof. unfold event_wait. keep. Qed.
Hint Resolve event_wait_keep : keep.

Section Coordinator.

Context (fuel : nat) (p_events : list (option nat)) (wait_all : bool)
  (p_time : option Z) (p_idx : bool).

Lemma spawn_waiters_keep n i : preserves I (spawn_waiters w fuel p_events n i).
Proof.
  revert i. induction n as [|n IH]; intros i; simpl; [keep|].
  unfold join_spawned. keep.
Qed.

Lemma join_done_keep i wt l : preserves I (join_done w fuel i wt l).
Proof. unfold join_done. keep. Qed.
Hint Resolve join_done_keep : keep.

Lemma scan_all_keep n i l : preserves I (scan_all w fuel n i l).
Proof. revert i l. induction n as [|n IH]; intros i l; simpl; keep. Qed.

Lemma lock_events_keep n locked ts :
  preserves I (lock_events w p_events n locked ts).
Proof.
  revert locked ts. induction n as [|n IH]; intros locked ts; simpl; keep.
Qed.

Lemma unlock_events_keep n i b ts :
  preserves I (unlock_events w p_events n i b ts).
Proof. revert i ts. induction n as [|n IH]; intros i ts; simpl; keep. Qed.
Hint Resolve lock_events_keep unlock_events_keep : keep.

Lemma verify_group_keep c l : preserves I (verify_group w p_events c l).
Proof. unfold verify_group. keep. Qed.

Lemma take_signaled_keep i : preserves I (take_signaled w p_events p_idx i).
Proof. unfold take_signaled, store_idx. keep. Qed.
Hint Resolve take_signaled_keep : keep.

Lemma scan_any_keep n i l :
  preserves I (scan_any w fuel p_events p_idx n i l).
Proof. revert i l. induction n as [|n IH]; intros i l; simpl; keep. Qed.
Hint Resolve scan_all_keep verify_group_keep scan_any_keep : keep.

Lemma scan_keep c l : preserves I (scan w fuel p_events wait_all p_idx c l).
Proof. unfold scan. keep. Qed.
Hint Resolve scan_keep : keep.

Lemma wait_loop_keep turns c l :
  preserves I (wait_loop w fuel p_events wait_all p_time p_idx turns c l).
Proof. revert l. induction turns as [|turns IH]; intros l; simpl; keep. Qed.

Lemma clean_up_threads_keep c : preserves I (clean_up_threads w fuel c).
Proof. unfold clean_up_threads, cancel_waiter, join_waiter. keep. Qed.
Hint Resolve spawn_waiters_keep wait_loop_keep clean_up_threads_keep : keep.

Lemma restart_wait_keep rounds c l :
  preserves I (restart_wait w fuel p_events wait_all p_time p_idx rounds c l).
Proof. revert l. induction rounds as [|rounds IH]; intros l; simpl; keep. Qed.

End Coordinator.

Lemma event_wait_multiple_keep fuel p_events c_events wait_all p_time p_idx :
  preserves I
    (event_wait_multiple w fuel p_events c_events wait_all p_time p_idx).
Proof.
  pose proof restart_wait_keep as Hr.
  unfold event_wait_multiple, store_idx, mtx_init, cnd_init, mtx_destroy,
    cnd_destroy.
  keep.
Qed.

End KeepLatch.

(** ** The cancel loop (lines 325-336) *)


Lemma CHECK_mtx_lock_inv w p s s1 :
  CHECK_THRD_ERR (mtx_lock w (O_event p)) s = (Ok tt, s1) ->
  exists e, events s !! p = Some e /\ mtx e = false
    /\ s1 = log (A_mtx_lock (O_event p) thrd_success)
              (set_mtx (O_event p) true (set_tick (S (tick s)) s)).
Proof.
  unfold CHECK_THRD_ERR, mtx_lock, bind, get, mtx_of, next_status, modify, ret,
    halt.
  destruct (events s !! p) as [e|] eqn:He; simpl; [|discriminate].
  destruct (prim w (tick s)) eqn:Hr; simpl; try discriminate.
  destruct (mtx e) eqn:Hm; simpl; [discriminate|].
  intros [= <-]. exists e. auto.
Qed.

Lemma CHECK_cnd_broadcast_inv w p s s1 :
  CHECK_THRD_ERR (cnd_broadcast w (O_event p)) s = (Ok tt, s1) ->
  s1 = log (A_cnd_broadcast (O_event p) thrd_success)
         (set_tick (S (tick s)) s).
Proof.
  unfold CHECK_THRD_ERR, cnd_broadcast, bind, get, mtx_of, next_status, modify,
    ret, halt.
  destruct (events s !! p) as [e|] eqn:He; simpl; [|discriminate].
  destruct (prim w (tick s)) eqn:Hr; simpl; try discriminate.
  intros [= <-]. reflexivity.
Qed.

Lemma CHECK_mtx_unlock_inv w p s s1 :
  CHECK_THRD_ERR (mtx_unlock w (O_event p)) s = (Ok tt, s1) ->
  s1 = log (A_mtx_unlock (O_event p) thrd_success)
         (set_mtx (O_event p) false (set_tick (S (tick s)) s)).
Proof.
  unfold CHECK_THRD_ERR, mtx_unlock, bind, get, mtx_of, next_status, modify,
    ret, halt.
  destruct (events s !! p) as [e|] eqn:He; simpl; [|discriminate].
  destruct (prim w (tick s)) eqn:Hr; simpl; try discriminate.
  intros [= <-]. reflexivity.
Qed.

(** Taking and releasing the mutex of an event that was free gives the
    events back as they were. *)
Lemma lock_unlock_events p e (es : list event_t) :
  es !! p = Some e -> mtx e = false ->
  alter (fun e => Event false (signaled e) (is_manual_reset e)) p
    (alter (fun e => Event true (signaled e) (is_manual_reset e)) p es) = es.
Proof.
  intros He Hm. apply list_eq. intros j.
  destruct (decide (p = j)) as [<-|Hne].
  - rewrite !list_lookup_alter_eq, He. simpl. destruct e; simpl in *.
    subst. reflexivity.
  - rewrite !list_lookup_alter_ne by exact Hne. reflexivity.
Qed.

Lemma cancel_waiter_inv w i s s' :
  cancel_waiter w i s = (Ok tt, s') ->
  exists wt, waiters s !! i = Some wt
    /\ events s' = events s
    /\ waiters s' = alter cancel i (waiters s)
    /\ wait_info_mtx s' = wait_info_mtx s
    /\ idx_signaled_event s' = idx_signaled_event s
    /\ self s' = self s
    /\ tick s' = (if done wt then 0 else 3) + tick s
    /\ trace s'
       = trace s ++
         (if done wt then []
          else match p_event wt with
               | Some p =>
                   [(self s, A_mtx_lock (O_event p) thrd_success);
                    (self s, A_set_canceled i true);
                    (self s, A_cnd_broadcast (O_event p) thrd_success);
                    (self s, A_mtx_unlock (O_event p) thrd_success)]
               | None => []
               end).
Proof.
  unfold cancel_waiter. intros H.
  apply bind_inv in H as (wt & s0 & Hw & H).
  apply load_waiter_inv in Hw as [-> Hw]. exists wt. split; [exact Hw|].
  assert (Hid : forall (ws : list _event_waiter_t) x, ws !! i = Some x ->
                  done x = true -> alter cancel i ws = ws).
  { intros ws x Hx Hd. apply list_eq. intros j.
    destruct (decide (i = j)) as [<-|Hne].
    - rewrite list_lookup_alter_eq, Hx. simpl. unfold cancel. rewrite Hd.
      reflexivity.
    - rewrite list_lookup_alter_ne by exact Hne. reflexivity. }
  destruct (done wt) eqn:Hd; simpl in H.
  { injection H as <-. rewrite (Hid _ _ Hw Hd), app_nil_r. auto 10. }
  apply bind_inv in H as (p & s1 & Hp & H).
  destruct (p_event wt) as [p'|] eqn:Hpe; [|discriminate].
  injection Hp as -> <-.
  apply bind_inv in H as ([] & s2 & Hlock & H).
  apply CHECK_mtx_lock_inv in Hlock as (e & He & Hm & ->).
  apply bind_inv in H as ([] & s3 & Hst & H).
  unfold store_canceled, store_waiter in Hst.
  apply bind_inv in Hst as ([] & s4 & Hst & Hlog).
  apply bind_inv in Hst as (wt' & s5 & Hw' & Hst).
  apply load_waiter_inv in Hw' as [-> Hw'].
  unfold modify in Hst, Hlog. injection Hst as <-. injection Hlog as <-.
  apply bind_inv in H as ([] & s6 & Hb & H).
  apply CHECK_cnd_broadcast_inv in Hb as ->.
  apply CHECK_mtx_unlock_inv in H as ->.
  destruct s as [es wm ws ix t me tr]. simpl in *.
  rewrite (lock_unlock_events _ _ _ He Hm).
  repeat split.
  - apply list_eq. intros j. destruct (decide (i = j)) as [<-|Hne].
    + rewrite !list_lookup_alter_eq, Hw. simpl. unfold cancel. rewrite Hd.
      reflexivity.
    + rewrite !list_lookup_alter_ne by exact Hne. reflexivity.
  - rewrite <- !app_assoc. reflexivity.
Qed.

Lemma cancel_loop_inv w n from s s' :
  for_loop n from (cancel_waiter w) s = (Ok tt, s') ->
  (0 < n -> from + n <= length (waiters s))
  /\ events s' = events s
  /\ length (waiters s') = length (waiters s)
  /\ (forall i wt, waiters s !! i = Some wt ->
        waiters s' !! i
        = Some (if (from <=? i) && (i <? from + n) then cancel wt else wt))
  /\ wait_info_mtx s' = wait_info_mtx s
  /\ idx_signaled_event s' = idx_signaled_event s.
Proof.
  revert from s. induction n as [|n IH]; intros from s; simpl.
  - intros [= <-]. split; [lia|repeat split].
    intros i wt Hi. rewrite Hi.
      replace ((from <=? i) && (i <? from + 0)) with false; [reflexivity|].
      symmetry. apply andb_false_iff.
      destruct (Nat.leb_spec from i); [right; apply Nat.ltb_ge; lia|auto].
  - intros H. apply bind_inv in H as ([] & s1 & Hc & H).
    apply cancel_waiter_inv in Hc as (wt0 & Hw0 & He & Hws & Hm & Hx & _).
    destruct (IH _ _ H) as (Hlen & He' & Hl' & Hws' & Hm' & Hx').
    rewrite Hws in Hlen, Hl', Hws'. rewrite length_alter in Hlen, Hl'.
    apply lookup_lt_Some in Hw0 as Hlt.
    split; [intros _; destruct n; [lia|specialize (Hlen ltac:(lia)); lia]|]. split; [congruence|]. split; [exact Hl'|].
    split; [|split; congruence].
    intros i wt Hi.
    destruct (decide (i = from)) as [->|Hne].
    + rewrite (Hws' from (cancel wt)).
      2: { rewrite list_lookup_alter_eq, Hi. reflexivity. }
      replace ((S from <=? from) && (from <? S from + n)) with false.
      2: { symmetry. apply andb_false_iff. left. apply Nat.leb_gt. lia. }
      replace ((from <=? from) && (from <? from + S n)) with true;
        [reflexivity|].
      symmetry. apply andb_true_iff. split;
        [apply Nat.leb_le; lia|apply Nat.ltb_lt; lia].
    + rewrite (Hws' i wt).
      2: { rewrite list_lookup_alter_ne by congruence. exact Hi. }
      replace ((S from <=? i) && (i <? S from + n))
        with ((from <=? i) && (i <? from + S n)); [reflexivity|].
      destruct (Nat.leb_spec from i), (Nat.leb_spec (S from) i),
        (Nat.ltb_spec i (from + S n)), (Nat.ltb_spec i (S from + n));
        simpl; try reflexivity; lia.
Qed.

(** ** What the call logs *)


Lemma logged_app loud tr1 tr2 :
  logged loud (tr1 ++ tr2) = logged loud tr1 ++ logged loud tr2.
Proof. unfold logged. rewrite map_app. apply List.filter_app. Qed.

#[export] Instance logged_since_frame loud pre res :
  LogFrame (fun a => negb (loud a)) (logged_since loud pre res).
Proof.
  split; intros; try assumption.
  destruct H0 as (rest & Ht & Hr). exists (rest ++ [(self s, a)]).
  split; [simpl; rewrite Ht, app_assoc; reflexivity|].
  rewrite logged_app, Hr. unfold logged. simpl.
  destruct (loud a); [discriminate|]. apply app_nil_r.
Qed.

#[export] Instance logged_since_idx loud pre res :
  IdxFrame (logged_since loud pre res).
Proof. intros n s H. exact H. Qed.

#[export] Instance took_at_most_one_frame arr pre ok :
  LogFrame (fun a => negb (is_latch_store a)) (took_at_most_one arr pre ok).
Proof.
  split; intros; try assumption.
  destruct H0 as [H0|(Hok & p & Hp & H0)];
    [left|right; split; [exact Hok|]; exists p; split; [exact Hp|]];
    apply (lg_log (quiet := fun a => negb (is_latch_store a))); assumption.
Qed.

#[export] Instance at_idx_frame i pre res :
  LogFrame (fun a => negb (is_latch_store a)) (at_idx i pre res).
Proof.
  split; intros; try assumption.
  destruct H0 as [Hi H0]. split; [exact Hi|].
  apply (lg_log (quiet := fun a => negb (is_latch_store a))); assumption.
Qed.

#[export] Instance is_resource_sync : SyncQuiet (fun a => negb (is_resource a)).
Proof. intros a Ha. destruct a; try discriminate; reflexivity. Qed.
#[export] Instance is_resource_thread :
  ThreadQuiet (fun a => negb (is_resource a)).
Proof. intros a Ha. destruct a; try discriminate; reflexivity. Qed.
#[export] Instance is_resource_latch :
  LatchQuiet (fun a => negb (is_resource a)).
Proof. intros p b. reflexivity. Qed.
#[export] Instance is_resource_idx : IdxQuiet (fun a => negb (is_resource a)).
Proof. intros n. reflexivity. Qed.
#[export] Instance is_latch_store_sync :
  SyncQuiet (fun a => negb (is_latch_store a)).
Proof. intros a Ha. destruct a; try discriminate; reflexivity. Qed.
#[export] Instance is_latch_store_thread :
  ThreadQuiet (fun a => negb (is_latch_store a)).
Proof. intros a Ha. destruct a; try discriminate; reflexivity. Qed.
#[export] Instance is_latch_store_idx :
  IdxQuiet (fun a => negb (is_latch_store a)).
Proof. intros n. reflexivity. Qed.

(** A loud action is recorded. *)
Lemma log_loud loud pre res a :
  loud a = true ->
  hoare (logged_since loud pre res) (modify (log a))
    (fun _ => logged_since loud pre (res ++ [a])).
Proof.
  intros Ha. apply hoare_modify. intros s (rest & Ht & Hr).
  exists (rest ++ [(self s, a)]).
  split; [simpl; rewrite Ht, app_assoc; reflexivity|].
  rewrite logged_app, Hr. unfold logged. simpl. rewrite Ha. reflexivity.
Qed.

Lemma lg_set_mtx quiet I `{!LogFrame quiet I} o b s : I s -> I (set_mtx o b s).
Proof. destruct o; simpl; [apply lg_events|apply lg_wait_info_mtx]. Qed.

Create HintDb quiet.

(** Break a run into its calls; the calls are closed with the [quiet]
    lemmas. *)
Ltac quiet_step :=
  lazymatch goal with
  | |- preserves _ (ret _) => apply preserves_ret
  | |- preserves _ (halt _) => apply preserves_halt
  | |- preserves _ get => apply preserves_get
  | |- preserves _ (bind _ _) => apply preserves_bind; [|intros ?]
  | |- preserves ?I (modify (log _)) =>
      apply preserves_modify; intros ? ?; apply (lg_log (I := I));
      [first [ reflexivity | apply sync_quiet; reflexivity
             | apply thread_quiet; reflexivity
             | apply latch_quiet | apply idx_quiet ]
      |assumption]
  | |- preserves ?I (modify (set_idx _)) =>
      apply preserves_modify; intros ? ?; apply lg_idx; assumption
  | |- preserves ?I (modify (set_mtx _ _)) =>
      apply preserves_modify; intros ? ?;
      eapply (lg_set_mtx _ I); assumption
  | |- preserves ?I (modify _) =>
      apply preserves_modify; intros ? ?;
      first [ apply (lg_events (I := I)) | apply (lg_wait_info_mtx (I := I))
            | apply (lg_waiters (I := I)) | apply (lg_tick (I := I))
            | apply (lg_self (I := I)) ];
      assumption
  | |- preserves _ (for_loop _ _ _) =>
      apply preserves_for_loop; intros ?; cbv beta
  | |- preserves _ (if ?b then _ else _) => destruct b
  | |- preserves _ (match ?x with _ => _ end) => destruct x
  | |- preserves _ _ => solve [eauto with quiet typeclass_instances]
  end.
Ltac quiet := repeat quiet_step.

Section QuietSync.

Context (w : world) (quiet : action -> bool) (I : state -> Prop)
  `{!LogFrame quiet I} `{!SyncQuiet quiet}.

Lemma next_status_quiet : preserves I (next_status w).
Proof. intros s Hs. simpl. apply (lg_tick (I := I)); exact Hs. Qed.
Hint Resolve next_status_quiet : quiet.

Lemma mtx_lock_quiet o : preserves I (mtx_lock w o).
Proof. unfold mtx_lock. quiet. Qed.
Lemma mtx_unlock_quiet o : preserves I (mtx_unlock w o).
Proof. unfold mtx_unlock. quiet. Qed.
Lemma cnd_signal_quiet o : preserves I (cnd_signal w o).
Proof. unfold cnd_signal. quiet. Qed.
Lemma cnd_broadcast_quiet o : preserves I (cnd_broadcast w o).
Proof. unfold cnd_broadcast. quiet. Qed.
Lemma CHECK_THRD_ERR_quiet c : preserves I c -> preserves I (CHECK_THRD_ERR c).
Proof. intros H. unfold CHECK_THRD_ERR. quiet. Qed.
Lemma load_event_quiet p : preserves I (load_event p).
Proof. unfold load_event. quiet. Qed.
Lemma load_waiter_quiet i : preserves I (load_waiter i).
Proof. unfold load_waiter. quiet. Qed.
Lemma deref_quiet p : preserves I (deref p).
Proof. unfold deref. quiet. Qed.
Lemma load_p_events_quiet arr i : preserves I (load_p_events arr i).
Proof. unfold load_p_events. quiet. Qed.
Hint Resolve mtx_lock_quiet mtx_unlock_quiet cnd_signal_quiet
  cnd_broadcast_quiet CHECK_THRD_ERR_quiet load_event_quiet load_waiter_quiet
  deref_quiet load_p_events_quiet : quiet.

Lemma store_waiter_quiet i f : preserves I (store_waiter i f).
Proof. unfold store_waiter. quiet. Qed.
Hint Resolve store_waiter_quiet : quiet.
Lemma store_canceled_quiet i b : preserves I (store_canceled i b).
Proof. unfold store_canceled. quiet. Qed.
Lemma store_done_quiet i b : preserves I (store_done i b).
Proof. unfold store_done. quiet. Qed.
Hint Resolve store_canceled_quiet store_done_quiet : quiet.

Lemma _event_wait_helper_quiet i : preserves I (_event_wait_helper w i).
Proof.
  unfold _event_wait_helper, _event_wait_helper_start,
    _event_wait_helper_wake, _event_wait_helper_sleep,
    _event_wait_helper_unlock, _event_wait_helper_finish.
  quiet.
Qed.
Hint Resolve _event_wait_helper_quiet : quiet.

Lemma run_env_quiet l : preserves I (run_env w l).
Proof.
  induction l as [|a l IH]; simpl; [quiet|].
  apply preserves_bind; [|intros ?; exact IH].
  destruct a; simpl; quiet.
Qed.
Hint Resolve run_env_quiet : quiet.

Lemma yield_quiet : preserves I (yield w).
Proof. unfold yield. quiet. Qed.
Hint Resolve yield_quiet : quiet.

Lemma cnd_wait_until_quiet o p_time : preserves I (cnd_wait_until w o p_time).
Proof. unfold cnd_wait_until, cnd_wait, cnd_timedwait. quiet. Qed.
Hint Resolve cnd_wait_until_quiet : quiet.

Lemma lock_events_quiet arr n locked ts :
  preserves I (lock_events w arr n locked ts).
Proof.
  revert locked ts. induction n as [|n IH]; intros locked ts; simpl; quiet.
Qed.

Lemma cancel_waiter_quiet i : preserves I (cancel_waiter w i).
Proof. unfold cancel_waiter. quiet. Qed.

End QuietSync.

#[export] Hint Resolve next_status_quiet mtx_lock_quiet mtx_unlock_quiet
  cnd_signal_quiet cnd_broadcast_quiet CHECK_THRD_ERR_quiet load_event_quiet
  load_waiter_quiet deref_quiet load_p_events_quiet store_waiter_quiet
  store_canceled_quiet store_done_quiet _event_wait_helper_quiet run_env_quiet
  yield_quiet cnd_wait_until_quiet lock_events_quiet cancel_waiter_quiet
  : quiet.

Section QuietLatch.

Context (w : world) (quiet : action -> bool) (I : state -> Prop)
  `{!LogFrame quiet I} `{!SyncQuiet quiet} `{!LatchQuiet quiet}.

Lemma store_signaled_quiet p b : preserves I (store_signaled p b).
Proof. unfold store_signaled. quiet. Qed.
Hint Resolve store_signaled_quiet : quiet.

Lemma event_wait_loop_quiet fuel p p_time ts :
  preserves I (event_wait_loop w fuel p p_time ts).
Proof. revert ts. induction fuel as [|fuel IH]; intros ts; simpl; quiet. Qed.
Hint Resolve event_wait_loop_quiet : quiet.

Lemma event_wait_quiet fuel p p_time : preserves I (event_wait w fuel p p_time).
Proof. unfold event_wait. quiet. Qed.

Lemma unlock_events_quiet arr n i b ts :
  preserves I (unlock_events w arr n i b ts).
Proof. revert i ts. induction n as [|n IH]; intros i ts; simpl; quiet. Qed.
Hint Resolve unlock_events_quiet : quiet.

Lemma verify_group_quiet arr c l : preserves I (verify_group w arr c l).
Proof. unfold verify_group. quiet. Qed.
Hint Resolve verify_group_quiet : quiet.

Section Idx.

Context `{!IdxFrame I} `{!IdxQuiet quiet}.

Lemma take_signaled_quiet arr p_idx i : preserves I (take_signaled w arr p_idx i).
Proof. unfold take_signaled, store_idx. quiet. Qed.

End Idx.

End QuietLatch.

#[export] Hint Resolve store_signaled_quiet event_wait_loop_quiet
  event_wait_quiet unlock_events_quiet verify_group_quiet take_signaled_quiet
  : quiet.

Section QuietThread.

Context (w : world) (quiet : action -> bool) (I : state -> Prop)
  `{!LogFrame quiet I} `{!SyncQuiet quiet} `{!ThreadQuiet quiet}.

Lemma thrd_create_quiet i : preserves I (thrd_create w i).
Proof. unfold thrd_create. quiet. Qed.

Lemma thrd_join_quiet fuel i : preserves I (thrd_join w fuel i).
Proof. induction fuel as [|fuel IH]; simpl; quiet. Qed.
Hint Resolve thrd_create_quiet thrd_join_quiet : quiet.

Lemma spawn_waiters_quiet fuel arr n i :
  preserves I (spawn_waiters w fuel arr n i).
Proof.
  revert i. induction n as [|n IH]; intros i; simpl; [quiet|].
  unfold join_spawned. quiet.
Qed.

Lemma join_done_quiet fuel i wt l : preserves I (join_done w fuel i wt l).
Proof. unfold join_done. quiet. Qed.
Hint Resolve join_done_quiet : quiet.

Lemma scan_all_quiet fuel n i l : preserves I (scan_all w fuel n i l).
Proof. revert i l. induction n as [|n IH]; intros i l; simpl; quiet. Qed.

Lemma clean_up_threads_quiet fuel c : preserves I (clean_up_threads w fuel c).
Proof. unfold clean_up_threads, join_waiter. quiet. Qed.

Hint Resolve spawn_waiters_quiet scan_all_quiet clean_up_threads_quiet : quiet.

Section Coordinator.

Context `{!LatchQuiet quiet} `{!IdxFrame I} `{!IdxQuiet quiet} (fuel : nat)
  (p_events : list (option nat)) (wait_all : bool) (p_time : option Z)
  (p_idx : bool).

Lemma scan_any_quiet n i l :
  preserves I (scan_any w fuel p_events p_idx n i l).
Proof. revert i l. induction n as [|n IH]; intros i l; simpl; quiet. Qed.
Hint Resolve scan_any_quiet : quiet.

Lemma scan_quiet c l : preserves I (scan w fuel p_events wait_all p_idx c l).
Proof. unfold scan. quiet. Qed.
Hint Resolve scan_quiet : quiet.

Lemma wait_loop_quiet turns c l :
  preserves I (wait_loop w fuel p_events wait_all p_time p_idx turns c l).
Proof. revert l. induction turns as [|turns IH]; intros l; simpl; quiet. Qed.
Hint Resolve wait_loop_quiet : quiet.

Lemma restart_wait_quiet rounds c l :
  preserves I (restart_wait w fuel p_events wait_all p_time p_idx rounds c l).
Proof. revert l. induction rounds as [|rounds IH]; intros l; simpl; quiet. Qed.

End Coordinator.

End QuietThread.

#[export] Hint Resolve thrd_create_quiet thrd_join_quiet spawn_waiters_quiet
  join_done_quiet scan_all_quiet clean_up_threads_quiet scan_any_quiet
  scan_quiet wait_loop_quiet restart_wait_quiet : quiet.


(** ** What the call acquires and releases *)

Lemma hoare_step_quiet {A B} pre res (c : M A) (k : A -> M B) Q :
  preserves (logged_since is_resource pre res) c ->
  (forall a, hoare (logged_since is_resource pre res) (k a) Q) ->
  hoare (logged_since is_resource pre res) (bind c k) Q.
Proof. apply hoare_bind_inv. Qed.

Lemma hoare_step_log {B} pre res a (k : unit -> M B) Q :
  is_resource a = true ->
  hoare (logged_since is_resource pre (res ++ [a])) (k tt) Q ->
  hoare (logged_since is_resource pre res) (bind (modify (log a)) k) Q.
Proof.
  intros Ha Hk. eapply hoare_bind; [apply (log_loud is_resource pre res a Ha)|].
  intros []. exact Hk.
Qed.

(** ** A wait_any takes one signal *)

Section TakesOne.

Context (w : world) (fuel : nat) (arr : list (option nat))
  (p_time : option Z) (pre : list (tid * action)).

Lemma hoare_halt_bind {A B} (P : state -> Prop) e (k : A -> M B) Q :
  hoare P (bind (halt e) k) Q.
Proof. intros s _. exact Logic.I. Qed.

Lemma hoare_ret_bind {A B} (P : state -> Prop) (x : A) (k : A -> M B) Q :
  hoare P (k x) Q -> hoare P (bind (ret x) k) Q.
Proof. intros H s Hs. exact (H s Hs). Qed.

Lemma take_signaled_one i ok :
  ok ->
  hoare (logged_since is_latch_store pre []) (take_signaled w arr true i)
    (fun _ => took_at_most_one arr pre ok).
Proof.
  intros Hok. unfold take_signaled, store_idx.
  eapply hoare_bind with (R := fun _ => at_idx i pre []).
  { eapply hoare_bind with (R := fun _ => at_idx i pre []).
    - apply hoare_modify. intros s Hs. split; [reflexivity|exact Hs].
    - intros _. as_pres. quiet. }
  intros _. unfold load_p_events.
  destruct (arr !! i) as [po|] eqn:Ha; [|apply hoare_halt_bind].
  assert (Hleft : forall s, at_idx i pre [] s -> took_at_most_one arr pre ok s).
  { intros s [_ Hs]. left. exact Hs. }
  apply hoare_ret_bind.
  destruct po as [p|]; [|apply hoare_halt_bind].
  apply hoare_ret_bind.
  apply hoare_bind_inv; [quiet|intros e].
  destruct (negb (is_manual_reset e)); [|apply hoare_ret; exact Hleft].
  apply hoare_bind_inv; [quiet|intros ts].
  destruct (is_success ts); [|apply hoare_ret; exact Hleft].
  eapply hoare_bind with (R := fun _ => at_idx i pre [A_set_signaled p false]).
  { unfold store_signaled.
    apply hoare_bind_inv; [quiet|intros ?].
    apply hoare_bind_inv; [quiet|intros ?].
    apply hoare_modify. intros s [Hi Hs]. split; [exact Hi|].
    apply (log_loud is_latch_store pre [] (A_set_signaled p false) eq_refl s Hs). }
  intros _.
  apply hoare_bind_inv; [quiet|intros ?].
  apply hoare_ret. intros s [Hi Hs]. right. split; [exact Hok|].
  exists p. rewrite Hi. auto.
Qed.

Lemma join_done_next i wt l :
  no_failure l ->
  hoare (logged_since is_latch_store pre []) (join_done w fuel i wt l)
    (fun r s => logged_since is_latch_store pre [] s /\ (fst r = Next -> no_failure (snd r))).
Proof.
  intros Hl. unfold join_done.
  destruct (joinable wt); [|apply hoare_ret; auto].
  apply hoare_bind_inv; [quiet|intros r].
  apply hoare_bind_inv; [quiet|intros ?].
  destruct (negb (is_success (fst r))) eqn:Hs;
    [apply hoare_ret; intros s Hs0; split; [exact Hs0|discriminate]|].
  destruct (negb (snd r =? 0)%Z) eqn:Hz;
    [apply hoare_ret; intros s Hs0; split; [exact Hs0|discriminate]|].
  apply hoare_ret. intros s Hs0. split; [exact Hs0|]. intros _. split; simpl.
  - apply negb_eqb_zero_false. exact Hz.
  - apply negb_is_success_false. exact Hs.
Qed.

Lemma scan_any_one n i l :
  no_failure l ->
  hoare (logged_since is_latch_store pre []) (scan_any w fuel arr true n i l)
    (fun r s => match fst r with
                | Next => logged_since is_latch_store pre [] s /\ no_failure (snd r)
                | Goto_clean_up_threads =>
                    took_at_most_one arr pre (no_failure (snd r)) s
                end).
Proof.
  revert i l. induction n as [|n IH]; intros i l Hl; simpl.
  - apply hoare_ret. simpl. auto.
  - apply hoare_bind_inv; [quiet|intros wt].
    destruct (done wt); [|apply IH; exact Hl].
    eapply hoare_bind; [apply join_done_next; exact Hl|].
    intros [f l']; cbv beta. apply hoare_pure_pre; simpl; intros Hl'.
    destruct f.
    + eapply hoare_bind; [apply (take_signaled_one i (no_failure l')); auto|].
      intros ?. apply hoare_ret. simpl. auto.
    + apply hoare_ret. simpl. intros s Hs. left. exact Hs.
Qed.

Lemma wait_loop_one turns c l :
  no_failure l ->
  hoare (logged_since is_latch_store pre []) (wait_loop w fuel arr false p_time true turns c l)
    (fun l' => took_at_most_one arr pre (no_failure l')).
Proof.
  revert l. induction turns as [|turns IH]; intros l Hl; simpl.
  all: eapply hoare_bind; [apply scan_any_one; exact Hl|].
  all: intros [f l']; cbv beta; simpl.
  all: destruct f; simpl; [|apply hoare_ret; auto].
  all: apply hoare_pure_pre; intros Hl'.
  all: apply hoare_bind_inv; [quiet|intros ts].
  all: destruct (is_success ts) eqn:Hts;
    [|apply hoare_ret; intros s Hs; left; exact Hs].
  - apply hoare_halt.
  - apply IH. split; simpl; [apply Hl'|apply is_success_true; exact Hts].
Qed.

Lemma restart_wait_one rounds c l :
  no_failure l ->
  hoare (logged_since is_latch_store pre []) (restart_wait w fuel arr false p_time true rounds c l)
    (fun l' => took_at_most_one arr pre (no_failure l')).
Proof.
  intros Hl.
  assert (H : hoare (logged_since is_latch_store pre [])
                (created <- spawn_waiters w fuel arr c 0;;
                 if negb (is_success created)
                 then ret (Locals (err l) created (all_signaled l))
                 else
                   CHECK_THRD_ERR (mtx_lock w O_wait_info);;
                   l0 <- (if negb (is_success created)
                          then ret (Locals (err l) created (all_signaled l))
                          else wait_loop w fuel arr false p_time true fuel c
                                 (Locals (err l) created (all_signaled l)));;
                   clean_up_threads w fuel c;; ret l0)
                (fun l' => took_at_most_one arr pre (no_failure l'))).
  { apply hoare_bind_inv; [quiet|intros created].
    destruct (is_success created) eqn:Hc; simpl;
      [|apply hoare_ret; intros s Hs; left; exact Hs].
    apply hoare_bind_inv; [quiet|intros ?].
    eapply hoare_bind.
    { apply wait_loop_one. split; simpl; [apply Hl|].
      apply is_success_true. exact Hc. }
    intros l'; cbv beta.
    apply hoare_bind_inv; [quiet|intros ?]. apply hoare_ret. auto. }
  destruct rounds; exact H.
Qed.

End TakesOne.

(** ** Who writes what in the waiters *)


#[export] Instance waiters_kept_frame i ws : Frame (waiters_kept i ws).
Proof. split; intros; assumption. Qed.

Lemma waiters_kept_refl i s : waiters_kept i (waiters s) s.
Proof.
  split; [reflexivity|]. intros j wt Hj. exists wt. split; [exact Hj|].
  unfold waiter_kept. repeat split; auto.
Qed.

Lemma store_waiter_kept i ws f :
  (forall wt, p_event (f wt) = p_event wt /\ joinable (f wt) = joinable wt
              /\ canceled (f wt) = canceled wt
              /\ (done wt = true -> done (f wt) = true)
              /\ (thrd wt <> thrd_none -> thrd (f wt) <> thrd_none)) ->
  preserves (waiters_kept i ws) (store_waiter i f).
Proof.
  intros Hf. unfold store_waiter. apply preserves_bind; [pres|intros _].
  apply preserves_modify. intros s [Hl Hs]. split.
  { simpl. rewrite length_alter. exact Hl. }
  intros j wt Hj. destruct (Hs j wt Hj) as (wt' & Hw' & Hk). simpl.
  destruct (decide (i = j)) as [<-|Hne].
  - rewrite list_lookup_alter_eq, Hw'. simpl. eexists. split; [reflexivity|].
    destruct Hk as (H1 & H2 & H3 & H4 & H5 & H6).
    destruct (Hf wt') as (F1 & F2 & F3 & F4 & F5).
    unfold waiter_kept. rewrite F1, F2, F3.
    repeat (split; [assumption|]). split; [auto|]. split; [auto|].
    intros Hx. congruence.
  - rewrite list_lookup_alter_ne by exact Hne. eauto.
Qed.

Section ProxyKept.

Context (w : world) (i : nat) (ws : list _event_waiter_t).

Lemma _event_wait_helper_finish_kept ts sig :
  preserves (waiters_kept i ws) (_event_wait_helper_finish w i ts sig).
Proof.
  unfold _event_wait_helper_finish, store_done.
  apply preserves_bind; [pres|intros ?].
  apply preserves_bind.
  { apply preserves_bind; [|intros ?; pres].
    apply store_waiter_kept. intros wt. simpl. repeat split; auto; discriminate. }
  intros ?.
  apply preserves_bind; [pres|intros ?].
  apply preserves_bind; [pres|intros ?].
  apply store_waiter_kept. intros wt. simpl. repeat split; auto; discriminate.
Qed.

Lemma _event_wait_helper_unlock_kept p ts sig :
  preserves (waiters_kept i ws) (_event_wait_helper_unlock w i p ts sig).
Proof.
  unfold _event_wait_helper_unlock. apply preserves_bind; [pres|intros ?].
  apply _event_wait_helper_finish_kept.
Qed.

Lemma _event_wait_helper_sleep_kept p :
  preserves (waiters_kept i ws) (_event_wait_helper_sleep i p).
Proof.
  unfold _event_wait_helper_sleep. apply preserves_bind; [pres|intros ?].
  apply store_waiter_kept. intros wt. simpl. repeat split; auto; discriminate.
Qed.

Lemma _event_wait_helper_wake_kept p :
  preserves (waiters_kept i ws) (_event_wait_helper_wake w i p).
Proof.
  unfold _event_wait_helper_wake.
  apply preserves_bind; [pres|intros ts].
  apply preserves_bind; [pres|intros ?].
  apply preserves_bind; [pres|intros ?].
  destruct (is_success ts); [|apply _event_wait_helper_unlock_kept].
  apply preserves_bind; [pres|intros ?].
  apply preserves_bind; [pres|intros wt].
  apply preserves_bind; [pres|intros ?].
  destruct (canceled wt); [apply _event_wait_helper_unlock_kept|].
  apply preserves_bind; [pres|intros e].
  destruct (signaled e);
    [apply _event_wait_helper_unlock_kept
    |apply _event_wait_helper_sleep_kept].
Qed.

Lemma _event_wait_helper_start_kept p :
  preserves (waiters_kept i ws) (_event_wait_helper_start w i p).
Proof.
  unfold _event_wait_helper_start.
  apply preserves_bind; [pres|intros ts].
  destruct (is_success ts); [|apply _event_wait_helper_finish_kept].
  apply preserves_bind; [pres|intros e].
  destruct (signaled e);
    [apply _event_wait_helper_unlock_kept
    |apply _event_wait_helper_sleep_kept].
Qed.

Lemma _event_wait_helper_kept :
  preserves (waiters_kept i ws) (_event_wait_helper w i).
Proof.
  unfold _event_wait_helper. apply preserves_bind; [pres|intros s].
  destruct (waiters s !! i) as [wt|]; [|pres].
  destruct (thrd wt); try solve [pres].
  all: apply preserves_bind; [pres|intros p].
  all: destruct (mtx_of (O_event p) s) as [held|]; [|pres].
  all: destruct (held || wait_info_mtx s); [pres|].
  all: apply preserves_bind; [pres|intros ?].
  all: apply preserves_bind; [|intros ?; pres].
  - apply _event_wait_helper_start_kept.
  - apply _event_wait_helper_wake_kept.
Qed.

End ProxyKept.

#[export] Instance spawned_below_frame arr k : Frame (spawned_below arr k).
Proof. split; intros; assumption. Qed.

#[export] Instance spawned_below_env w arr k :
  EnvFrame w (spawned_below arr k).
Proof.
  split; [typeclasses eauto|]. intros i s Hs.
  pose proof (_event_wait_helper_kept w i (waiters s) s
                (waiters_kept_refl i s)) as Hk.
  destruct (_event_wait_helper w i s) as [[[]|e] s']; [|exact Logic.I].
  intros j Hj. destruct (Hs j Hj) as (wt & Hw & Ha & H1 & H2 & H3).
  destruct Hk as [_ Hk]. destruct (Hk j wt Hw) as (wt' & Hw' & K).
  destruct K as (K1 & K2 & K3 & _ & K5 & _).
  exists wt'. rewrite K1, K2, K3.
  split; [exact Hw'|]. split; [exact Ha|]. split; [exact H1|].
  split; [exact H2|]. apply K5. exact H3.
Qed.

Lemma store_waiter_inv i f s s' :
  store_waiter i f s = (Ok tt, s') ->
  exists wt, waiters s !! i = Some wt /\ s' = set_waiters (alter f i) s.
Proof.
  unfold store_waiter. intros H.
  apply bind_inv in H as (wt & s1 & Hw & H).
  apply load_waiter_inv in Hw as [-> Hw]. injection H as <-. eauto.
Qed.

Lemma spawn_waiters_binds w fuel arr n i s r s' :
  spawn_waiters w fuel arr n i s = (Ok r, s') ->
  is_success r = true ->
  spawned_below arr i s -> spawned_below arr (i + n) s'.
Proof.
  revert i s. induction n as [|n IH]; intros i s; simpl.
  - intros [= <- <-] _ Hs. replace (i + 0) with i by lia. exact Hs.
  - intros H Hr Hs.
    apply bind_inv in H as (po & sa & Hp & H).
    unfold load_p_events in Hp. destruct (arr !! i) as [po'|] eqn:Ha;
      [|discriminate]. injection Hp as -> <-.
    apply bind_inv in H as ([] & s1 & H1 & H).
    apply store_waiter_inv in H1 as (wt & Hw & ->).
    apply bind_inv in H as ([] & s2 & H2 & H).
    unfold store_canceled in H2.
    apply bind_inv in H2 as ([] & s2' & H2 & Hl2). injection Hl2 as <-.
    apply store_waiter_inv in H2 as (wt2 & Hw2 & ->).
    apply bind_inv in H as ([] & s3 & H3 & H).
    unfold store_done in H3.
    apply bind_inv in H3 as ([] & s3' & H3 & Hl3). injection Hl3 as <-.
    apply store_waiter_inv in H3 as (wt3 & Hw3 & ->).
    apply bind_inv in H as (ts & s4 & Hc & H).
    destruct (is_success ts) eqn:Hts.
    2: { apply bind_inv in H as ([] & s5 & _ & H). injection H as <- _.
         congruence. }
    replace (i + S n) with (S i + n) by lia.
    apply (IH _ _ H Hr). clear H IH.
    unfold thrd_create in Hc.
    apply bind_inv in Hc as (ts' & s5 & Hn & Hc).
    unfold next_status in Hn. injection Hn as Hts' <-.
    destruct (is_success ts') eqn:Hp.
    2: { apply bind_inv in Hc as ([] & s6 & _ & Hc).
         apply bind_inv in Hc as ([] & s7 & _ & Hc).
         apply bind_inv in Hc as ([] & s8 & _ & Hc).
         injection Hc as <- _. congruence. }
    apply bind_inv in Hc as ([] & s6 & H4 & Hc).
    apply store_waiter_inv in H4 as (wt4 & Hw4 & ->).
    apply bind_inv in Hc as ([] & s7 & Hl & Hc). injection Hl as <-.
    apply bind_inv in Hc as ([] & s8 & Hy & Hc). injection Hc as _ <-.
    match type of Hy with yield w ?s0 = _ =>
      pose proof (yield_frame w (spawned_below arr (S i)) s0) as Hyf
    end.
    rewrite Hy in Hyf. apply Hyf. clear Hyf Hy.
    intros j Hj. simpl.
    destruct (decide (j = i)) as [->|Hne].
    + rewrite !list_lookup_alter_eq, Hw. simpl. eexists.
      split; [reflexivity|]. simpl. repeat split; auto; discriminate.
    + rewrite !list_lookup_alter_ne by congruence. apply Hs. lia.
Qed.

(** ** The threads the call creates and joins *)


Lemma thread_after_snoc i tr x :
  thread_after i (tr ++ [x]) = thread_step i (thread_after i tr) (snd x).
Proof.
  unfold thread_after. rewrite map_app, fold_left_app. reflexivity.
Qed.

Lemma thread_step_quiet i st a :
  is_thread_event a = false -> thread_step i st a = st.
Proof.
  destruct a; simpl; try reflexivity; intros H; try discriminate.
  rewrite H, andb_false_r. reflexivity.
Qed.

#[export] Instance threads_since_frame pre O :
  LogFrame (fun a => negb (is_thread_event a)) (threads_since pre O).
Proof.
  split; intros; try assumption.
  destruct H0 as (rest & Ht & Hr). exists (rest ++ [(self s, a)]).
  split; [simpl; rewrite Ht, app_assoc; reflexivity|].
  intros i. rewrite thread_after_snoc, Hr. simpl.
  apply thread_step_quiet. destruct (is_thread_event a);
    [discriminate|reflexivity].
Qed.

#[export] Instance threads_since_idx pre O : IdxFrame (threads_since pre O).
Proof. intros n s H. exact H. Qed.

#[export] Instance is_thread_event_sync :
  SyncQuiet (fun a => negb (is_thread_event a)).
Proof. intros a Ha. destruct a; try discriminate; reflexivity. Qed.
#[export] Instance is_thread_event_latch :
  LatchQuiet (fun a => negb (is_thread_event a)).
Proof. intros p b. reflexivity. Qed.
#[export] Instance is_thread_event_idx :
  IdxQuiet (fun a => negb (is_thread_event a)).
Proof. intros n. reflexivity. Qed.

#[export] Instance joinables_frame J : Frame (joinables J).
Proof. split; intros; assumption. Qed.

Lemma threads_since_ext pre O O' s :
  (forall i, O i = O' i) -> threads_since pre O s -> threads_since pre O' s.
Proof.
  intros HO (rest & Ht & Hr). exists rest. split; [exact Ht|].
  intros i. rewrite Hr, HO. reflexivity.
Qed.

(** A store to a waiter that keeps its [joinable]. *)
Lemma store_waiter_joinables J i f :
  (forall wt, joinable (f wt) = joinable wt) ->
  preserves (joinables J) (store_waiter i f).
Proof.
  intros Hf. unfold store_waiter. apply preserves_bind; [pres|intros _].
  apply preserves_modify. intros s Hs. unfold joinables, jmap in *. simpl.
  rewrite fmap_alter_same; [exact Hs|exact Hf].
Qed.

Lemma store_canceled_joinables J i b :
  preserves (joinables J) (store_canceled i b).
Proof.
  unfold store_canceled. apply preserves_bind; [|intros ?; pres].
  apply store_waiter_joinables. reflexivity.
Qed.

Lemma store_done_joinables J i b : preserves (joinables J) (store_done i b).
Proof.
  unfold store_done. apply preserves_bind; [|intros ?; pres].
  apply store_waiter_joinables. reflexivity.
Qed.

#[export] Instance joinables_env w J : EnvFrame w (joinables J).
Proof.
  split; [typeclasses eauto|]. intros i s Hs.
  pose proof (_event_wait_helper_kept w i (waiters s) s
                (waiters_kept_refl i s)) as Hk.
  destruct (_event_wait_helper w i s) as [[[]|e] s']; [|exact Logic.I].
  unfold joinables, jmap in *. rewrite <- Hs. destruct Hk as [Hl Hk].
  apply list_eq. intros j. rewrite !list_lookup_fmap.
  destruct (waiters s !! j) as [wt|] eqn:Hw.
  - destruct (Hk j wt Hw) as (wt' & Hw' & _ & K2 & _).
    rewrite Hw'. simpl. rewrite K2. reflexivity.
  - apply lookup_ge_None in Hw. rewrite <- Hl in Hw.
    apply lookup_ge_None in Hw. rewrite Hw. reflexivity.
Qed.

(** What keeps the thread events and the [joinable] flags keeps what is
    said of both. *)
Lemma tracked_keep {A} pre (F : list bool -> nat -> bool)
    (G : list bool -> Prop) (c : M A) :
  (forall O, preserves (threads_since pre O) c) ->
  (forall J, preserves (joinables J) c) ->
  preserves (fun s => G (jmap s) /\ threads_since pre (F (jmap s)) s) c.
Proof.
  intros H1 H2 s [HG Hs].
  specialize (H1 (F (jmap s)) s Hs). specialize (H2 (jmap s) s eq_refl).
  destruct (c s) as [[a|e] s']; [|exact Logic.I].
  unfold joinables in H2. rewrite H2. auto.
Qed.

Lemma owed_keep {A} lo hi pre (c : M A) :
  (forall O, preserves (threads_since pre O) c) ->
  (forall J, preserves (joinables J) c) ->
  preserves (owed lo hi pre) c.
Proof.
  intros H1 H2 s Hs.
  pose proof (tracked_keep pre (owes lo hi) (fun _ => True) c H1 H2 s
                (conj Logic.I Hs)) as H.
  destruct (c s) as [[a|e] s']; [|exact Logic.I]. apply H.
Qed.

Lemma owed_at_keep {A} lo hi k pre (c : M A) :
  (forall O, preserves (threads_since pre O) c) ->
  (forall J, preserves (joinables J) c) ->
  preserves (owed_at lo hi k pre) c.
Proof.
  intros H1 H2.
  apply (tracked_keep pre (owes lo hi) (fun J => J !! k = Some true) c H1 H2).
Qed.

Lemma paid_keep {A} lo hi k pre (c : M A) :
  (forall O, preserves (threads_since pre O) c) ->
  (forall J, preserves (joinables J) c) ->
  preserves (paid lo hi k pre) c.
Proof.
  intros H1 H2 s Hs.
  pose proof (tracked_keep pre (owes_but lo hi k) (fun _ => True) c H1 H2 s
                (conj Logic.I Hs)) as H.
  destruct (c s) as [[a|e] s']; [|exact Logic.I]. apply H.
Qed.

Lemma cancel_waiter_joinables w J i :
  preserves (joinables J) (cancel_waiter w i).
Proof.
  unfold cancel_waiter. apply preserves_bind; [pres|intros wt].
  destruct (negb (done wt)); [|pres].
  apply preserves_bind; [pres|intros p].
  apply preserves_bind; [pres|intros ?].
  apply preserves_bind; [apply store_canceled_joinables|intros ?]. pres.
Qed.

Lemma take_signaled_joinables w arr p_idx J i :
  preserves (joinables J) (take_signaled w arr p_idx i).
Proof.
  unfold take_signaled. apply preserves_bind; [|intros ?; pres].
  unfold store_idx. destruct p_idx; [|pres].
  apply preserves_bind; [|intros ?; pres].
  apply preserves_modify. intros s Hs. exact Hs.
Qed.

Lemma owes_outside lo hi J J' i :
  (forall j, lo <= j < hi -> J' !! j = J !! j) ->
  owes lo hi J' i = owes lo hi J i.
Proof.
  intros H. unfold owes.
  destruct (Nat.leb_spec lo i), (Nat.ltb_spec i hi); simpl; try reflexivity.
  rewrite H by lia. reflexivity.
Qed.

Lemma owed_empty lo hi pre s :
  hi <= lo -> owed lo hi pre s <-> threads_since pre (fun _ => false) s.
Proof.
  intros Hle.
  assert (H : forall i, owes lo hi (jmap s) i = false).
  { intros i. unfold owes.
    destruct (Nat.leb_spec lo i), (Nat.ltb_spec i hi); simpl; try reflexivity.
    lia. }
  split; apply threads_since_ext; intros i; rewrite H; reflexivity.
Qed.

Lemma paid_first lo hi pre s : paid lo hi lo pre s -> owed (S lo) hi pre s.
Proof.
  assert (E : (S lo <=? lo) = false) by (apply Nat.leb_gt; lia).
  apply threads_since_ext. intros i. unfold owes_but, owes.
  destruct (Nat.eqb_spec i lo) as [->|Hne].
  - rewrite E. reflexivity.
  - destruct (Nat.leb_spec lo i), (Nat.leb_spec (S lo) i);
      try reflexivity; lia.
Qed.

Lemma owed_skip lo hi pre s :
  jmap s !! lo = Some false -> owed lo hi pre s -> owed (S lo) hi pre s.
Proof.
  assert (E : (S lo <=? lo) = false) by (apply Nat.leb_gt; lia).
  intros Hj. apply threads_since_ext. intros i. unfold owes.
  destruct (Nat.eqb_spec i lo) as [->|Hne].
  - rewrite Hj, E. simpl. apply andb_false_r.
  - destruct (Nat.leb_spec lo i), (Nat.leb_spec (S lo) i);
      try reflexivity; lia.
Qed.

Section Threads.

Context (w : world) (fuel : nat) (arr : list (option nat)) (wait_all : bool)
  (p_time : option Z) (p_idx : bool) (pre : list (tid * action)).

(** A join on a waiter that has one outstanding. *)
Lemma thrd_join_paid (G : list bool -> Prop) lo hi k turns :
  lo <= k < hi ->
  hoare (fun s => (G (jmap s) /\ jmap s !! k = Some true)
                  /\ threads_since pre (owes lo hi (jmap s)) s)
    (thrd_join w turns k)
    (fun _ s => G (jmap s) /\ paid lo hi k pre s).
Proof.
  intros Hk. induction turns as [|turns IH]; simpl.
  all: eapply hoare_bind;
    [apply (tracked_keep pre (owes lo hi)
              (fun J => G J /\ J !! k = Some true));
     [intros O; quiet|intros J; pres]|].
  all: intros wt; destruct (thrd wt) eqn:Ht; try apply hoare_halt.
  1,4: eapply hoare_bind;
    [apply (tracked_keep pre (owes lo hi)
              (fun J => G J /\ J !! k = Some true));
     [intros O; quiet|intros J; pres]|];
    intros r; eapply hoare_bind; [|intros ?; apply hoare_ret; intros s H; exact H];
    apply hoare_modify; intros s [[HG Hj] (rest & Htr & Hr)];
    (split; [exact HG|]);
    exists (rest ++ [(self s, A_thrd_join k r)]);
    (split; [simpl; rewrite Htr, app_assoc; reflexivity|]);
    intros i; rewrite thread_after_snoc, Hr; simpl;
    change (jmap (log (A_thrd_join k r) s)) with (jmap s);
    unfold owes_but;
    destruct (Nat.eqb_spec k i) as [<-|Hne];
    [rewrite Nat.eqb_refl; simpl; unfold owes; rewrite Hj;
     replace (lo <=? k) with true by (symmetry; apply Nat.leb_le; lia);
     replace (k <? hi) with true by (symmetry; apply Nat.ltb_lt; lia);
     reflexivity
    |replace (i =? k) with false by (symmetry; apply Nat.eqb_neq; lia);
     reflexivity].
  all: eapply hoare_bind;
    [apply (tracked_keep pre (owes lo hi)
              (fun J => G J /\ J !! k = Some true));
     [intros O; quiet|intros J; pres]|];
    intros ?; exact IH.
Qed.

(** A store to waiter [k] that clears [joinable], after its join. *)
Lemma store_joinable_false lo hi k :
  hoare (paid lo hi k pre) (store_waiter k (with_joinable false))
    (fun _ => owed lo hi pre).
Proof.
  unfold store_waiter.
  eapply hoare_bind with (R := fun _ s => paid lo hi k pre s /\ True).
  { unfold load_waiter. intros s Hs. unfold bind, get.
    destruct (waiters s !! k); simpl; auto. }
  intros wt. apply hoare_modify. intros s [Hs _]. unfold owed.
  apply (lg_waiters (I := threads_since pre _)). revert Hs.
  apply threads_since_ext. intros i. unfold owes_but, owes, jmap. simpl.
  rewrite !list_lookup_fmap.
  destruct (Nat.eqb_spec i k) as [->|Hne].
  - rewrite list_lookup_alter_eq.
    destruct (waiters s !! k); simpl; rewrite ?andb_false_r; reflexivity.
  - rewrite list_lookup_alter_ne by congruence. reflexivity.
Qed.

(** The [joinable] of a waiter just loaded. *)
Lemma load_waiter_joinable (P : state -> Prop) i :
  hoare P (load_waiter i)
    (fun wt s => jmap s !! i = Some (joinable wt) /\ P s).
Proof.
  unfold load_waiter. intros s Hs. unfold bind, get.
  destruct (waiters s !! i) as [wt|] eqn:E; simpl; [|exact Logic.I].
  split; [|exact Hs]. unfold jmap. rewrite list_lookup_fmap, E. reflexivity.
Qed.

Lemma join_done_owed c i wt l :
  i < c ->
  hoare (fun s => jmap s !! i = Some (joinable wt) /\ owed 0 c pre s)
    (join_done w fuel i wt l) (fun _ => owed 0 c pre).
Proof.
  intros Hi. unfold join_done. destruct (joinable wt).
  - eapply hoare_bind.
    { eapply hoare_conseq;
        [apply (thrd_join_paid (fun _ => True) 0 c i fuel); lia| |].
      - intros s [Hj Hs]. split; [split; [exact Logic.I|exact Hj]|exact Hs].
      - intros r s [_ Hs]. exact Hs. }
    intros r. eapply hoare_bind; [apply store_joinable_false|intros ?].
    as_pres. pres.
  - apply hoare_ret. intros s [_ Hs]. exact Hs.
Qed.

Lemma scan_all_owed c n i l :
  i + n <= c -> preserves (owed 0 c pre) (scan_all w fuel n i l).
Proof.
  revert i l. induction n as [|n IH]; intros i l Hi; simpl; [pres|].
  eapply hoare_bind; [apply load_waiter_joinable|intros wt; cbv beta].
  destruct (done wt).
  - eapply hoare_bind; [apply join_done_owed; lia|intros r].
    as_pres. destruct (fst r); [apply IH; lia|pres].
  - eapply hoare_conseq; [apply (IH (S i)); lia|intros s [_ Hs]; exact Hs|auto].
Qed.

Lemma scan_any_owed c n i l :
  i + n <= c -> preserves (owed 0 c pre) (scan_any w fuel arr p_idx n i l).
Proof.
  revert i l. induction n as [|n IH]; intros i l Hi; simpl; [pres|].
  eapply hoare_bind; [apply load_waiter_joinable|intros wt; cbv beta].
  destruct (done wt).
  - eapply hoare_bind; [apply join_done_owed; lia|intros r].
    as_pres. destruct (fst r); [|pres].
    apply preserves_bind; [|intros ?; pres].
    apply owed_keep; [intros O; quiet|intros J; apply take_signaled_joinables].
  - eapply hoare_conseq; [apply (IH (S i)); lia|intros s [_ Hs]; exact Hs|auto].
Qed.

Lemma wait_loop_owed turns c l :
  preserves (owed 0 c pre)
    (wait_loop w fuel arr wait_all p_time p_idx turns c l).
Proof.
  revert l. induction turns as [|turns IH]; intros l; simpl.
  all: apply preserves_bind.
  1,3: unfold scan; destruct wait_all; [|apply scan_any_owed; lia];
    (apply preserves_bind; [apply scan_all_owed; lia|intros r]);
    (destruct (fst r); [|pres]);
    (destruct (all_signaled (snd r)); [|pres]);
    (apply preserves_bind; [|intros ?; pres]);
    apply owed_keep; [intros O; quiet|intros J; pres].
  all: intros r; destruct (fst r); [|pres].
  all: apply preserves_bind;
    [apply owed_keep; [intros O; quiet|intros J; pres]|intros ts].
  all: destruct (is_success ts); [|pres].
  - pres.
  - apply IH.
Qed.

Lemma join_waiter_owed c i :
  i < c ->
  hoare (owed i c pre) (join_waiter w fuel i) (fun _ => owed (S i) c pre).
Proof.
  intros Hi. unfold join_waiter.
  eapply hoare_bind; [apply load_waiter_joinable|intros wt; cbv beta].
  destruct (joinable wt).
  - eapply hoare_bind.
    { eapply hoare_conseq;
        [apply (thrd_join_paid (fun _ => True) i c i fuel); lia| |].
      - intros s [Hj Hs]. split; [split; [exact Logic.I|exact Hj]|exact Hs].
      - intros r s [_ Hs]. exact Hs. }
    intros r. apply hoare_ret. intros s Hs. apply paid_first. exact Hs.
  - apply hoare_ret. intros s [Hj Hs]. apply owed_skip; assumption.
Qed.

Lemma clean_up_threads_owed c :
  hoare (owed 0 c pre) (clean_up_threads w fuel c)
    (fun _ => threads_since pre (fun _ => false)).
Proof.
  unfold clean_up_threads.
  apply hoare_bind_inv.
  { apply preserves_for_loop. intros i.
    apply owed_keep; [intros O; quiet|intros J; apply cancel_waiter_joinables]. }
  intros ?. apply hoare_bind_inv.
  { apply owed_keep; [intros O; quiet|intros J; pres]. }
  intros ?. intros s Hs.
  pose proof (hoare_for_loop (fun i => owed i c pre) (join_waiter w fuel) c 0
                (fun i Hi => join_waiter_owed c i ltac:(lia)) s Hs) as H.
  destruct (for_loop c 0 _ s) as [[x|e] s']; [|exact Logic.I].
  simpl in H. apply (owed_empty c c); [lia|exact H].
Qed.

(** [thrd_create] on a waiter that is joinable and next in line. *)
Lemma thrd_create_owed (G : list bool -> Prop) i :
  hoare (fun s => (G (jmap s) /\ jmap s !! i = Some true)
                  /\ threads_since pre (owes 0 i (jmap s)) s)
    (thrd_create w i)
    (fun r s => (G (jmap s) /\ jmap s !! i = Some true)
                /\ threads_since pre
                     (owes 0 (if is_success r then S i else i) (jmap s)) s).
Proof.
  unfold thrd_create.
  eapply hoare_bind;
    [apply (tracked_keep pre (owes 0 i) (fun J => G J /\ J !! i = Some true));
     [intros O; quiet|intros J; pres]|].
  intros r.
  eapply hoare_bind;
    [apply (tracked_keep pre (owes 0 i) (fun J => G J /\ J !! i = Some true));
     [intros O; destruct (is_success r); quiet
     |intros J; destruct (is_success r); [|pres];
      apply store_waiter_joinables; reflexivity]|].
  intros ?.
  eapply hoare_bind
    with (R := fun _ s => (G (jmap s) /\ jmap s !! i = Some true)
                 /\ threads_since pre
                      (owes 0 (if is_success r then S i else i) (jmap s)) s).
  { apply hoare_modify. intros s [[HG Hj] (rest & Htr & Hr)].
    split; [split; assumption|].
    exists (rest ++ [(self s, A_thrd_create i r)]).
    split; [simpl; rewrite Htr, app_assoc; reflexivity|].
    intros k. rewrite thread_after_snoc, Hr. simpl.
    change (jmap (log (A_thrd_create i r) s)) with (jmap s).
    destruct (is_success r); [|rewrite andb_false_r; reflexivity].
    rewrite andb_true_r. unfold owes.
    destruct (Nat.eqb_spec i k) as [<-|Hne].
    - rewrite Hj. simpl.
      replace (i <? i) with false by (symmetry; apply Nat.ltb_ge; lia).
      replace (i <? S i) with true by (symmetry; apply Nat.ltb_lt; lia).
      reflexivity.
    - f_equal. f_equal. f_equal.
      destruct (Nat.ltb_spec k i), (Nat.ltb_spec k (S i)); try reflexivity;
        lia. }
  intros ?.
  eapply hoare_bind;
    [apply (tracked_keep pre (owes 0 (if is_success r then S i else i))
              (fun J => G J /\ J !! i = Some true));
     [intros O; destruct (is_success r); quiet
     |intros J; destruct (is_success r); pres]|].
  intros ?. apply hoare_ret. intros s H. exact H.
Qed.

Lemma join_spawned_owed i :
  hoare (fun s => (forall j, j < i -> jmap s !! j = Some true)
                  /\ threads_since pre (owes 0 i (jmap s)) s)
    (join_spawned w fuel i)
    (fun _ => threads_since pre (fun _ => false)).
Proof.
  unfold join_spawned. intros s Hs.
  pose proof (hoare_for_loop
                (fun j s => (forall k, k < i -> jmap s !! k = Some true)
                            /\ threads_since pre (owes j i (jmap s)) s)
                (fun j => _ <- thrd_join w fuel j;; ret tt) i 0) as H.
  assert (Hbody : forall j, 0 <= j < 0 + i ->
            hoare (fun s => (forall k, k < i -> jmap s !! k = Some true)
                            /\ threads_since pre (owes j i (jmap s)) s)
              (_ <- thrd_join w fuel j;; ret tt)
              (fun _ s => (forall k, k < i -> jmap s !! k = Some true)
                          /\ threads_since pre (owes (S j) i (jmap s)) s)).
  { intros j Hj. eapply hoare_bind.
    { eapply hoare_conseq;
        [apply (thrd_join_paid
                  (fun J => forall k, k < i -> J !! k = Some true) j i j fuel);
         lia| |].
      - intros s0 [HG Hs0]. split; [split; [exact HG|apply HG; lia]|exact Hs0].
      - intros r s0 H0. exact H0. }
    intros ?. apply hoare_ret. intros s0 [HG Hs0].
    split; [exact HG|]. apply paid_first. exact Hs0. }
  specialize (H Hbody s Hs).
  destruct (for_loop i 0 _ s) as [[a|e] s']; [|exact Logic.I].
  simpl in H. destruct H as [_ H]. apply (owed_empty i i); [lia|exact H].
Qed.

Lemma spawn_waiters_owed n i :
  hoare (fun s => (forall j, j < i -> jmap s !! j = Some true)
                  /\ threads_since pre (owes 0 i (jmap s)) s)
    (spawn_waiters w fuel arr n i)
    (fun r s => if is_success r then owed 0 (i + n) pre s
                else threads_since pre (fun _ => false) s).
Proof.
  revert i. induction n as [|n IH]; intros i; simpl.
  - apply hoare_ret. intros s [_ Hs]. replace (i + 0) with i by lia. exact Hs.
  - eapply hoare_bind;
      [apply (tracked_keep pre (owes 0 i)
                (fun J => forall j, j < i -> J !! j = Some true));
       [intros O; quiet|intros J; pres]|].
    intros p.
    eapply hoare_bind
      with (R := fun _ s =>
                   ((forall j, j < i -> jmap s !! j = Some true)
                    /\ jmap s !! i = Some true)
                   /\ threads_since pre (owes 0 i (jmap s)) s).
    { unfold store_waiter.
      eapply hoare_bind; [apply load_waiter_joinable|intros wt; cbv beta].
      apply hoare_modify. intros s [Hi [HG Hs]].
      assert (Hlook : forall j, j <> i ->
                jmap (set_waiters
                        (alter (fun x => Waiter (thrd x) p true (canceled x)
                                           (done x)) i) s) !! j
                = jmap s !! j).
      { intros j Hj. unfold jmap. simpl. rewrite !list_lookup_fmap.
        rewrite list_lookup_alter_ne by congruence. reflexivity. }
      split; [split|].
      - intros j Hj. rewrite Hlook by lia. apply HG. exact Hj.
      - unfold jmap in *. simpl. rewrite list_lookup_fmap in *.
        rewrite list_lookup_alter_eq.
        destruct (waiters s !! i); [reflexivity|discriminate].
      - apply (lg_waiters (I := threads_since pre _)). revert Hs.
        apply threads_since_ext. intros k. symmetry. apply owes_outside.
        intros j Hj. apply Hlook. lia. }
    intros ?.
    eapply hoare_bind;
      [apply (tracked_keep pre (owes 0 i)
                (fun J => (forall j, j < i -> J !! j = Some true)
                          /\ J !! i = Some true));
       [intros O; quiet|intros J; apply store_canceled_joinables]|].
    intros ?.
    eapply hoare_bind;
      [apply (tracked_keep pre (owes 0 i)
                (fun J => (forall j, j < i -> J !! j = Some true)
                          /\ J !! i = Some true));
       [intros O; quiet|intros J; apply store_done_joinables]|].
    intros ?.
    eapply hoare_bind;
      [apply (thrd_create_owed
                (fun J => forall j, j < i -> J !! j = Some true) i)|].
    intros r; cbv beta. destruct (is_success r) eqn:Hr.
    + eapply hoare_conseq; [apply (IH (S i))| |].
      * intros s [[HG Hi] Hs]. split; [|exact Hs].
        intros j Hj. destruct (decide (j = i)) as [->|Hne];
          [exact Hi|apply HG; lia].
      * intros r' s H. replace (i + S n) with (S i + n) by lia. exact H.
    + eapply hoare_bind.
      { eapply hoare_conseq; [apply (join_spawned_owed i)| |].
        - intros s [[HG _] Hs]. split; assumption.
        - intros u s H. exact H. }
      intros ?. apply hoare_ret. intros s Hs. rewrite Hr. exact Hs.
Qed.

Lemma restart_wait_owed rounds c l :
  preserves (threads_since pre (fun _ => false))
    (restart_wait w fuel arr wait_all p_time p_idx rounds c l).
Proof.
  revert l. induction rounds as [|rounds IH]; intros l; simpl.
  all: eapply hoare_bind;
    [eapply hoare_conseq;
       [apply (spawn_waiters_owed c 0)
       |intros s Hs; split; [intros j Hj; lia|];
        apply (owed_empty 0 0); [lia|exact Hs]
       |intros r s H; exact H]|].
  all: intros created; cbv beta.
  all: destruct (is_success created) eqn:Hc; simpl;
    [|apply hoare_ret; auto].
  all: apply hoare_bind_inv;
    [apply owed_keep; [intros O; quiet|intros J; pres]|intros ?].
  all: apply hoare_bind_inv; [apply wait_loop_owed|intros l'].
  all: eapply hoare_bind; [apply clean_up_threads_owed|intros ?].
  all: destruct (wait_all && (err l' =? 0)%Z && is_success (thrd_status l')
                 && negb (all_signaled l')); [|apply hoare_ret; auto].
  - apply hoare_halt.
  - apply IH.
Qed.

End Threads.

(** ** The events of a wait_all are locked together *)

(** After a successful lock of event [p], an event whose mutex is free is
    another event, and was free before. *)
Lemma mtx_lock_free_after w p s s1 q e :
  mtx_lock w (O_event p) s = (Ok thrd_success, s1) ->
  events s1 !! q = Some e -> mtx e = false ->
  q <> p /\ events s !! q = Some e.
Proof.
  unfold mtx_lock, bind, get, mtx_of, next_status, modify, ret.
  destruct (events s !! p) as [e0|] eqn:He; simpl; [|discriminate].
  destruct (is_success (prim w (tick s))) eqn:Hr.
  - destruct (mtx e0) eqn:Hm; simpl; [discriminate|].
    intros [= _ <-]. simpl. intros Hq Hf.
    destruct (decide (q = p)) as [->|Hne].
    + rewrite list_lookup_alter_eq, He in Hq. simpl in Hq.
      injection Hq as <-. discriminate Hf.
    + rewrite list_lookup_alter_ne in Hq by congruence. auto.
  - intros [= E _]. rewrite E in Hr. discriminate.
Qed.

Section Distinct.

Context (w : world) (arr : list (option nat)).

(** The events the locking loop locked had their mutexes free when it
    started, and no two of them are the same event. *)
Lemma lock_events_distinct n locked ts s locked' ts' b s1 :
  lock_events w arr n locked ts s = (Ok (locked', ts', b), s1) ->
  (forall k, locked <= k < locked' ->
     exists p e, arr !! k = Some (Some p) /\ events s !! p = Some e
                 /\ mtx e = false)
  /\ (forall k1 k2, locked <= k1 < k2 -> k2 < locked' ->
        arr !! k1 <> arr !! k2).
Proof.
  revert locked ts s. induction n as [|n IH]; intros locked ts s; simpl.
  - intros [= <- <- <- <-]. split; intros; lia.
  - intros H.
    apply bind_inv in H as (po & sa & Hp & H).
    unfold load_p_events in Hp. destruct (arr !! locked) as [po'|] eqn:Ha;
      [|discriminate]. injection Hp as -> <-.
    apply bind_inv in H as (p & sb & Hd & H).
    destruct po as [p'|]; [|discriminate]. injection Hd as -> <-.
    apply bind_inv in H as (r & s2 & Hlock & H).
    destruct (is_success r) eqn:Hr; simpl in H.
    2: { injection H as <- <- <- <-. split; intros; lia. }
    apply is_success_true in Hr. subst r.
    apply bind_inv in H as (e1 & s3 & He1 & H).
    apply load_event_inv in He1 as [-> He1].
    destruct (signaled e1) eqn:Hsig; simpl in H.
    2: { injection H as <- <- <- <-. split; intros; lia. }
    destruct (IH _ _ _ H) as (Hfree & Hdist).
    pose proof (mtx_lock_only_consumed _ _ _ _ _ Hlock) as [_ Hfirst].
    destruct (Hfirst eq_refl) as (e0 & He0 & Hm0).
    split.
    + intros k Hk. destruct (decide (k = locked)) as [->|Hne].
      * exists p, e0. auto.
      * destruct (Hfree k ltac:(lia)) as (q & e & Hq & He & Hm).
        destruct (mtx_lock_free_after _ _ _ _ _ _ Hlock He Hm) as [_ He'].
        exists q, e. auto.
    + intros k1 k2 Hk1 Hk2. destruct (decide (k1 = locked)) as [->|Hne].
      * destruct (Hfree k2 ltac:(lia)) as (q & e & Hq & He & Hm).
        destruct (mtx_lock_free_after _ _ _ _ _ _ Hlock He Hm) as [Hqp _].
        rewrite Ha, Hq. congruence.
      * apply Hdist; lia.
Qed.

End Distinct.

(** ** The teardown returns *)


Lemma total_ret {A} (P : state -> Prop) (a : A) (Q : A -> state -> Prop) :
  (forall s, P s -> Q a s) -> total P (ret a) Q.
Proof. intros H s Hs. exists a, s. auto. Qed.

Lemma total_bind {A B} (P : state -> Prop) (R : A -> state -> Prop)
    (Q : B -> state -> Prop) (c : M A) (k : A -> M B) :
  total P c R -> (forall a, total (R a) (k a) Q) -> total P (bind c k) Q.
Proof.
  intros Hc Hk s Hs. destruct (Hc s Hs) as (a & s1 & E & Ha).
  destruct (Hk a s1 Ha) as (b & s2 & E2 & Hb).
  exists b, s2. split; [|exact Hb]. unfold bind. rewrite E. exact E2.
Qed.

Lemma total_conseq {A} (P P' : state -> Prop) (Q Q' : A -> state -> Prop)
    (c : M A) :
  total P' c Q' -> (forall s, P s -> P' s) ->
  (forall a s, Q' a s -> Q a s) -> total P c Q.
Proof.
  intros H HP HQ s Hs. destruct (H s (HP s Hs)) as (a & s' & E & Ha).
  exists a, s'. auto.
Qed.

Lemma total_for_loop (I : nat -> state -> Prop) (body : nat -> M unit) n from :
  (forall i, from <= i < from + n ->
     total (I i) (body i) (fun _ => I (S i))) ->
  total (I from) (for_loop n from body) (fun _ => I (from + n)).
Proof.
  revert from. induction n as [|n IH]; intros from H; simpl.
  - apply total_ret. intros s Hs. replace (from + 0) with from by lia. exact Hs.
  - eapply total_bind; [apply H; lia|]. intros ?.
    replace (from + S n) with (S from + n) by lia.
    apply IH. intros i Hi. apply H. lia.
Qed.

Lemma lookup_alter_at {A} (f : A -> A) (l : list A) i j x :
  l !! i = Some x ->
  alter f i l !! j = if decide (i = j) then Some (f x) else l !! j.
Proof.
  intros H. destruct (decide (i = j)) as [<-|Hne].
  - rewrite list_lookup_alter_eq, H. reflexivity.
  - apply list_lookup_alter_ne. exact Hne.
Qed.

(** One burst of a proxy, when no primitive fails and both mutexes it
    needs are free. *)
Lemma proxy_burst_run w i p wt e s :
  (forall t, prim w t = thrd_success) ->
  waiters s !! i = Some wt -> p_event wt = Some p ->
  events s !! p = Some e -> mtx e = false -> wait_info_mtx s = false ->
  exists s', _event_wait_helper w i s = (Ok tt, s')
    /\ events s' = events s /\ wait_info_mtx s' = false
    /\ length (waiters s') = length (waiters s)
    /\ forall j, waiters s' !! j
                 = if decide (i = j) then Some (burst e wt)
                   else waiters s !! j.
Proof.
  intros Hprim Hw Hp He Hm Hwi.
  destruct s as [es wm ws ix t me tr]. simpl in *. subst wm.
  destruct wt as [th pe jo ca dn]. simpl in *. subst pe.
  assert (Hev : alter (fun e => Event false (signaled e) (is_manual_reset e)) p
                  (alter (fun e => Event true (signaled e) (is_manual_reset e))
                     p es) = es)
    by (apply (lock_unlock_events p e); assumption).
  destruct th, ca, (signaled e) eqn:Hsig; unfold_helper;
    repeat (simpl; unfold_helper;
            rewrite ?list_lookup_alter_eq, ?Hw, ?He, ?Hm, ?Hprim, ?Hsig);
    simpl; rewrite ?Hev, ?length_alter;
    eexists; (split; [reflexivity|]); simpl; rewrite ?Hev, ?length_alter;
    (split; [reflexivity|]); (split; [reflexivity|]);
    (split; [reflexivity|]);
    intros j; unfold burst; simpl; rewrite ?Hsig;
    try (destruct (decide (i = j)) as [<-|Hne];
         [rewrite ?list_lookup_alter_eq, ?Hw; reflexivity
         |rewrite ?list_lookup_alter_ne by exact Hne; reflexivity]).
Qed.

Lemma burst_rank e wt :
  rank (burst e wt) <= rank wt
  /\ (canceled wt = true \/ rank wt = 0 -> rank (burst e wt) <= pred (rank wt)).
Proof.
  unfold burst, rank. destruct wt as [th pe jo ca dn]. simpl.
  destruct th, ca, (signaled e); simpl; split; try lia;
    intros [H|H]; try discriminate; lia.
Qed.

Lemma burst_ok es e wt :
  waiter_ok es wt -> waiter_ok es (burst e wt).
Proof.
  unfold waiter_ok, burst, rank. destruct wt as [th pe jo ca dn]. simpl.
  intros (Hp & Hn & Hd & Hj).
  destruct th, ca, (signaled e); simpl;
    repeat split; auto; try discriminate;
    intros H; try (specialize (Hd H)); try (specialize (Hj H));
    try discriminate; auto.
Qed.

Lemma burst_marked e wt :
  (0 < rank wt -> canceled wt = true) ->
  0 < rank (burst e wt) -> canceled (burst e wt) = true.
Proof.
  unfold burst, rank. destruct wt as [th pe jo ca dn]. simpl.
  destruct th, ca, (signaled e); simpl; intros H H'; try lia; auto;
    apply H; lia.
Qed.

Lemma burst_joinable e wt : joinable (burst e wt) = joinable wt.
Proof.
  unfold burst. destruct wt as [th pe jo ca dn]. simpl.
  destruct th, ca, (signaled e); reflexivity.
Qed.

Lemma progress_idle l s :
  (forall j wt, waiters s !! j = Some wt -> ~ In (ProxyRun j) l) ->
  progress l s s.
Proof.
  intros H. split; [reflexivity|]. intros j wt Hj. exists wt.
  repeat split; auto. intros Hin. destruct (H j wt Hj Hin).
Qed.

Section Fair.

Context (w : world) (Hprim : forall t, prim w t = thrd_success).

(** One action of the other threads, between two bursts. *)
Lemma run_env_action_progress a s :
  quiescent s /\ marked s ->
  exists s', run_env_action w a s = (Ok tt, s')
    /\ (quiescent s' /\ marked s') /\ progress [a] s s'.
Proof.
  intros HK. pose proof HK as [(Hwi & Hfree & Hok) Hmark].
  destruct a as [i|p b]; simpl.
  - destruct (waiters s !! i) as [wt|] eqn:Hw.
    2: { exists s. unfold _event_wait_helper, bind, get. rewrite Hw.
         split; [reflexivity|]. split; [exact HK|].
         apply progress_idle. intros j wt Hj [H|[]]. congruence. }
    destruct (Hok i wt Hw) as ((p & e & Hp & He) & Hn & Hd & Hj).
    destruct (proxy_burst_run w i p wt e s Hprim Hw Hp He (Hfree p e He) Hwi)
      as (s' & Hrun & Hev & Hwi' & Hlen & Hws).
    exists s'. split; [exact Hrun|]. split; [split|].
    + split; [exact Hwi'|]. split; [intros q x; rewrite Hev; apply Hfree|].
      intros j wt'. rewrite Hws, Hev. destruct (decide (i = j)) as [<-|Hne].
      * intros [= <-]. apply burst_ok. apply (Hok i wt Hw).
      * apply Hok.
    + intros j wt'. rewrite Hws. destruct (decide (i = j)) as [<-|Hne].
      * intros [= <-]. apply burst_marked. apply (Hmark i wt Hw).
      * apply Hmark.
    + split; [exact Hlen|]. intros j wt0 Hj0. rewrite Hws.
      destruct (decide (i = j)) as [<-|Hne].
      * assert (wt0 = wt) by congruence. subst wt0.
        exists (burst e wt). destruct (burst_rank e wt) as [H1 H2].
        split; [reflexivity|]. split; [exact H1|].
        split; [apply burst_joinable|]. intros _. apply H2.
        destruct (rank wt) eqn:Hr; [right; reflexivity|left].
        apply (Hmark i wt Hw). lia.
      * exists wt0. split; [exact Hj0|]. split; [lia|]. split; [reflexivity|].
        intros [H|[]]. congruence.
  - unfold bind, get. destruct (events s !! p) as [e|] eqn:He.
    2: { exists s. split; [reflexivity|]. split; [exact HK|].
         apply progress_idle. intros j wt Hj [H|[]]. discriminate. }
    rewrite (Hfree p e He). eexists. split; [reflexivity|].
    split; [split; [split; [exact Hwi|split]|exact Hmark]|].
    + intros q x. simpl. destruct (decide (p = q)) as [<-|Hne].
      * rewrite list_lookup_alter_eq, He. simpl. intros [= <-].
        apply (Hfree p e He).
      * rewrite list_lookup_alter_ne by exact Hne. apply Hfree.
    + intros j wt Hj. simpl in *.
      destruct (Hok j wt Hj) as ((q & x & Hq & Hx) & Hrest).
      split; [|exact Hrest].
      destruct (decide (p = q)) as [<-|Hne].
      * eexists p, _. split; [exact Hq|].
        rewrite list_lookup_alter_eq, He. reflexivity.
      * exists q, x. split; [exact Hq|].
        rewrite list_lookup_alter_ne by exact Hne. exact Hx.
    + split; [reflexivity|]. intros j wt Hj. exists wt. simpl.
      split; [exact Hj|]. split; [lia|]. split; [reflexivity|].
      intros [H|[]]. discriminate.
Qed.

Lemma progress_trans a l s s1 s2 :
  progress [a] s s1 -> progress l s1 s2 -> progress (a :: l) s s2.
Proof.
  intros [L1 H1] [L2 H2]. split; [congruence|].
  intros j wt Hj. destruct (H1 j wt Hj) as (wt1 & Hw1 & R1 & J1 & P1).
  destruct (H2 j wt1 Hw1) as (wt2 & Hw2 & R2 & J2 & P2).
  exists wt2. split; [exact Hw2|]. split; [lia|]. split; [congruence|].
  intros [->|Hin].
  - specialize (P1 (or_introl eq_refl)). lia.
  - specialize (P2 Hin). lia.
Qed.

Lemma run_env_progress l s :
  quiescent s /\ marked s ->
  exists s', run_env w l s = (Ok tt, s')
    /\ (quiescent s' /\ marked s') /\ progress l s s'.
Proof.
  revert s. induction l as [|a l IH]; intros s Hs; simpl.
  - exists s. split; [reflexivity|]. split; [exact Hs|].
    apply progress_idle. intros j wt _ [].
  - destruct (run_env_action_progress a s Hs) as (s1 & E1 & K1 & P1).
    destruct (IH s1 K1) as (s2 & E2 & K2 & P2).
    exists s2. split; [|split; [exact K2|]].
    + unfold bind. rewrite E1. exact E2.
    + apply (progress_trans a l s s1 s2); assumption.
Qed.

Lemma progress_weaken l s s1 s2 :
  progress l s s1 -> progress [] s1 s2 -> progress [] s s2.
Proof.
  intros [L1 H1] [L2 H2]. split; [congruence|].
  intros j wt Hj. destruct (H1 j wt Hj) as (wt1 & Hw1 & R1 & J1 & P1).
  destruct (H2 j wt1 Hw1) as (wt2 & Hw2 & R2 & J2 & P2).
  exists wt2. split; [exact Hw2|]. split; [lia|]. split; [congruence|].
  intros [].
Qed.

Lemma yield_progress s :
  quiescent s /\ marked s ->
  exists s', yield w s = (Ok tt, s')
    /\ (quiescent s' /\ marked s') /\ progress (sched w (tick s)) s s'.
Proof.
  intros HK.
  destruct (run_env_progress (sched w (tick s)) (set_tick (S (tick s)) s) HK)
    as (s' & E & K' & P).
  exists s'. split; [exact E|]. split; [exact K'|exact P].
Qed.

Lemma quiescent_log_tick a n s :
  quiescent s /\ marked s ->
  quiescent (log a (set_tick n s)) /\ marked (log a (set_tick n s)).
Proof. unfold quiescent, marked, events_free. simpl. intros H. exact H. Qed.

Lemma progress_log_tick a n s : progress [] s (log a (set_tick n s)).
Proof.
  split; [reflexivity|]. intros j wt Hj. exists wt. simpl.
  repeat split; auto. intros [].
Qed.

Lemma load_waiter_ok i s wt :
  waiters s !! i = Some wt -> load_waiter i s = (Ok wt, s).
Proof. intros H. unfold load_waiter, bind, get. rewrite H. reflexivity. Qed.

Section Join.

Context (c : nat) (Hfair : forall t i, i < c -> In (ProxyRun i) (sched w t)).

(** A join on a canceled proxy returns after at most as many rounds as
    its thread is steps away from its return. *)
Lemma thrd_join_total fuel i : forall s wt,
  i < c -> quiescent s /\ marked s -> waiters s !! i = Some wt ->
  rank wt <= fuel ->
  exists r s', thrd_join w fuel i s = (Ok r, s')
    /\ (quiescent s' /\ marked s') /\ progress [] s s'
    /\ exists wt', waiters s' !! i = Some wt' /\ rank wt' = 0.
Proof.
  induction fuel as [|fuel IH]; intros s wt Hi HK Hw Hr.
  all: pose proof HK as [(Hwi & Hfree & Hok) Hmark].
  all: destruct (Hok i wt Hw) as (_ & Hn & _).
  all: assert (Hexit : forall code, thrd wt = thrd_exit code ->
         exists r s',
           (r0 <- next_status w;; modify (log (A_thrd_join i r0));;
            ret (r0, code)) s = (Ok r, s')
           /\ (quiescent s' /\ marked s') /\ progress [] s s'
           /\ exists wt', waiters s' !! i = Some wt' /\ rank wt' = 0)
    by (intros code Ht; eexists; eexists; split; [reflexivity|];
        split; [apply quiescent_log_tick; exact HK|]; split;
        [apply progress_log_tick|];
        exists wt; split; [exact Hw|]; unfold rank; rewrite Ht; reflexivity).
  - simpl. rewrite (bind_ok _ _ _ _ _ (load_waiter_ok i s wt Hw)).
    unfold rank in Hr. destruct (thrd wt) eqn:Ht; try lia; [congruence|].
    apply Hexit. reflexivity.
  - rewrite thrd_join_S.
    rewrite (bind_ok _ _ _ _ _ (load_waiter_ok i s wt Hw)).
    destruct (thrd wt) eqn:Ht; [congruence| | |apply (Hexit code); reflexivity].
    all: destruct (yield_progress s HK) as (s1 & E1 & K1 & P1).
    all: rewrite (bind_ok _ _ _ _ _ E1).
    all: destruct P1 as [L1 P1'].
    all: destruct (P1' i wt Hw) as (wt1 & Hw1 & R1 & J1 & Q1).
    all: specialize (Q1 (Hfair (tick s) i Hi)).
    all: assert (Hr1 : rank wt1 <= fuel)
      by (unfold rank in Hr, Q1 |- *; rewrite Ht in *; simpl in *; lia).
    all: destruct (IH s1 wt1 Hi K1 Hw1 Hr1) as (r & s2 & E2 & K2 & P2 & Hz).
    all: exists r, s2; split; [exact E2|]; split; [exact K2|]; split;
      [|exact Hz].
    all: apply (progress_weaken (sched w (tick s)) s s1 s2);
      [split; assumption|exact P2].
Qed.

Lemma cancel_ok es wt : waiter_ok es wt -> waiter_ok es (cancel wt).
Proof. unfold cancel. destruct (done wt); auto. Qed.

(** [cancel_waiter] on a waiter in order, with the event mutexes free. *)
Lemma cancel_waiter_total i s wt :
  waiters s !! i = Some wt -> waiter_ok (events s) wt -> events_free s ->
  exists s', cancel_waiter w i s = (Ok tt, s')
    /\ events s' = events s /\ wait_info_mtx s' = wait_info_mtx s
    /\ length (waiters s') = length (waiters s)
    /\ forall j, waiters s' !! j
                 = if decide (i = j) then Some (cancel wt)
                   else waiters s !! j.
Proof.
  intros Hw ((p & e & Hp & He) & _) Hfree. pose proof (Hfree p e He) as Hm.
  destruct s as [es wm ws ix t me tr]. simpl in *.
  destruct wt as [th pe jo ca dn]. simpl in *. subst pe.
  assert (Hev : alter (fun e => Event false (signaled e) (is_manual_reset e)) p
                  (alter (fun e => Event true (signaled e) (is_manual_reset e))
                     p es) = es)
    by (apply (lock_unlock_events p e); assumption).
  unfold cancel_waiter, load_waiter, deref, CHECK_THRD_ERR, store_canceled,
    store_waiter, halt, set_waiters.
  destruct dn; unfold_run;
    repeat (simpl; unfold load_waiter; unfold_run;
            rewrite ?list_lookup_alter_eq, ?Hw, ?He, ?Hm, ?Hprim);
    simpl; rewrite ?Hev, ?length_alter;
    eexists; (split; [reflexivity|]); simpl; rewrite ?Hev, ?length_alter;
    (split; [reflexivity|]); (split; [reflexivity|]);
    (split; [reflexivity|]);
    intros j; unfold cancel; simpl;
    (destruct (decide (i = j)) as [<-|Hne];
     [rewrite ?list_lookup_alter_eq, ?Hw; reflexivity
     |rewrite ?list_lookup_alter_ne by exact Hne; reflexivity]).
Qed.

Lemma cancel_loop_total m :
  total (fun s => teardown_ready c s /\ wait_info_mtx s = m)
    (for_loop c 0 (cancel_waiter w))
    (fun _ s => (teardown_ready c s /\ marked s) /\ wait_info_mtx s = m).
Proof.
  pose (I := fun (i : nat) (s : state) =>
              (teardown_ready c s /\ wait_info_mtx s = m)
              /\ forall j wt, j < i -> waiters s !! j = Some wt ->
                   0 < rank wt -> canceled wt = true).
  eapply total_conseq with (P' := I 0) (Q' := fun _ => I (0 + c)).
  - apply (total_for_loop I (cancel_waiter w) c 0).
    intros i Hi s [[(Hlen & Hfree & Hok) Hm] Hdone].
    destruct (waiters s !! i) as [wt|] eqn:Hw.
    2: { apply lookup_ge_None in Hw. lia. }
    destruct (cancel_waiter_total i s wt Hw (Hok i wt Hw) Hfree)
      as (s' & E & Hev & Hwi & Hl & Hws).
    exists tt, s'. split; [exact E|]. split; [split; [split; [|split]|]|].
    + congruence.
    + intros p e. rewrite Hev. apply Hfree.
    + intros j x. rewrite Hws, Hev. destruct (decide (i = j)) as [<-|Hne].
      * intros [= <-]. apply cancel_ok. apply (Hok i wt Hw).
      * apply Hok.
    + congruence.
    + intros j x Hj. rewrite Hws. destruct (decide (i = j)) as [<-|Hne].
      * intros [= <-]. unfold cancel.
        destruct (Hok i wt Hw) as (_ & _ & Hd & _).
        destruct (done wt) eqn:Hdn; [|reflexivity].
        intros Hr. specialize (Hd eq_refl). lia.
      * apply Hdone. lia.
  - intros s Hs. split; [exact Hs|]. intros j wt Hj. lia.
  - intros _ s [[Hr Hm] Hmk]. split; [split; [exact Hr|]|exact Hm].
    intros j wt Hj. apply (Hmk j wt); [|exact Hj].
    apply lookup_lt_Some in Hj. destruct Hr as [Hlen _]. simpl. lia.
Qed.

Lemma join_loop_total fuel :
  2 <= fuel ->
  total (fun s => (quiescent s /\ marked s) /\ length (waiters s) = c)
    (for_loop c 0 (join_waiter w fuel))
    (fun _ s => quiescent s /\ no_proxy_running s).
Proof.
  intros Hfuel.
  pose (I := fun (i : nat) (s : state) =>
              ((quiescent s /\ marked s) /\ length (waiters s) = c)
              /\ forall j wt, j < i -> waiters s !! j = Some wt ->
                   rank wt = 0).
  eapply total_conseq with (P' := I 0) (Q' := fun _ => I (0 + c)).
  - apply (total_for_loop I (join_waiter w fuel) c 0).
    intros i Hi s [[HK Hlen] Hz].
    destruct (waiters s !! i) as [wt|] eqn:Hw.
    2: { apply lookup_ge_None in Hw. lia. }
    unfold join_waiter.
    pose proof HK as [(Hwi & Hfree & Hok) Hmark].
    destruct (joinable wt) eqn:Hj.
    + assert (Hr : rank wt <= fuel).
      { unfold rank. destruct (thrd wt); lia. }
      destruct (thrd_join_total fuel i s wt ltac:(lia) HK Hw Hr)
        as (r & s' & E & K' & [L P] & (wt' & Hw' & Hz')).
      exists tt, s'. split.
      { rewrite (bind_ok _ _ _ _ _ (load_waiter_ok i s wt Hw)), Hj.
        rewrite (bind_ok _ _ _ _ _ E). reflexivity. }
      split; [split; [exact K'|congruence]|].
      intros j x Hji Hx. destruct (decide (j = i)) as [->|Hne].
      * congruence.
      * destruct (waiters s !! j) as [x0|] eqn:Hx0.
        -- destruct (P j x0 Hx0) as (x1 & Hx1 & R & _).
           assert (x1 = x) by congruence. subst x1.
           specialize (Hz j x0 ltac:(lia) Hx0). lia.
        -- apply lookup_ge_None in Hx0. apply lookup_lt_Some in Hx. lia.
    + exists tt, s. split.
      { rewrite (bind_ok _ _ _ _ _ (load_waiter_ok i s wt Hw)), Hj.
        reflexivity. }
      split; [split; [exact HK|exact Hlen]|].
      intros j x Hji Hx. destruct (decide (j = i)) as [->|Hne].
      * assert (x = wt) by congruence. subst x.
        destruct (Hok i wt Hw) as (_ & _ & _ & Hnj). apply Hnj. exact Hj.
      * apply (Hz j x); [lia|exact Hx].
  - intros s Hs. split; [exact Hs|]. intros j wt Hj. lia.
  - intros _ s [[[HQ _] Hlen] Hz]. split; [exact HQ|].
    intros j wt Hj. assert (Hr : rank wt = 0).
    { apply (Hz j wt); [|exact Hj]. apply lookup_lt_Some in Hj. simpl. lia. }
    unfold rank in Hr. unfold running. destruct (thrd wt); try reflexivity;
      discriminate.
Qed.

End Join.

End Fair.

(** * The call returns: waiting for any event *)


Lemma burst_matches e wt :
  canceled wt = false -> matches e wt \/ fresh wt ->
  matches e (burst e wt).
Proof.
  unfold matches, fresh, finished, burst.
  destruct wt as [th pe jo ca dn]. simpl. intros ->.
  destruct (signaled e) eqn:Hs; intros [H|H]; destruct H as [H1 H2];
    subst; simpl; rewrite ?Hs; auto.
Qed.

Lemma burst_fields e wt :
  p_event (burst e wt) = p_event wt /\ joinable (burst e wt) = joinable wt
  /\ (canceled wt = false -> canceled (burst e wt) = false)
  /\ (finished wt -> burst e wt = wt).
Proof.
  unfold burst, finished. destruct wt as [th pe jo ca dn]. simpl.
  destruct th, ca, (signaled e); simpl; repeat split; auto;
    intros [H1 H2]; try discriminate; subst; reflexivity.
Qed.

(** The teardown, entered with the rendezvous mutex held. *)
Lemma teardown_total w c fuel :
  (forall t, prim w t = thrd_success) ->
  (forall t i, i < c -> In (ProxyRun i) (sched w t)) ->
  2 <= fuel ->
  total (fun s => teardown_ready c s /\ wait_info_mtx s = true)
    (clean_up_threads w fuel c)
    (fun _ s' => quiescent s' /\ no_proxy_running s').
Proof.
  intros Hprim Hfair Hfuel. unfold clean_up_threads.
  eapply total_bind; [apply (cancel_loop_total w Hprim c)|intros ?].
  eapply total_bind with
    (R := fun _ s0 => (quiescent s0 /\ marked s0) /\ length (waiters s0) = c).
  { intros s0 [[(Hlen & Hfr & Hok) Hmk] _]. eexists tt, _. split.
    - unfold CHECK_THRD_ERR, mtx_unlock, bind, get, mtx_of, next_status,
        modify, ret. simpl. rewrite Hprim. simpl. reflexivity.
    - simpl. split; [split; [split; [reflexivity|split]|]|]; assumption. }
  intros ?. apply (join_loop_total w Hprim c Hfair fuel Hfuel).
Qed.

(** Waiters past their first burst, with no thread left to create, are in
    order for the teardown. *)
Lemma match_ready arr es c J s :
  events_free s ->
  (forall p e, es !! p = Some e -> exists e', events s !! p = Some e') ->
  waiters_match arr es c c nobody J s -> teardown_ready c s.
Proof.
  intros Hfr Hex [Hlen Hws]. split; [exact Hlen|]. split; [exact Hfr|].
  intros i wt Hw. pose proof (Hws i wt Hw) as Hwt.
  replace (i <? c) with true in Hwt
    by (symmetry; apply Nat.ltb_lt; rewrite <- Hlen;
        apply lookup_lt_is_Some_1; eauto).
  destruct Hwt as (p & e & H1 & H2 & H3 & H4 & H5 & H6).
  destruct H6 as [H6|[[] _]].
  assert (Hrk : thrd wt <> thrd_none
                /\ (done wt = true -> rank wt = 0)).
  { unfold matches, finished, rank in *.
    destruct (signaled e); destruct H6 as [G1 G2]; rewrite ?G1, ?G2;
      split; congruence. }
  split; [|split; [apply Hrk|split; [apply Hrk|]]].
  - destruct (Hex p e H2) as [e' He']. eauto.
  - destruct H5 as [H5|[_ [G1 G2]]]; [congruence|].
    intros _. unfold rank. rewrite G1. reflexivity.
Qed.

(** When the other threads are proxies only, a run that stores to no latch
    itself keeps the latches. *)
Section KeepProxies.

Context (w : world) (I : state -> Prop) `{!MtxFrame I}
  (Honly : forall t a, In a (sched w t) -> exists j, a = ProxyRun j).

Lemma run_env_proxies_keep l :
  (forall a, In a l -> exists j, a = ProxyRun j) -> preserves I (run_env w l).
Proof.
  induction l as [|a l IH]; intros Hl; simpl; [keep|].
  apply preserves_bind; [|intros ?; apply IH; intros b Hb; apply Hl; right;
                          exact Hb].
  destruct (Hl a (or_introl eq_refl)) as [j ->]. simpl.
  apply _event_wait_helper_keep. assumption.
Qed.

Lemma yield_proxies_keep : preserves I (yield w).
Proof.
  unfold yield. apply preserves_bind; [apply preserves_get|intros s0].
  apply preserves_bind; [keep|intros ?]. apply run_env_proxies_keep, Honly.
Qed.
Hint Resolve yield_proxies_keep : keep.

Lemma thrd_join_proxies_keep fuel i : preserves I (thrd_join w fuel i).
Proof. induction fuel as [|fuel IH]; simpl; keep. Qed.
Hint Resolve thrd_join_proxies_keep : keep.

Lemma clean_up_threads_proxies_keep fuel c :
  preserves I (clean_up_threads w fuel c).
Proof. unfold clean_up_threads, cancel_waiter, join_waiter. keep. Qed.

End KeepProxies.

Lemma events_of_latches s1 s2 :
  latches s1 = latches s2 -> events_free s1 -> events_free s2 ->
  events s1 = events s2.
Proof.
  unfold latches, events_free. intros HL H1 H2. apply list_eq. intros q.
  pose proof (f_equal (fun l => l !! q) HL) as Hq. simpl in Hq.
  rewrite !list_lookup_fmap in Hq.
  destruct (events s1 !! q) as [e1|] eqn:E1;
    destruct (events s2 !! q) as [e2|] eqn:E2; simpl in Hq;
    try discriminate; [|reflexivity].
  pose proof (H1 q e1 E1). pose proof (H2 q e2 E2).
  destruct e1, e2; simpl in *; congruence.
Qed.

Section Happy.

Context (w : world) (Hprim : forall t, prim w t = thrd_success)
  (arr : list (option nat)) (es : list event_t) (c : nat)
  (Hfree : forall p e, es !! p = Some e -> mtx e = false).

(** A burst of proxy [k] while the events are untouched and the
    rendezvous mutex is free. *)
Lemma proxy_burst_match i F J k s :
  wait_info_mtx s = false -> events s = es ->
  waiters_match arr es c i F J s ->
  exists s', _event_wait_helper w k s = (Ok tt, s')
    /\ wait_info_mtx s' = false /\ events s' = es
    /\ idx_signaled_event s' = idx_signaled_event s
    /\ waiters_match arr es c i (fun j => F j /\ j <> k) J s'.
Proof.
  intros Hwi Hev [Hlen Hws].
  assert (Hidle : waiters_match arr es c i (fun j => F j /\ j <> k) J s
                  \/ exists wt, waiters s !! k = Some wt /\ (k <? i) = true).
  { destruct (waiters s !! k) as [wt|] eqn:Hw.
    - destruct (k <? i) eqn:Hk; [right; eauto|left].
      split; [exact Hlen|]. intros j x Hx. specialize (Hws j x Hx).
      destruct (j <? i) eqn:Hj; [|exact Hws].
      destruct Hws as (p & e & H1 & H2 & H3 & H4 & H5 & H6).
      exists p, e. repeat (split; [assumption|]).
      destruct H6 as [H6|[HF H6]]; [left; exact H6|right].
      split; [split; [exact HF|]|exact H6]. intros ->. congruence.
    - left. split; [exact Hlen|]. intros j x Hx. specialize (Hws j x Hx).
      destruct (j <? i) eqn:Hj; [|exact Hws].
      destruct Hws as (p & e & H1 & H2 & H3 & H4 & H5 & H6).
      exists p, e. repeat (split; [assumption|]).
      destruct H6 as [H6|[HF H6]]; [left; exact H6|right].
      split; [split; [exact HF|]|exact H6]. intros ->. congruence. }
  destruct (waiters s !! k) as [wt|] eqn:Hw.
  2: { exists s. unfold _event_wait_helper, bind, get. rewrite Hw.
       destruct Hidle as [H|(x & Hx & _)]; [|discriminate]. auto 10. }
  pose proof (Hws k wt Hw) as Hk. destruct (k <? i) eqn:Hki.
  2: { exists s. unfold _event_wait_helper, bind, get. rewrite Hw, Hk.
       destruct Hidle as [H|(x & Hx & Hf)]; [|discriminate]. auto 10. }
  destruct Hk as (p & e & Ha & He & Hp & Hc & Hj & Hm).
  assert (He' : events s !! p = Some e) by (rewrite Hev; exact He).
  destruct (proxy_burst_run w k p wt e s Hprim Hw Hp He' (Hfree p e He) Hwi)
    as (s' & Hrun & Hev' & Hwi' & Hlen' & Hws').
  exists s'. split; [exact Hrun|]. split; [exact Hwi'|].
  split; [congruence|]. split.
  { clear - Hrun Hw Hp He' Hwi.
    pose proof (_event_wait_helper_frame w (idx_is (idx_signaled_event s)) k s
                  eq_refl) as H.
    rewrite Hrun in H. exact H. }
  split; [congruence|]. intros j x. rewrite Hws'.
  destruct (decide (k = j)) as [<-|Hne].
  - intros [= <-]. rewrite Hki.
    destruct (burst_fields e wt) as (B1 & B2 & B3 & B4).
    exists p, e. rewrite B1, B2. do 4 (split; [auto|]). split.
    + destruct Hj as [Hj|[HJ Hf]]; [left; exact Hj|right].
      split; [exact HJ|]. rewrite (B4 Hf). exact Hf.
    + left. apply burst_matches; [exact Hc|].
      destruct Hm as [Hm|[_ Hm]]; auto.
  - intros Hx. specialize (Hws j x Hx).
    destruct (j <? i) eqn:Hji; [|exact Hws].
    destruct Hws as (q & e' & H1 & H2 & H3 & H4 & H5 & H6).
    exists q, e'. repeat (split; [assumption|]).
    destruct H6 as [H6|[HF H6]]; [left; exact H6|right].
    split; [split; [exact HF|congruence]|exact H6].
Qed.


Lemma waiters_match_weaken i (F F' J J' : nat -> Prop) s :
  (forall j, F j -> F' j) -> (forall j, J j -> J' j) ->
  waiters_match arr es c i F J s -> waiters_match arr es c i F' J' s.
Proof.
  intros HF HJ [Hlen Hws]. split; [exact Hlen|]. intros j x Hx.
  specialize (Hws j x Hx). destruct (j <? i); [|exact Hws].
  destruct Hws as (p & e & H1 & H2 & H3 & H4 & H5 & H6).
  exists p, e. do 4 (split; [assumption|]). split.
  - destruct H5 as [H5|[H5 H5']]; auto.
  - destruct H6 as [H6|[H6 H6']]; auto.
Qed.

(** A batch of bursts, all of proxies. *)
Lemma run_env_match i F J l : forall s,
  (forall a, In a l -> exists j, a = ProxyRun j) ->
  wait_info_mtx s = false -> events s = es ->
  waiters_match arr es c i F J s ->
  exists s', run_env w l s = (Ok tt, s')
    /\ wait_info_mtx s' = false /\ events s' = es
    /\ idx_signaled_event s' = idx_signaled_event s
    /\ waiters_match arr es c i (fun j => F j /\ ~ In (ProxyRun j) l) J s'.
Proof.
  revert F. induction l as [|a l IH]; intros F s Hl Hwi Hev Hm; simpl.
  - exists s. do 4 (split; [auto|]).
    eapply waiters_match_weaken; [| |exact Hm]; simpl; auto.
  - destruct (Hl a (or_introl eq_refl)) as [k ->].
    destruct (proxy_burst_match i F J k s Hwi Hev Hm)
      as (s1 & E1 & Hwi1 & Hev1 & Hix1 & Hm1).
    destruct (IH _ s1 (fun a H => Hl a (or_intror H)) Hwi1 Hev1 Hm1)
      as (s2 & E2 & Hwi2 & Hev2 & Hix2 & Hm2).
    exists s2. split; [unfold bind; simpl; rewrite E1; exact E2|].
    do 2 (split; [assumption|]). split; [congruence|].
    eapply waiters_match_weaken; [| |exact Hm2]; simpl; auto.
    intros j [[HF Hne] Hnin]. split; [exact HF|].
    intros [[= ->]|H]; [apply Hne; reflexivity|exact (Hnin H)].
Qed.

Context (Hfair : forall t i, i < c -> In (ProxyRun i) (sched w t))
  (Honly : forall t a, In a (sched w t) -> exists j, a = ProxyRun j).

(** The caller blocks once: afterwards every spawned proxy is past its
    first burst. *)
Lemma yield_match i F J s :
  i <= c -> wait_info_mtx s = false -> events s = es ->
  waiters_match arr es c i F J s ->
  exists s', yield w s = (Ok tt, s')
    /\ wait_info_mtx s' = false /\ events s' = es
    /\ idx_signaled_event s' = idx_signaled_event s
    /\ waiters_match arr es c i (fun _ => False) J s'.
Proof.
  intros Hi Hwi Hev Hm.
  destruct (run_env_match i F J (sched w (tick s)) (set_tick (S (tick s)) s)
              (Honly _) Hwi Hev Hm) as (s' & E & Hwi' & Hev' & Hix' & Hm').
  exists s'. split; [exact E|]. do 3 (split; [assumption|]).
  destruct Hm' as [Hlen Hws]. split; [exact Hlen|]. intros j x Hx.
  specialize (Hws j x Hx). destruct (j <? i) eqn:Hj; [|exact Hws].
  destruct Hws as (p & e & H1 & H2 & H3 & H4 & H5 & H6).
  exists p, e. do 5 (split; [assumption|]).
  destruct H6 as [H6|[[_ H6] _]]; [left; exact H6|].
  exfalso. apply H6, Hfair. apply Nat.ltb_lt in Hj. lia.
Qed.

Hypothesis Harr : forall i, i < c -> exists p e,
  arr !! i = Some (Some p) /\ es !! p = Some e.

(** Lines 223-237: every proxy is created, and each has had its first
    burst when the loop ends. *)
Lemma spawn_waiters_total fuel n : forall i,
  i + n = c ->
  total (fun s => wait_info_mtx s = false /\ events s = es
                  /\ waiters_match arr es c i nobody nobody s)
    (spawn_waiters w fuel arr n i)
    (fun r s => r = thrd_success
                /\ wait_info_mtx s = false /\ events s = es
                /\ waiters_match arr es c c nobody nobody s).
Proof.
  induction n as [|n IH]; intros i Hin s (Hwi & Hev & Hm).
  - exists thrd_success, s. split; [reflexivity|].
    assert (Hic : i = c) by lia. rewrite Hic in Hm. auto.
  - destruct (Harr i ltac:(lia)) as (p & e & Ha & He).
    pose proof Hm as [Hlen Hws].
    destruct (lookup_lt_is_Some_2 (waiters s) i ltac:(lia)) as [wt0 Hw0].
    pose proof (Hws i wt0 Hw0) as Hn. rewrite Nat.ltb_irrefl in Hn.
    pose (wt1 := Waiter thrd_start (Some p) true false false).
    assert (Hpre : exists s1,
      (forall s2, yield w s1 = (Ok tt, s2) ->
         spawn_waiters w fuel arr (S n) i s
         = spawn_waiters w fuel arr n (S i) s2)
      /\ wait_info_mtx s1 = false /\ events s1 = es
      /\ length (waiters s1) = c
      /\ forall j, waiters s1 !! j
                   = if decide (i = j) then Some wt1 else waiters s !! j).
    { destruct s as [es' wm ws ix t me tr]. simpl in *. subst es' wm.
      eexists. split.
      - intros s2. unfold spawn_waiters; fold (spawn_waiters w fuel arr).
        unfold thrd_create. remember (yield w) as Y eqn:HY. intros E.
        unfold load_p_events, store_canceled, store_done, store_waiter,
          load_waiter, next_status, modify, get, ret, bind.
        rewrite Ha. simpl.
        repeat first [rewrite list_lookup_alter_eq | rewrite Hw0
                     | rewrite Hprim | progress simpl].
        rewrite E. reflexivity.
      - simpl. do 2 (split; [reflexivity|]). split.
        + rewrite !length_alter. exact Hlen.
        + intros j. destruct (decide (i = j)) as [<-|Hne].
          * repeat (rewrite list_lookup_alter_eq; simpl). rewrite Hw0.
            simpl. reflexivity.
          * rewrite !list_lookup_alter_ne by exact Hne. reflexivity. }
    destruct Hpre as (s1 & E1 & Hwi1 & Hev1 & Hlen1 & Hws1).
    assert (Hm1 : waiters_match arr es c (S i) (fun j => j = i) nobody s1).
    { split; [exact Hlen1|]. intros j x. rewrite Hws1.
      destruct (decide (i = j)) as [<-|Hne].
      - intros [= <-]. replace (i <? S i) with true
          by (symmetry; apply Nat.ltb_lt; lia).
        exists p, e. simpl. do 4 (split; [auto|]). split; [left; reflexivity|].
        right. split; [reflexivity|]. split; reflexivity.
      - intros Hx. specialize (Hws j x Hx).
        destruct (j <? i) eqn:Hj.
        + replace (j <? S i) with true
            by (symmetry; apply Nat.ltb_lt; apply Nat.ltb_lt in Hj; lia).
          destruct Hws as (q & e' & H1 & H2 & H3 & H4 & H5 & H6).
          exists q, e'. do 5 (split; [assumption|]).
          destruct H6 as [H6|[[] _]]. left. exact H6.
        + replace (j <? S i) with false
            by (symmetry; apply Nat.ltb_ge; apply Nat.ltb_ge in Hj; lia).
          exact Hws. }
    destruct (yield_match (S i) _ _ s1 ltac:(lia) Hwi1 Hev1 Hm1)
      as (s2 & E2 & Hwi2 & Hev2 & _ & Hm2).
    destruct (IH (S i) ltac:(lia) s2 (conj Hwi2 (conj Hev2 Hm2)))
      as (r & s3 & E3 & H3).
    exists r, s3. split; [|exact H3]. rewrite (E1 s2 E2). exact E3.
Qed.


Context (k pk : nat) (ek : event_t) (Hk : k < c)
  (Hak : arr !! k = Some (Some pk)) (Hek : es !! pk = Some ek)
  (Hsig : signaled ek = true)
  (Hlow : forall j p e, j < k -> arr !! j = Some (Some p) ->
            es !! p = Some e -> signaled e = false).









End Happy.


(** * The call returns: waiting for all events *)

Lemma named_0 arr q : named arr 0 q = false.
Proof.
  unfold named. rewrite take_0. apply bool_decide_eq_false.
  apply not_elem_of_nil.
Qed.

Lemma named_spec arr n q :
  named arr n q = true <-> exists i, arr !! i = Some (Some q) /\ i < n.
Proof. unfold named. rewrite bool_decide_eq_true. apply elem_of_take. Qed.

Lemma named_S arr n p q :
  arr !! n = Some (Some p) ->
  named arr (S n) q = named arr n q || bool_decide (p = q).
Proof.
  intros Ha. apply eq_true_iff_eq.
  rewrite orb_true_iff, bool_decide_eq_true, !named_spec. split.
  - intros (i & Hi & Hlt). destruct (decide (i = n)) as [->|Hne].
    + right. congruence.
    + left. exists i. split; [exact Hi|lia].
  - intros [(i & Hi & Hlt)| <-].
    + exists i. split; [exact Hi|lia].
    + exists n. split; [exact Ha|lia].
Qed.

Lemma named_fresh arr c n p :
  NoDup (take c arr) -> n < c -> arr !! n = Some (Some p) ->
  named arr n p = false.
Proof.
  intros Hnd Hn Ha. apply not_true_is_false. rewrite named_spec.
  intros (i & Hi & Hlt).
  assert (i = n); [|lia].
  apply (NoDup_lookup (take c arr) i n (Some p) Hnd);
    rewrite lookup_take_lt by lia; assumption.
Qed.

Lemma named_at arr n m p :
  n < m -> arr !! n = Some (Some p) -> named arr m p = true.
Proof. intros Hn Ha. apply named_spec. eauto. Qed.

Section HappyAll.

Context (w : world) (Hprim : forall t, prim w t = thrd_success)
  (arr : list (option nat)) (es : list event_t) (c : nat)
  (Hfree : forall p e, es !! p = Some e -> mtx e = false)
  (Hfair : forall t i, i < c -> In (ProxyRun i) (sched w t))
  (Honly : forall t a, In a (sched w t) -> exists j, a = ProxyRun j)
  (Hall : forall i, i < c -> exists p e,
     arr !! i = Some (Some p) /\ es !! p = Some e /\ signaled e = true)
  (Hnd : NoDup (take c arr)).

(** Lines 247-266, every event being signaled: every proxy is done, and
    is joined. *)
Lemma scan_all_total fuel n : forall i s,
  i + n = c ->
  wait_info_mtx s = true -> events s = es ->
  waiters_match arr es c c nobody (fun j => j < i) s ->
  exists s', scan_all w fuel n i (Locals 0 thrd_success true) s
             = (Ok (Next, Locals 0 thrd_success true), s')
    /\ wait_info_mtx s' = true /\ events s' = es
    /\ waiters_match arr es c c nobody (fun j => j < c) s'.
Proof.
  induction n as [|n IH]; intros i s Hi Hwi Hev Hm.
  { exists s. split; [reflexivity|]. do 2 (split; [assumption|]).
    assert (Hic : i = c) by lia. rewrite Hic in Hm. exact Hm. }
  pose proof Hm as [Hlen Hws].
  destruct (lookup_lt_is_Some_2 (waiters s) i ltac:(lia)) as [wt Hw].
  pose proof (Hws i wt Hw) as Hwt.
  replace (i <? c) with true in Hwt by (symmetry; apply Nat.ltb_lt; lia).
  destruct Hwt as (p & e & H1 & H2 & H3 & H4 & H5 & H6).
  destruct (Hall i ltac:(lia)) as (p' & e' & G1 & G2 & G3).
  assert (p' = p) by congruence. subst p'.
  assert (e' = e) by congruence. subst e'.
  destruct H5 as [H5|[H5 _]]; [|lia]. destruct H6 as [H6|[[] _]].
  unfold matches in H6. rewrite G3 in H6. destruct H6 as [Hth Hdn].
  assert (Hstep : exists s1,
    (forall r s2, scan_all w fuel n (S i) (Locals 0 thrd_success true) s1
                  = (r, s2) ->
       scan_all w fuel (S n) i (Locals 0 thrd_success true) s = (r, s2))
    /\ wait_info_mtx s1 = true /\ events s1 = es
    /\ length (waiters s1) = c
    /\ forall j, waiters s1 !! j
                 = if decide (i = j) then Some (with_joinable false wt)
                   else waiters s !! j).
  { destruct s as [es' wm ws ix t me tr]. simpl in *. subst es' wm.
    destruct wt as [th pe jo ca dn]. simpl in *. subst th pe jo ca dn.
    eexists. split.
    - intros r s2. unfold scan_all; fold (scan_all w fuel).
      remember (scan_all w fuel n (S i)) as K eqn:HK. intros E.
      destruct fuel as [|fuel'];
        unfold join_done, thrd_join; fold (thrd_join w);
        unfold store_waiter, load_waiter, next_status, modify, get, ret, bind;
        simpl;
        repeat first [rewrite list_lookup_alter_eq | rewrite Hw
                     | rewrite Hprim | progress simpl];
        exact E.
    - simpl. do 2 (split; [reflexivity|]). split.
      + rewrite length_alter. exact Hlen.
      + intros j. apply (lookup_alter_at _ _ i j _ Hw). }
  destruct Hstep as (s1 & E1 & Hwi1 & Hev1 & Hlen1 & Hws1).
  assert (Hm1 : waiters_match arr es c c nobody (fun j => j < S i) s1).
  { split; [exact Hlen1|]. intros j x. rewrite Hws1.
    destruct (decide (i = j)) as [<-|Hne].
    - intros [= <-].
      replace (i <? c) with true by (symmetry; apply Nat.ltb_lt; lia).
      exists p, e. simpl. do 4 (split; [auto|]).
      split; [right; split; [lia|split; assumption]|].
      left. unfold matches. rewrite G3. split; assumption.
    - intros Hx. specialize (Hws j x Hx).
      destruct (j <? c); [|exact Hws].
      destruct Hws as (q & e' & F1 & F2 & F3 & F4 & F5 & F6).
      exists q, e'. do 4 (split; [assumption|]).
      split; [|exact F6]. destruct F5 as [F5|[F5 F5']]; [left; exact F5|].
      right. split; [lia|exact F5']. }
  destruct (IH (S i) s1 ltac:(lia) Hwi1 Hev1 Hm1) as (s' & E & H).
  exists s'. split; [|exact H]. apply E1. exact E.
Qed.


Lemma group_state_at i j s n p e :
  group_state arr es i j s -> n < c -> i <= n ->
  arr !! n = Some (Some p) -> es !! p = Some e ->
  events s !! p = Some (if named arr j p then held e else e).
Proof.
  intros Hg Hn Hin Ha He. rewrite (Hg p), He. simpl.
  replace (named arr i p) with false; [reflexivity|].
  symmetry. apply not_true_is_false. rewrite named_spec.
  intros (i' & Hi' & Hlt).
  assert (i' = n); [|lia].
  apply (NoDup_lookup (take c arr) i' n (Some p) Hnd);
    rewrite lookup_take_lt by lia; assumption.
Qed.

(** Lines 270-278: every event is signaled and its mutex free, so all the
    mutexes are taken. *)
Lemma lock_events_total n : forall i s,
  i + n = c -> group_state arr es 0 i s ->
  exists s', lock_events w arr n i thrd_success s
             = (Ok (c, thrd_success, true), s')
    /\ group_state arr es 0 c s'
    /\ wait_info_mtx s' = wait_info_mtx s /\ waiters s' = waiters s.
Proof.
  induction n as [|n IH]; intros i s Hi Hg.
  { assert (Hic : i = c) by lia. rewrite Hic in Hg. exists s.
    split; [rewrite Hic; reflexivity|]. auto. }
  destruct (Hall i ltac:(lia)) as (p & e & Ha & He & Hsg).
  pose proof (group_state_at 0 i s i p e Hg ltac:(lia) ltac:(lia) Ha He) as Hl.
  rewrite (named_fresh arr c i p Hnd ltac:(lia) Ha) in Hl.
  pose proof (Hfree p e He) as Hmx.
  assert (Hstep : exists s1,
    (forall r s2, lock_events w arr n (S i) thrd_success s1 = (r, s2) ->
       lock_events w arr (S n) i thrd_success s = (r, s2))
    /\ events s1 = alter held p (events s)
    /\ wait_info_mtx s1 = wait_info_mtx s /\ waiters s1 = waiters s).
  { destruct s as [evs wm ws ix t me tr]. simpl in *.
    eexists. split.
    - intros r s2. unfold lock_events; fold (lock_events w arr).
      remember (lock_events w arr n (S i)) as K eqn:HK. intros E.
      unfold load_p_events, deref, mtx_lock, load_event, mtx_of, set_mtx,
        next_status, modify, get, ret, bind.
      rewrite Ha. simpl.
      repeat first [rewrite list_lookup_alter_eq | rewrite Hl | rewrite Hmx
                   | rewrite Hsg | rewrite Hprim | progress simpl].
      exact E.
    - simpl. auto. }
  destruct Hstep as (s1 & E1 & Hev1 & Hwi1 & Hws1).
  assert (Hg1 : group_state arr es 0 (S i) s1).
  { intros q. rewrite Hev1, named_0, (named_S _ _ _ _ Ha).
    destruct (decide (p = q)) as [<-|Hne].
    - rewrite list_lookup_alter_eq, Hl, He. simpl.
      rewrite bool_decide_true by reflexivity. rewrite orb_true_r.
      reflexivity.
    - rewrite list_lookup_alter_ne by exact Hne.
      rewrite bool_decide_false by exact Hne. rewrite orb_false_r.
      rewrite (Hg q), named_0. reflexivity. }
  destruct (IH (S i) s1 ltac:(lia) Hg1) as (s' & E & Hg' & Hwi' & Hws').
  exists s'. split; [apply E1; exact E|]. split; [exact Hg'|].
  split; congruence.
Qed.

(** Lines 280-286: every signal is taken, unless the event is a
    manual-reset event, and every mutex released. *)
Lemma unlock_events_total n : forall i s,
  i + n = c -> group_state arr es i c s ->
  exists s', unlock_events w arr n i true thrd_success s
             = (Ok thrd_success, s')
    /\ group_state arr es c c s'
    /\ wait_info_mtx s' = wait_info_mtx s /\ waiters s' = waiters s.
Proof.
  induction n as [|n IH]; intros i s Hi Hg.
  { assert (Hic : i = c) by lia. rewrite Hic in Hg. exists s.
    split; [rewrite Hic; reflexivity|]. auto. }
  destruct (Hall i ltac:(lia)) as (p & e & Ha & He & Hsg).
  pose proof (group_state_at i c s i p e Hg ltac:(lia) ltac:(lia) Ha He) as Hl.
  rewrite (named_at arr i c p ltac:(lia) Ha) in Hl.
  assert (Hstep : exists s1,
    (forall r s2, unlock_events w arr n (S i) true thrd_success s1 = (r, s2) ->
       unlock_events w arr (S n) i true thrd_success s = (r, s2))
    /\ (forall q, events s1 !! q
                  = if decide (p = q) then Some (consumed e)
                    else events s !! q)
    /\ wait_info_mtx s1 = wait_info_mtx s /\ waiters s1 = waiters s).
  { destruct s as [evs wm ws ix t me tr]. simpl in *.
    destruct (is_manual_reset e) eqn:Hmr.
    all: eexists; split;
      [ intros r s2; unfold unlock_events; fold (unlock_events w arr);
        remember (unlock_events w arr n (S i)) as K eqn:HK; intros E;
        unfold load_p_events, deref, store_signaled, mtx_unlock, load_event,
          mtx_of, set_mtx, next_status, modify, get, ret, bind;
        rewrite Ha; simpl;
        repeat first [rewrite list_lookup_alter_eq | rewrite Hl | rewrite Hmr
                     | rewrite Hprim | progress simpl];
        exact E |].
    all: simpl; split; [|auto].
    all: intros q; destruct (decide (p = q)) as [<-|Hne];
      [ rewrite ?list_lookup_alter_eq, Hl; simpl; unfold consumed;
        rewrite ?Hmr, ?Hsg; reflexivity
      | rewrite ?list_lookup_alter_ne by exact Hne; reflexivity ]. }
  destruct Hstep as (s1 & E1 & Hev1 & Hwi1 & Hws1).
  assert (Hg1 : group_state arr es (S i) c s1).
  { intros q. rewrite Hev1, (named_S _ _ _ _ Ha).
    destruct (decide (p = q)) as [<-|Hne].
    - rewrite He. simpl. rewrite bool_decide_true by reflexivity.
      rewrite orb_true_r. reflexivity.
    - rewrite bool_decide_false by exact Hne. rewrite orb_false_r.
      apply Hg. }
  destruct (IH (S i) s1 ltac:(lia) Hg1) as (s' & E & Hg' & Hwi' & Hws').
  exists s'. split; [apply E1; exact E|]. split; [exact Hg'|].
  split; congruence.
Qed.


Lemma Hall_arr i :
  i < c -> exists p e, arr !! i = Some (Some p) /\ es !! p = Some e.
Proof. intros Hi. destruct (Hall i Hi) as (p & e & H1 & H2 & _). eauto. Qed.

(** Lines 268-292, every event being signaled. *)
Lemma verify_group_total s :
  events s = es ->
  exists s', verify_group w arr c (Locals 0 thrd_success true) s
             = (Ok (Locals 0 thrd_success true), s')
    /\ group_state arr es c c s'
    /\ wait_info_mtx s' = wait_info_mtx s /\ waiters s' = waiters s.
Proof.
  intros Hev.
  assert (Hg : group_state arr es 0 0 s).
  { intros q. rewrite Hev, named_0. destruct (es !! q); reflexivity. }
  destruct (lock_events_total c 0 s eq_refl Hg) as (sL & EL & HgL & HwiL & HwsL).
  destruct (unlock_events_total c 0 sL eq_refl HgL)
    as (sU & EU & HgU & HwiU & HwsU).
  exists sU. split; [|split; [exact HgU|split; congruence]].
  unfold verify_group. simpl. rewrite (bind_ok _ _ _ _ _ EL).
  rewrite (bind_ok _ _ _ _ _ EU). reflexivity.
Qed.

(** Lines 222-348, waiting for all the events: one pass, no restart. *)
Lemma restart_wait_all_total fuel p_time p_idx rounds s :
  2 <= fuel ->
  wait_info_mtx s = false -> events s = es ->
  waiters_match arr es c 0 nobody nobody s ->
  exists s', restart_wait w fuel arr true p_time p_idx rounds c
               (Locals 0 thrd_success false) s
             = (Ok (Locals 0 thrd_success true), s')
    /\ group_state arr es c c s'
    /\ quiescent s' /\ no_proxy_running s'.
Proof.
  intros Hfuel Hwi Hev Hm.
  destruct (spawn_waiters_total w Hprim arr es c Hfree Hfair Honly Hall_arr
              fuel c 0 eq_refl s (conj Hwi (conj Hev Hm)))
    as (r & sB & EB & -> & HwiB & HevB & HmB).
  pose (sC := log (A_mtx_lock O_wait_info thrd_success)
                (set_wait_info_mtx true (set_tick (S (tick sB)) sB))).
  assert (EC : CHECK_THRD_ERR (mtx_lock w O_wait_info) sB = (Ok tt, sC)).
  { unfold CHECK_THRD_ERR, mtx_lock, mtx_of, next_status, modify, get, ret,
      bind. simpl. rewrite Hprim, HwiB. reflexivity. }
  assert (HmC : waiters_match arr es c c nobody (fun j => j < 0) sC).
  { destruct HmB as [Hlen Hws]. split; [exact Hlen|]. intros j x Hx.
    specialize (Hws j x Hx). destruct (j <? c); [|exact Hws].
    destruct Hws as (q & e' & F1 & F2 & F3 & F4 & F5 & F6).
    exists q, e'. do 4 (split; [assumption|]).
    split; [|exact F6]. destruct F5 as [F5|[[] _]]. left. exact F5. }
  destruct (scan_all_total fuel c 0 sC eq_refl eq_refl HevB HmC)
    as (sS & ES & HwiS & HevS & HmS).
  destruct (verify_group_total sS HevS) as (sD & ED & HgD & HwiD & HwsD).
  assert (HfrD : events_free sD).
  { intros q e'. rewrite (HgD q). destruct (es !! q) as [e|] eqn:Eq;
      [|discriminate]. simpl. intros [= <-].
    destruct (named arr c q); [reflexivity|apply (Hfree q e Eq)]. }
  assert (HrD : teardown_ready c sD).
  { apply (match_ready arr es c (fun j => j < c)); [exact HfrD| |].
    - intros p e He. rewrite (HgD p), He. simpl. eauto.
    - destruct HmS as [Hlen Hws]. split; rewrite HwsD; assumption. }
  destruct (teardown_total w c fuel Hprim Hfair Hfuel sD
              (conj HrD (eq_trans HwiD HwiS)))
    as ([] & sE & EE & HqE & HnE).
  pose proof (clean_up_threads_proxies_keep w (latches_are (latches sD)) Honly
                fuel c sD eq_refl) as HlaE.
  rewrite EE in HlaE.
  assert (HevE : events sE = events sD).
  { apply events_of_latches; [exact HlaE|apply HqE|exact HfrD]. }
  exists sE. split.
  - destruct rounds as [|rounds]; destruct fuel as [|fuel']; try lia.
    all: unfold restart_wait; fold (restart_wait w (S fuel') arr true p_time p_idx).
    all: rewrite (bind_ok _ _ _ _ _ EB); simpl.
    all: rewrite (bind_ok _ _ _ _ _ EC).
    all: simpl.
    all: erewrite bind_ok;
      [|erewrite bind_ok;
        [|erewrite bind_ok; [|exact ES]; simpl;
          erewrite bind_ok; [|exact ED]; reflexivity];
        reflexivity].
    all: erewrite bind_ok by exact EE; reflexivity.
  - split; [|split; [exact HqE|exact HnE]].
    intros q. rewrite HevE. apply HgD.
Qed.

End HappyAll.


(** * The claims *)

(** C8.  With count zero, [event_wait_multiple] returns success for every
    array pointer, null included, every deadline and both values of
    [wait_all]; it reads nothing through the array pointer: the events are
    untouched and the only action is the store of zero through a non-null
    out pointer. *)
Theorem event_wait_multiple_count_zero w fuel p_events wait_all p_time p_idx s :
  event_wait_multiple w fuel p_events 0 wait_all p_time p_idx s
  = (Ok 0%Z, if p_idx then log (A_set_idx 0) (set_idx 0 s) else s).
Proof. destruct p_idx; reflexivity. Qed.

(** C9, as stated, fails: in wait_any mode with a null out pointer and
    count zero the call succeeds. *)
Lemma wait_any_null_idx_count_zero_succeeds :
  fst (event_wait_multiple w_quiet 0 (Some []) 0 false None false (st_init []))
  = Ok 0%Z
  /\ fst (event_wait_multiple w_quiet 0 (Some []) 0 false None false (st_init []))
     <> Ok EINVAL.
Proof. split; [reflexivity|discriminate]. Qed.

(** C9, amended.  A null handle makes [event_signal], [event_reset],
    [event_pulse], [event_wait] and [event_init] return [EINVAL]; with a
    nonzero count, [event_wait_multiple] returns [EINVAL] for a null array
    and, in wait_any mode, for a null out pointer. *)
Theorem invalid_argument w s fuel p_events c_events wait_all p_time p_idx
    manual initial :
  c_events <> 0 ->
  event_signal w None s = (Ok EINVAL, s)
  /\ event_reset w None s = (Ok EINVAL, s)
  /\ event_pulse w None s = (Ok EINVAL, s)
  /\ event_wait w fuel None p_time s = (Ok EINVAL, s)
  /\ event_init w None manual initial s = (Ok EINVAL, s)
  /\ fst (event_wait_multiple w fuel None c_events wait_all p_time p_idx s)
     = Ok EINVAL
  /\ fst (event_wait_multiple w fuel p_events c_events false p_time false s)
     = Ok EINVAL.
Proof.
  intros Hc. repeat split; try reflexivity.
  - destruct c_events; [congruence|]. destruct p_idx; reflexivity.
  - destruct c_events; [congruence|]. destruct p_events; reflexivity.
Qed.

Lemma invalid_argument_witness :
  fst (event_wait_multiple w_quiet 3 None 2 true None true (st_init []))
  = Ok EINVAL.
Proof.
  refine (proj1 (proj2 (proj2 (proj2 (proj2 (proj2
    (invalid_argument w_quiet (st_init []) 3 None 2 true None true
       false false _))))))).
  lia.
Defined.

(** C7, as stated, fails: in wait_any mode with a null out pointer, count
    one gives [EINVAL] where [event_wait] on the signaled event succeeds. *)
Lemma count_one_wait_any_null_idx_differs :
  fst (event_wait_multiple w_quiet 0 (Some [Some 0]) 1 false None false
         (st_init [ev true false]))
  = Ok EINVAL
  /\ fst (event_wait w_quiet 0 (Some 0) None (st_init [ev true false]))
     = Ok 0%Z.
Proof. split; reflexivity. Qed.

(** C7, amended.  When the out pointer is not null or [wait_all] is set,
    [event_wait_multiple] on a single-element array with count one is
    [event_wait] on that event with the same deadline, run after the entry
    store of zero through a non-null out pointer; it returns what
    [event_wait] returns from the state of the call, and leaves the events,
    the mutexes and the threads as [event_wait] leaves them. *)
Theorem event_wait_multiple_count_one w fuel p wait_all p_time p_idx s :
  wait_all = true \/ p_idx = true ->
  event_wait_multiple w fuel (Some [p]) 1 wait_all p_time p_idx s
  = event_wait w fuel p p_time
      (if p_idx then log (A_set_idx 0) (set_idx 0 s) else s)
  /\ fst (event_wait_multiple w fuel (Some [p]) 1 wait_all p_time p_idx s)
     = fst (event_wait w fuel p p_time s)
  /\ core_eq
       (snd (event_wait_multiple w fuel (Some [p]) 1 wait_all p_time p_idx s))
       (snd (event_wait w fuel p p_time s)).
Proof.
  intros H.
  assert (E : event_wait_multiple w fuel (Some [p]) 1 wait_all p_time p_idx s
              = event_wait w fuel p p_time
                  (if p_idx then log (A_set_idx 0) (set_idx 0 s) else s)).
  { destruct H as [-> | ->].
    - destruct p_idx; reflexivity.
    - destruct wait_all; reflexivity. }
  split; [exact E|]. rewrite E.
  apply event_wait_sim. destruct p_idx; [apply core_eq_entry|].
  repeat split.
Qed.

Lemma event_wait_multiple_count_one_witness :
  event_wait_multiple w_quiet 0 (Some [Some 0]) 1 false None true
    (st_init [ev true false])
  = event_wait w_quiet 0 (Some 0) None
      (log (A_set_idx 0) (set_idx 0 (st_init [ev true false])))
  /\ fst (event_wait_multiple w_quiet 0 (Some [Some 0]) 1 false None true
            (st_init [ev true false]))
     = fst (event_wait w_quiet 0 (Some 0) None (st_init [ev true false]))
  /\ core_eq
       (snd (event_wait_multiple w_quiet 0 (Some [Some 0]) 1 false None true
               (st_init [ev true false])))
       (snd (event_wait w_quiet 0 (Some 0) None (st_init [ev true false]))).
Proof.
  apply (event_wait_multiple_count_one w_quiet 0 (Some 0) false None true).
  right; reflexivity.
Defined.







(** C10.  With a non-null out pointer, the first thing [event_wait_multiple]
    does is to store zero through it, before any validation or waiting.  On
    every return the pointed-to value is still zero, unless the call is a
    wait_any on two or more events and returns success: in wait_all mode,
    with count zero or one, on an invalid argument, on timeout and on a
    primitive failure it is zero. *)
Theorem idx_zero_on_return w fuel p_time p_arr c wait_all s r s' :
  event_wait_multiple w fuel p_arr c wait_all p_time true s = (Ok r, s') ->
  trace_extends (trace s ++ [(self s, A_set_idx 0)]) s'
  /\ (idx_signaled_event s' = 0 \/ (wait_all = false /\ r = 0%Z /\ 2 <= c)).
Proof.
  intros Hrun. split.
  { assert (H : hoare (fun s0 => s0 = s)
                  (event_wait_multiple w fuel p_arr c wait_all p_time true)
                  (fun _ => trace_extends (trace s ++ [(self s, A_set_idx 0)]))).
    2: { specialize (H s eq_refl). rewrite Hrun in H. exact H. }
    eapply hoare_bind
      with (R := fun _ => trace_extends (trace s ++ [(self s, A_set_idx 0)])).
    { intros s0 ->. simpl. exists []. rewrite app_nil_r. reflexivity. }
    intros _.
    match goal with |- hoare ?P ?run _ => change (preserves P run) end.
    pres. }
  assert (H : hoare (fun s0 => s0 = s)
                (event_wait_multiple w fuel p_arr c wait_all p_time true)
                (fun r s' => idx_signaled_event s' = 0
                             \/ (wait_all = false /\ r = 0%Z /\ 2 <= c))).
  2: { specialize (H s eq_refl). rewrite Hrun in H. exact H. }
  unfold event_wait_multiple.
  eapply hoare_bind with (R := fun _ => idx_zero_or False).
  { intros s0 _. simpl. left. reflexivity. }
  intros _.
  destruct c as [|[|c]]; simpl.
  - hstep. destruct H; auto. contradiction.
  - repeat hstep; try (destruct H; [auto|contradiction]).
    eapply hoare_conseq; [apply (event_wait_frame w (idx_zero_or False))|auto|].
    intros ? ? [?|[]]; auto.
  - repeat (lazymatch goal with
            | |- hoare _ (bind (restart_wait _ _ _ _ _ _ _ _ _) _) _ => fail
            | _ => hstep
            end);
      try (match goal with
           | H : idx_zero_or False _ |- _ => destruct H; [auto|contradiction]
           end).
    eapply hoare_bind.
    { apply restart_wait_idx. intros _. split; simpl; [reflexivity|].
      apply negb_is_success_false. assumption. }
    intros [e t b]. repeat hstep.
    + match goal with H : idx_zero_or _ _ |- _ => destruct H as [H|[Hw [He _]]] end;
        [left; exact H|].
      simpl in He. subst e. discriminate.
    + match goal with H : idx_zero_or _ _ |- _ => destruct H as [H|[Hw [He Ht]]] end;
        [left; exact H|].
      simpl in Ht. subst t. right. repeat split; [exact Hw|lia].
Qed.

Lemma idx_zero_on_return_witness :
  let out := event_wait_multiple w_run 1 (Some [Some 0; Some 1]) 2 false None
               true (st_init [ev false true; ev true true]) in
  trace_extends [(T_caller, A_set_idx 0)] (snd out)
  /\ (idx_signaled_event (snd out) = 0 \/ (false = false /\ 0%Z = 0%Z /\ 2 <= 2)).
Proof.
  apply (idx_zero_on_return w_run 1 None (Some [Some 0; Some 1]) 2 false
           (st_init [ev false true; ev true true]) 0%Z).
  vm_compute. reflexivity.
Defined.

(** C4.  [event_wait_multiple] never returns [ECANCELED], whatever the
    primitives and the other threads do: the exit code of a canceled proxy
    is never read. *)
Theorem event_wait_multiple_never_canceled w fuel p_events c_events wait_all
    p_time p_idx s :
  fst (event_wait_multiple w fuel p_events c_events wait_all p_time p_idx s)
  <> Ok ECANCELED.
Proof.
  assert (H : hoare any_state
                (event_wait_multiple w fuel p_events c_events wait_all p_time
                   p_idx)
                (fun r _ => r <> ECANCELED)).
  2: { specialize (H s Logic.I).
       destruct (event_wait_multiple w fuel p_events c_events wait_all p_time
                   p_idx s) as [[r|e] s']; simpl; congruence. }
  unfold event_wait_multiple.
  repeat (lazymatch goal with
          | |- hoare _ (bind (restart_wait _ _ _ _ _ _ _ _ _) _) _ => fail
          | |- hoare _ (event_wait _ _ _ _) _ => fail
          | _ => hstep
          end);
    try discriminate; try apply errno_not_canceled.
  - apply event_wait_not_canceled.
  - eapply hoare_bind.
    { eapply hoare_conseq; [apply restart_wait_not_canceled| |].
      - discriminate.
      - intros s0 _. exact Logic.I.
      - intros l0 s0 H. exact H. }
    intros [e t b]; cbv beta.
    eapply hoare_conseq with (P' := fun s => any_state s /\ e <> ECANCELED)
      (Q' := fun r _ => r <> ECANCELED); [|intros s0 H; split; [exact Logic.I|exact H]|auto].
    apply hoare_pure_pre. intros He.
    repeat hstep; [exact He|apply errno_not_canceled].
Qed.

(** A canceled proxy at work: the rendezvous wait times out, both proxies
    are canceled and return [ECANCELED], and the call returns
    [ETIMEDOUT]. *)
Example canceled_proxies_timeout :
  let out := event_wait_multiple
               (w_fail_at 19 thrd_timedout [ProxyRun 0; ProxyRun 1]) 5
               (Some [Some 0; Some 1]) 2 false (Some 5%Z) true
               (st_init [ev false false; ev false false]) in
  fst out = Ok ETIMEDOUT
  /\ map thrd (waiters (snd out)) = [thrd_exit ECANCELED; thrd_exit ECANCELED]
  /\ map canceled (waiters (snd out)) = [true; true].
Proof. vm_compute. repeat split. Qed.




(** ** The spawn-failure path (lines 231-236) *)

(** Whatever the fuel, the call is still inside [thrd_join] on proxy 0. *)
Lemma spawn_failure_join_never_returns fuel :
  fst (event_wait_multiple w_spawn_fail fuel (Some [Some 0; Some 1]) 2 false
         None true (st_init [ev false false; ev false false]))
  = Stop NoFuel.
Proof.
  destruct fuel as [|fuel]; [vm_compute; reflexivity|].
  unfold event_wait_multiple.
  run_head. cbn [Nat.eqb negb andb calloc_ok w_spawn_fail w_fail_at].
  do 3 run_head. cbn [negb is_success].
  do 2 run_head. cbn [negb is_success].
  apply bind_stop_fst. cbn [restart_wait].
  apply bind_stop_fst. cbn [spawn_waiters].
  do 5 run_head. cbn [is_success].
  do 5 run_head. cbn [is_success].
  apply bind_stop_fst. unfold join_spawned. cbn [for_loop].
  do 2 apply bind_stop_fst.
  apply (thrd_join_blocks (S fuel) 0).
Qed.

(** C2 fails on the code.  Two unsignaled events; [thrd_create] of the
    second proxy fails.  The caller goes straight to [thrd_join] on proxy 0,
    having neither set [canceled] nor broadcast a condvar; proxy 0 is asleep
    in [cnd_wait] on its unsignaled event, and whatever the fuel the call is
    still blocked in that join. *)
Theorem spawn_failure_joins_without_cancel :
  (forall fuel,
     fst (event_wait_multiple w_spawn_fail fuel (Some [Some 0; Some 1]) 2
            false None true (st_init [ev false false; ev false false]))
     = Stop NoFuel)
  /\ let out := event_wait_multiple w_spawn_fail 3 (Some [Some 0; Some 1]) 2
                  false None true (st_init [ev false false; ev false false]) in
     In (T_caller, A_thrd_create 1 thrd_nomem) (trace (snd out))
     /\ existsb caller_cancels (trace (snd out)) = false
     /\ waiters (snd out) = waiters_spawn_fail.
Proof.
  split; [exact spawn_failure_join_never_returns|].
  vm_compute. repeat split.
  repeat (first [left; reflexivity | right]).
Qed.

(** ** The restart of wait_all (lines 270-291 and 347-348) *)

(** C1 fails on the code.  Group verification that observes an event
    unsignaled breaks out of the locking loop with that event's mutex held
    and [locked] equal to its index; the unlock loop releases the mutexes
    below [locked] only.  Seen on the verification alone, with the
    unsignaled event first and second in the array, and on a whole call:
    the wait does restart (proxy 0 is created twice), but after the restart
    the respawned proxy 0 cannot lock its event, and when
    the rendezvous wait times out the caller locks the mutex it still holds
    in teardown and never returns. *)
Theorem restart_keeps_unsignaled_mutex_locked :
  (let out := verify_group w_quiet [Some 0; Some 1] 2
                (Locals 0 thrd_success true)
                (st_init [ev false false; ev true false]) in
   fst out = Ok (Locals 0 thrd_success false)
   /\ events (snd out) = [Event true false false; ev true false]
   /\ trace (snd out) = [(T_caller, A_mtx_lock (O_event 0) thrd_success)])
  /\ (let out := verify_group w_quiet [Some 0; Some 1] 2
                   (Locals 0 thrd_success true)
                   (st_init [ev true false; ev false false]) in
      fst out = Ok (Locals 0 thrd_success false)
      /\ events (snd out) = [ev true false; Event true false false]
      /\ trace (snd out)
         = [(T_caller, A_mtx_lock (O_event 0) thrd_success);
            (T_caller, A_mtx_lock (O_event 1) thrd_success);
            (T_caller, A_mtx_unlock (O_event 0) thrd_success)])
  /\ (let out := event_wait_multiple w_restart 3 (Some [Some 0; Some 1]) 2
                   true (Some 5%Z) true
                   (st_init [ev true false; ev true false]) in
      fst out = Stop Stuck
      /\ events (snd out) = [Event true false false; ev true false]
      /\ map thrd (waiters (snd out)) = [thrd_start; thrd_exit 0]
      /\ length (List.filter (caller_creates 0) (trace (snd out))) = 2
      /\ In (T_caller, A_mtx_lock (O_event 0) thrd_success) (trace (snd out))
      /\ existsb (caller_unlocks 0) (trace (snd out)) = false).
Proof.
  vm_compute. repeat split.
  repeat (first [left; reflexivity | right]).
Qed.

(** * Further properties of the code *)

(** ** The single-event operations *)

(** X1.  [event_init] on a non-null event is all or nothing: it returns the
    errno image of the first failing primitive ([mtx_init], then
    [cnd_init]), zero if none fails; the event gets its initial state and
    reset mode only if both succeed and is left as it was otherwise; no
    other event is touched; and the mutex is destroyed again exactly when
    [mtx_init] succeeded and [cnd_init] failed. *)
Theorem event_init_all_or_nothing w p e s manual initial
    (r1 := prim w (tick s)) (r2 := prim w (S (tick s))) :
  events s !! p = Some e ->
  let out := event_init w (Some p) manual initial s in
  fst out = Ok (_thrd_status_to_errno (if is_success r1 then r2 else r1))
  /\ events (snd out) !! p
     = Some (if is_success r1 && is_success r2
             then Event false initial manual else e)
  /\ (forall q, q <> p -> events (snd out) !! q = events s !! q)
  /\ trace (snd out)
     = trace s ++ (self s, A_mtx_init (O_event p) r1)
       :: (if is_success r1
           then (self s, A_cnd_init (O_event p) r2)
                :: (if is_success r2 then []
                    else [(self s, A_mtx_destroy (O_event p))])
           else []).
Proof.
  intros He. destruct s as [es wm ws ix t me tr]. simpl in *. subst r1 r2.
  unfold_init. simpl. rewrite He. simpl.
  destruct (prim w t) eqn:H1; simpl;
    try (repeat split; auto; rewrite <- ?app_assoc; reflexivity).
  destruct (prim w (S t)) eqn:H2; simpl;
    try (repeat split; auto; rewrite <- ?app_assoc; reflexivity).
  rewrite list_lookup_alter_eq, He. simpl. repeat split.
  - intros q Hq. rewrite list_lookup_alter_ne by congruence. reflexivity.
  - rewrite <- !app_assoc. reflexivity.
Qed.

(** A failing [cnd_init]: the error is returned, the event is untouched,
    the mutex is destroyed again. *)
Lemma event_init_all_or_nothing_witness :
  let out := event_init (w_fail_at 1 thrd_nomem []) (Some 0) true true
               (st_init [ev false false]) in
  fst out = Ok ENOMEM
  /\ events (snd out) !! 0 = Some (ev false false)
  /\ (forall q, q <> 0 -> events (snd out) !! q = [ev false false] !! q)
  /\ trace (snd out)
     = [(T_caller, A_mtx_init (O_event 0) thrd_success);
        (T_caller, A_cnd_init (O_event 0) thrd_nomem);
        (T_caller, A_mtx_destroy (O_event 0))].
Proof.
  apply (event_init_all_or_nothing (w_fail_at 1 thrd_nomem []) 0
           (ev false false) (st_init [ev false false]) true true).
  reflexivity.
Defined.

(** X2.  [event_reset] on a non-null event whose mutex is free: if the lock
    fails nothing changes and its error is returned; otherwise the latch is
    cleared, no condition variable is notified, and the status of the
    unlock is returned; an unlock that fails leaves the mutex held. *)
Theorem event_reset_clears_silently w p e s
    (r1 := prim w (tick s)) (r2 := prim w (S (tick s))) :
  events s !! p = Some e -> mtx e = false ->
  let out := event_reset w (Some p) s in
  fst out = Ok (_thrd_status_to_errno (if is_success r1 then r2 else r1))
  /\ events (snd out) !! p
     = Some (if is_success r1
             then Event (negb (is_success r2)) false (is_manual_reset e)
             else e)
  /\ trace (snd out)
     = trace s ++ (self s, A_mtx_lock (O_event p) r1)
       :: (if is_success r1
           then [(self s, A_set_signaled p false);
                 (self s, A_mtx_unlock (O_event p) r2)]
           else []).
Proof.
  intros He Hm. destruct s as [es wm ws ix t me tr]. simpl in *. subst r1 r2.
  unfold_run.
  destruct (prim w t) eqn:H1, (prim w (S t)) eqn:H2;
    repeat (simpl; rewrite ?list_lookup_alter_eq, ?He, ?Hm, ?H1, ?H2);
    rewrite <- ?app_assoc; auto.
Qed.

Lemma event_reset_clears_silently_witness :
  let out := event_reset w_quiet (Some 0) (st_init [ev true true]) in
  fst out = Ok 0%Z
  /\ events (snd out) !! 0 = Some (ev false true)
  /\ trace (snd out)
     = [(T_caller, A_mtx_lock (O_event 0) thrd_success);
        (T_caller, A_set_signaled 0 false);
        (T_caller, A_mtx_unlock (O_event 0) thrd_success)].
Proof.
  apply (event_reset_clears_silently w_quiet 0 (ev true true)
           (st_init [ev true true])); reflexivity.
Defined.

(** X3.  [event_pulse] on a non-null event whose mutex is free and whose
    first lock succeeds: it returns the errno image of the first failure
    among the notification, the first unlock, the second lock and the
    second unlock.  The latch ends up cleared only if the notification, the
    first unlock and the second lock all succeed; in every other case the
    pulse leaves the event signaled. *)
Theorem event_pulse_outcome w p e s
    (r1 := prim w (S (tick s))) (r2 := prim w (S (S (tick s))))
    (r3 := prim w (S (S (S (tick s)))))
    (r4 := prim w (S (S (S (S (tick s)))))) :
  events s !! p = Some e -> mtx e = false -> prim w (tick s) = thrd_success ->
  let out := event_pulse w (Some p) s in
  let signaled_ok := is_success r1 && is_success r2 in
  fst out = Ok (_thrd_status_to_errno
                  (if is_success r1 then
                     if is_success r2 then
                       if is_success r3 then r4 else r3
                     else r2
                   else r1))
  /\ (signaled <$> events (snd out) !! p)
     = Some (negb (signaled_ok && is_success r3)).
Proof.
  intros He Hm Hl. destruct s as [es wm ws ix t me tr]. simpl in *.
  subst r1 r2 r3 r4. unfold_init.
  destruct (is_manual_reset e) eqn:Hman, (prim w (S t)) eqn:H1,
    (prim w (S (S t))) eqn:H2;
    repeat (simpl; rewrite ?list_lookup_alter_eq, ?He, ?Hl, ?Hm, ?H1, ?H2, ?Hman);
    auto.
  all: destruct (prim w (S (S (S t)))) eqn:H3, (prim w (S (S (S (S t))))) eqn:H4;
    repeat (simpl; rewrite ?list_lookup_alter_eq, ?He, ?Hl, ?Hm, ?H1, ?H2, ?H3,
              ?H4, ?Hman);
    auto.
Qed.

(** A pulse whose notification fails leaves the event signaled. *)
Lemma event_pulse_outcome_witness :
  let out := event_pulse (w_fail_at 1 thrd_error []) (Some 0)
               (st_init [ev false false]) in
  fst out = Ok (-1)%Z
  /\ (signaled <$> events (snd out) !! 0) = Some true.
Proof.
  apply (event_pulse_outcome (w_fail_at 1 thrd_error []) 0 (ev false false)
           (st_init [ev false false])); reflexivity.
Defined.

(** X4.  [event_signal] followed by [event_wait] on the same event, with
    a free mutex and no primitive failing, returns success without ever
    waiting on the condition variable, whatever the deadline: the wait
    finds the latch set, takes it if the event is auto-reset, and the
    event ends up signaled exactly if it is manual-reset. *)
Theorem signal_then_wait_does_not_block w fuel p p_time e s :
  events s !! p = Some e -> mtx e = false ->
  (forall k, k < 5 -> prim w (k + tick s) = thrd_success) ->
  let out := (_ <- event_signal w (Some p);;
              event_wait w fuel (Some p) p_time) s in
  fst out = Ok 0%Z
  /\ events (snd out) !! p
     = Some (Event false (is_manual_reset e) (is_manual_reset e))
  /\ tick (snd out) = 5 + tick s
  /\ trace (snd out)
     = trace s ++
       [(self s, A_mtx_lock (O_event p) thrd_success);
        (self s, A_set_signaled p true);
        (self s, if is_manual_reset e
                 then A_cnd_broadcast (O_event p) thrd_success
                 else A_cnd_signal (O_event p) thrd_success);
        (self s, A_mtx_unlock (O_event p) thrd_success);
        (self s, A_mtx_lock (O_event p) thrd_success)]
       ++ (if is_manual_reset e then []
           else [(self s, A_set_signaled p false)])
       ++ [(self s, A_mtx_unlock (O_event p) thrd_success)].
Proof.
  intros He Hm Hp. destruct s as [es wm ws ix t me tr]. simpl in *.
  pose proof (Hp 0 ltac:(lia)) as H0. pose proof (Hp 1 ltac:(lia)) as H1.
  pose proof (Hp 2 ltac:(lia)) as H2. pose proof (Hp 3 ltac:(lia)) as H3.
  pose proof (Hp 4 ltac:(lia)) as H4. simpl in H0, H1, H2, H3, H4. clear Hp.
  unfold_run.
  destruct (is_manual_reset e) eqn:Hman, fuel;
    repeat (simpl; unfold_run;
            rewrite ?list_lookup_alter_eq, ?He, ?Hm, ?H0, ?H1, ?H2, ?H3, ?H4,
              ?Hman);
    rewrite <- ?app_assoc; auto.
Qed.

Lemma signal_then_wait_does_not_block_witness :
  let out := (_ <- event_signal w_quiet (Some 0);;
              event_wait w_quiet 0 (Some 0) None) (st_init [ev false false]) in
  fst out = Ok 0%Z
  /\ events (snd out) !! 0 = Some (ev false false)
  /\ tick (snd out) = 5
  /\ trace (snd out)
     = [(T_caller, A_mtx_lock (O_event 0) thrd_success);
        (T_caller, A_set_signaled 0 true);
        (T_caller, A_cnd_signal (O_event 0) thrd_success);
        (T_caller, A_mtx_unlock (O_event 0) thrd_success);
        (T_caller, A_mtx_lock (O_event 0) thrd_success);
        (T_caller, A_set_signaled 0 false);
        (T_caller, A_mtx_unlock (O_event 0) thrd_success)].
Proof.
  apply (signal_then_wait_does_not_block w_quiet 0 0 None (ev false false)
           (st_init [ev false false])); [reflexivity|reflexivity|].
  intros k _. reflexivity.
Defined.

(** X5.  Whenever [event_wait] on a non-null event returns success,
    however long it waited and whatever the other threads did meanwhile,
    it leaves the event's mutex free and the latch taken: cleared if the
    event is auto-reset, set if it is manual-reset. *)
Theorem event_wait_success_consumes w fuel p p_time s s' :
  event_wait w fuel (Some p) p_time s = (Ok 0%Z, s') ->
  exists e, events s' !! p = Some e
            /\ signaled e = is_manual_reset e /\ mtx e = false.
Proof.
  unfold event_wait. intros H.
  apply bind_inv in H as (ts & s1 & _ & H).
  apply bind_inv in H as (ts' & s2 & H & Hr).
  injection Hr as Hr <-. apply errno_zero in Hr. subst ts'.
  destruct (is_success ts) eqn:Hts;
    [|unfold ret in H; injection H as Hx _; subst ts; discriminate].
  apply bind_inv in H as (ts1 & s3 & Hloop & H).
  apply bind_inv in H as (ts2 & s4 & Hun & H).
  injection H as H <-.
  assert (Hts1 : is_success ts1 = true).
  { destruct (is_success ts1) eqn:E; [reflexivity|]. subst ts1. discriminate E. }
  rewrite Hts1 in H. subst ts2.
  destruct (event_wait_loop_success _ _ _ _ _ _ _ _ Hloop Hts Hts1)
    as (e & He & Hsig).
  unfold mtx_unlock, bind, get, mtx_of, next_status, modify in Hun.
  rewrite He in Hun. simpl in Hun.
  destruct (prim w (tick s3)) eqn:Hp; simpl in Hun; try discriminate.
  injection Hun as <-. simpl. rewrite list_lookup_alter_eq, He. simpl.
  eexists. split; [reflexivity|]. simpl. auto.
Qed.

(** A wait that first sleeps on the condition variable, while another
    thread sets the latch. *)
Lemma event_wait_success_consumes_witness :
  exists e,
    events (snd (event_wait (World (fun _ => thrd_success)
                               (fun _ => [ExtStore 0 true]) true)
                   1 (Some 0) None (st_init [ev false false]))) !! 0 = Some e
    /\ signaled e = is_manual_reset e /\ mtx e = false.
Proof.
  apply (event_wait_success_consumes
           (World (fun _ => thrd_success) (fun _ => [ExtStore 0 true]) true)
           1 0 None (st_init [ev false false])).
  vm_compute. reflexivity.
Defined.

(** X16.  A wait on the condition variable that fails, a timeout
    included, ends [event_wait] without another look at the latch: when
    [event_wait] finds the event unsignaled, and another thread stores [b]
    in the latch while it waits, and the wait then fails with [r], it
    returns the errno image of [r] and leaves the latch at [b].  So a
    signal that arrives together with the timeout is not taken, even on an
    auto-reset event: the call returns [ETIMEDOUT] and the event stays
    signaled. *)
Theorem event_wait_failed_wait_keeps_signal w fuel p p_time e b s
    (r := prim w (S (S (tick s)))) (r2 := prim w (S (S (S (tick s))))) :
  events s !! p = Some e -> mtx e = false -> signaled e = false ->
  prim w (tick s) = thrd_success ->
  sched w (S (tick s)) = [ExtStore p b] ->
  is_success r = false ->
  let out := event_wait w fuel (Some p) p_time s in
  fst out = Ok (_thrd_status_to_errno r)
  /\ events (snd out) !! p
     = Some (Event (negb (is_success r2)) b (is_manual_reset e)).
Proof.
  intros He Hm Hsig Hl Hsched Hr.
  destruct s as [es wm ws ix t me tr]. simpl in *. subst r r2.
  destruct fuel, p_time, (prim w (S (S (S t)))) eqn:H2;
    repeat (simpl;
            unfold cnd_wait_until, cnd_wait, cnd_timedwait, yield, run_env,
              run_env_action, halt;
            unfold_run;
            rewrite ?list_lookup_alter_eq, ?He, ?Hm, ?Hl, ?Hsig, ?Hsched, ?Hr,
              ?H2);
    auto.
Qed.

(** A signal that arrives with the timeout. *)
Lemma event_wait_failed_wait_keeps_signal_witness :
  let w := World (fun t => if t =? 2 then thrd_timedout else thrd_success)
             (fun _ => [ExtStore 0 true]) true in
  let out := event_wait w 3 (Some 0) (Some 5%Z) (st_init [ev false false]) in
  fst out = Ok ETIMEDOUT
  /\ events (snd out) !! 0 = Some (ev true false).
Proof.
  apply (event_wait_failed_wait_keeps_signal
           (World (fun t => if t =? 2 then thrd_timedout else thrd_success)
              (fun _ => [ExtStore 0 true]) true)
           3 0 (Some 5%Z) (ev false false) true (st_init [ev false false]));
    reflexivity.
Defined.

(** ** The proxy threads *)

(** X6.  One burst of a proxy whose event mutex and rendezvous mutex are
    free, with no primitive failing.  The burst never writes the event: it
    leaves both mutexes free and the latch as it was.  A proxy in its first
    burst returns 0 and sets [done] if the event is signaled, and goes to
    sleep otherwise; it does not look at [canceled], so a proxy that was
    canceled before it ran goes to sleep all the same.  A proxy that wakes
    up returns [ECANCELED] if it has been canceled, even when the event is
    signaled; else it returns 0 if the event is signaled; else it goes back
    to sleep. *)
Theorem proxy_burst_outcome w i p wt e s :
  waiters s !! i = Some wt -> p_event wt = Some p ->
  events s !! p = Some e -> mtx e = false -> wait_info_mtx s = false ->
  (forall k, k < 7 -> prim w (k + tick s) = thrd_success) ->
  let out := _event_wait_helper w i s in
  fst out = Ok tt
  /\ events (snd out) !! p = Some e
  /\ wait_info_mtx (snd out) = false
  /\ (thrd wt = thrd_start ->
      waiters (snd out) !! i
      = Some (if signaled e
              then Waiter (thrd_exit 0) (Some p) (joinable wt) (canceled wt) true
              else Waiter thrd_sleep (Some p) (joinable wt) (canceled wt) (done wt)))
  /\ (thrd wt = thrd_sleep ->
      waiters (snd out) !! i
      = Some (if canceled wt
              then Waiter (thrd_exit ECANCELED) (Some p) (joinable wt) true true
              else if signaled e
              then Waiter (thrd_exit 0) (Some p) (joinable wt) false true
              else Waiter thrd_sleep (Some p) (joinable wt) false (done wt))).
Proof.
  intros Hw Hp He Hm Hwi Hprim.
  destruct s as [es wm ws ix t me tr]. simpl in *. subst wm.
  pose proof (Hprim 0 ltac:(lia)) as H0. pose proof (Hprim 1 ltac:(lia)) as H1.
  pose proof (Hprim 2 ltac:(lia)) as H2. pose proof (Hprim 3 ltac:(lia)) as H3.
  pose proof (Hprim 4 ltac:(lia)) as H4. pose proof (Hprim 5 ltac:(lia)) as H5.
  pose proof (Hprim 6 ltac:(lia)) as H6.
  simpl in H0, H1, H2, H3, H4, H5, H6. clear Hprim.
  destruct wt as [th pe jo ca dn]. simpl in *. subst pe.
  destruct th, ca, (signaled e) eqn:Hsig; unfold_helper;
    repeat (simpl; unfold_helper;
            rewrite ?list_lookup_alter_eq, ?Hw, ?He, ?Hm, ?H0, ?H1, ?H2, ?H3,
              ?H4, ?H5, ?H6, ?Hsig);
    repeat split; try discriminate; auto;
    destruct e; simpl in *; subst; auto.
Qed.

(** A canceled proxy wakes up next to a signaled event. *)
Lemma proxy_burst_outcome_witness :
  let out := _event_wait_helper w_quiet 0
               (State [ev true false] false
                  [Waiter thrd_sleep (Some 0) true true false] 7 0 T_caller
                  []) in
  fst out = Ok tt
  /\ events (snd out) !! 0 = Some (ev true false)
  /\ waiters (snd out) !! 0
     = Some (Waiter (thrd_exit ECANCELED) (Some 0) true true true).
Proof.
  destruct (proxy_burst_outcome w_quiet 0 0
              (Waiter thrd_sleep (Some 0) true true false) (ev true false)
              (State [ev true false] false
                 [Waiter thrd_sleep (Some 0) true true false] 7 0 T_caller [])
              eq_refl eq_refl eq_refl eq_refl eq_refl
              (fun k _ => eq_refl))
    as (H1 & H2 & _ & _ & H5).
  split; [exact H1|]. split; [exact H2|]. apply H5. reflexivity.
Defined.



(** ** The group verification of wait_all *)



(** X9.  A wait_all on two or more events that returns success went
    through a group verification that held the mutexes of all the events
    at once, found every one of them signaled, and consumed them together:
    after it each auto-reset event is cleared and each manual-reset event
    is still set. *)
Theorem wait_all_success_consumes_group w fuel arr c p_time p_idx s s' :
  2 <= c ->
  event_wait_multiple w fuel (Some arr) c true p_time p_idx s = (Ok 0%Z, s') ->
  exists l1 s1 l2 s2 s3,
    verify_group w arr c l1 s1 = (Ok l2, s2)
    /\ clean_up_threads w fuel c s2 = (Ok tt, s3)
    /\ s' = log A_free (log (A_mtx_destroy O_wait_info)
                          (log (A_cnd_destroy O_wait_info) s3))
    /\ only_consumed s1 s2
    /\ forall k, k < c ->
         exists p e e', arr !! k = Some (Some p)
           /\ events s1 !! p = Some e /\ signaled e = true
           /\ events s2 !! p = Some e'
           /\ signaled e' = is_manual_reset e
           /\ is_manual_reset e' = is_manual_reset e.
Proof.
  intros Hc H. destruct c as [|[|c]]; try lia. clear Hc.
  unfold event_wait_multiple in H.
  apply bind_inv in H as ([] & s0 & _ & H). simpl in H.
  destruct (negb (calloc_ok w)).
  { apply bind_inv in H as ([] & ? & _ & H). discriminate. }
  apply bind_inv in H as ([] & ? & _ & H).
  apply bind_inv in H as ([] & ? & _ & H).
  apply bind_inv in H as (ts & ? & _ & H).
  destruct (negb (is_success ts)) eqn:Hts.
  { apply bind_inv in H as ([] & ? & _ & H). injection H as H _.
    apply errno_zero in H. subst ts. discriminate. }
  apply bind_inv in H as ([] & ? & _ & H).
  apply bind_inv in H as (ts' & ? & _ & H).
  destruct (negb (is_success ts')) eqn:Hts'.
  { apply bind_inv in H as ([] & ? & _ & H).
    apply bind_inv in H as ([] & ? & _ & H). injection H as H _.
    apply errno_zero in H. subst ts'. discriminate. }
  apply bind_inv in H as ([e t b] & sr & Hr & H).
  apply bind_inv in H as ([] & sa & Ha & H).
  apply bind_inv in H as ([] & sb & Hb & H).
  apply bind_inv in H as ([] & sc & Hcc & H).
  assert (Hl : no_failure (Locals e t b)).
  { destruct (negb (e =? 0)%Z) eqn:He; simpl in H; injection H as H _.
    - subst e. discriminate.
    - split; simpl; [|apply errno_zero; exact H].
      apply Z.eqb_eq. destruct (e =? 0)%Z; [reflexivity|discriminate]. }
  destruct (restart_wait_all_success _ _ _ _ _ _ _ _ _ _ _ Hr Hl)
    as (l1 & s1 & s2 & Hv & Hall & Hclean).
  destruct (verify_group_locked _ _ _ _ _ _ _ Hv Hall)
    as (locked & Hle & Hfail & Hoc & Hk).
  assert (Hlocked : locked = S (S c)).
  { destruct (decide (locked < S (S c))) as [Hlt|]; [|lia].
    specialize (Hfail Hlt). rewrite (proj2 Hl) in Hfail. discriminate. }
  subst locked.
  exists l1, s1, (Locals e t b), s2, sr.
  split; [exact Hv|]. split; [exact Hclean|]. split; [|split; assumption].
  unfold cnd_destroy, mtx_destroy, modify in *.
  injection Ha as <-. injection Hb as <-. injection Hcc as <-.
  destruct (negb (e =? 0)%Z); simpl in H; injection H as _ <-; reflexivity.
Qed.

Lemma wait_all_success_consumes_group_witness :
  let s := st_init [ev true false; ev true true] in
  let s' := snd (event_wait_multiple w_run 5 (Some [Some 0; Some 1]) 2 true
                   None true s) in
  events s' = [ev false false; ev true true]
  /\ exists l1 s1 l2 s2 s3,
       verify_group w_run [Some 0; Some 1] 2 l1 s1 = (Ok l2, s2)
       /\ clean_up_threads w_run 5 2 s2 = (Ok tt, s3)
       /\ s' = log A_free (log (A_mtx_destroy O_wait_info)
                             (log (A_cnd_destroy O_wait_info) s3))
       /\ only_consumed s1 s2
       /\ forall k, k < 2 ->
            exists p e e', [Some 0; Some 1] !! k = Some (Some p)
              /\ events s1 !! p = Some e /\ signaled e = true
              /\ events s2 !! p = Some e'
              /\ signaled e' = is_manual_reset e
              /\ is_manual_reset e' = is_manual_reset e.
Proof.
  split; [vm_compute; reflexivity|].
  apply (wait_all_success_consumes_group w_run 5 [Some 0; Some 1] 2 None true
           (st_init [ev true false; ev true true])).
  - lia.
  - vm_compute. reflexivity.
Defined.

(** ** The values of the call *)

(** X10.  Whatever the primitives return and the other threads do, a call
    of [event_wait_multiple] that returns returns 0, [EINVAL], or the errno
    image of a thread status: [ENOMEM], [ETIMEDOUT], [EBUSY] or -1.  The
    exit code of a proxy, the only other value that reaches [err], is
    itself such an image or [ECANCELED], and the latter is never read. *)
Theorem event_wait_multiple_return_codes w fuel p_events c_events wait_all
    p_time p_idx s r s' :
  event_wait_multiple w fuel p_events c_events wait_all p_time p_idx s
  = (Ok r, s') ->
  r = 0%Z \/ r = EINVAL \/ r = ENOMEM \/ r = ETIMEDOUT \/ r = EBUSY
  \/ r = (-1)%Z.
Proof.
  intros H.
  assert (Hi : errno_image r \/ r = EINVAL);
    [|unfold errno_image in Hi; tauto].
  unfold event_wait_multiple in H.
  apply bind_inv in H as ([] & s0 & _ & H).
  destruct (c_events =? 0); [injection H as <- _; left; left; reflexivity|].
  destruct p_events as [arr|]; [|injection H as <- _; right; reflexivity].
  destruct (negb wait_all && negb p_idx);
    [injection H as <- _; right; reflexivity|].
  destruct (c_events =? 1).
  { apply bind_inv in H as (po & s1 & _ & H).
    destruct po as [p|]; [|injection H as <- _; right; reflexivity].
    pose proof (event_wait_errno_image w fuel p p_time s1 Logic.I) as Hw.
    rewrite H in Hw. left. exact Hw. }
  destruct (negb (calloc_ok w)).
  { apply bind_inv in H as ([] & ? & _ & H). injection H as <- _.
    left. right. left. reflexivity. }
  apply bind_inv in H as ([] & sa & _ & H).
  apply bind_inv in H as ([] & s1 & Hw & H).
  apply bind_inv in H as (ts & sb & Hmi & H).
  destruct (negb (is_success ts)).
  { apply bind_inv in H as ([] & ? & _ & H). injection H as <- _.
    left. apply errno_image_status. }
  apply bind_inv in H as ([] & s2 & Hm & H).
  apply bind_inv in H as (ts' & s3 & Hc & H).
  destruct (negb (is_success ts')).
  { apply bind_inv in H as ([] & ? & _ & H).
    apply bind_inv in H as ([] & ? & _ & H). injection H as <- _.
    left. apply errno_image_status. }
  apply bind_inv in H as ([e t b] & sr & Hr & H).
  apply bind_inv in H as ([] & ? & _ & H).
  apply bind_inv in H as ([] & ? & _ & H).
  apply bind_inv in H as ([] & ? & _ & H).
  left.
  destruct (negb (e =? 0)%Z); simpl in H; injection H as <- _;
    [|apply errno_image_status].
  assert (Hs3 : exit_codes s3).
  { unfold modify in Hw. injection Hw as <-.
    assert (Hs1 : exit_codes
                    (set_waiters (fun _ => replicate c_events waiter_zero) sa)).
    { intros j wt z Hj. simpl in Hj.
      apply lookup_replicate in Hj as [-> _]. discriminate. }
    pose proof (mtx_init_frame w exit_codes O_wait_info _ Hs1) as H1.
    rewrite Hmi in H1. unfold modify in Hm. injection Hm as <-.
    pose proof (cnd_init_frame w exit_codes O_wait_info _
                  (frame_wait_info_mtx false _ H1)) as H2.
    rewrite Hc in H2. exact H2. }
  pose proof (restart_wait_exit_codes w fuel arr wait_all p_time p_idx fuel
                c_events (Locals 0 ts' false)
                (or_introl (or_introl eq_refl)) s3 Hs3) as Hcode.
  pose proof (restart_wait_not_canceled w fuel arr wait_all p_time p_idx fuel
                c_events (Locals 0 ts' false) ltac:(discriminate) s3 Logic.I)
    as Hnc.
  rewrite Hr in Hcode, Hnc. simpl in Hcode, Hnc.
  destruct Hcode as [Hcode|Hcode]; [exact Hcode|contradiction].
Qed.

(** A wait_any whose rendezvous wait times out. *)
Lemma event_wait_multiple_return_codes_witness :
  let out := event_wait_multiple
               (w_fail_at 19 thrd_timedout [ProxyRun 0; ProxyRun 1]) 5
               (Some [Some 0; Some 1]) 2 false (Some 5%Z) true
               (st_init [ev false false; ev false false]) in
  fst out = Ok ETIMEDOUT
  /\ (ETIMEDOUT = 0%Z \/ ETIMEDOUT = EINVAL \/ ETIMEDOUT = ENOMEM
      \/ ETIMEDOUT = ETIMEDOUT \/ ETIMEDOUT = EBUSY \/ ETIMEDOUT = (-1)%Z).
Proof.
  split; [vm_compute; reflexivity|].
  apply (event_wait_multiple_return_codes
           (w_fail_at 19 thrd_timedout [ProxyRun 0; ProxyRun 1]) 5
           (Some [Some 0; Some 1]) 2 false (Some 5%Z) true
           (st_init [ev false false; ev false false]) ETIMEDOUT
           (snd (event_wait_multiple
                   (w_fail_at 19 thrd_timedout [ProxyRun 0; ProxyRun 1]) 5
                   (Some [Some 0; Some 1]) 2 false (Some 5%Z) true
                   (st_init [ev false false; ev false false])))).
  vm_compute. reflexivity.
Defined.

(** ** What is never written *)

(** X11.  A burst of a proxy never writes an event, whatever its
    primitives return and whatever state it runs in: when the burst is
    over, the latch and the reset mode of every event are what they were.
    Only the coordinator and the single-event operations consume. *)
Theorem proxy_never_writes_events w i s s' :
  _event_wait_helper w i s = (Ok tt, s') -> latches s' = latches s.
Proof.
  intros H.
  pose proof (_event_wait_helper_keep w (latches_are (latches s)) i s eq_refl)
    as Hk.
  rewrite H in Hk. exact Hk.
Qed.

(** A proxy whose [cnd_wait] fails. *)
Lemma proxy_never_writes_events_witness :
  let s := State [ev true false] false
             [Waiter thrd_sleep (Some 0) true false false] 7 0 T_caller [] in
  let s' := snd (_event_wait_helper (w_fail_at 0 thrd_error []) 0 s) in
  waiters s' !! 0 = Some (Waiter (thrd_exit (-1)) (Some 0) true false true)
  /\ latches s' = [(true, false)].
Proof.
  split; [vm_compute; reflexivity|].
  apply (proxy_never_writes_events (w_fail_at 0 thrd_error []) 0
           (State [ev true false] false
              [Waiter thrd_sleep (Some 0) true false false] 7 0 T_caller [])).
  vm_compute. reflexivity.
Defined.

(** X12.  The reset mode of an event is fixed once it is initialised:
    over a whole call of [event_wait_multiple] that returns, with its
    proxies, its restarts and the other threads setting and clearing
    latches meanwhile, no event changes its [is_manual_reset], and no
    event appears or disappears. *)
Theorem reset_mode_is_fixed w fuel p_events c_events wait_all p_time p_idx
    s r s' :
  event_wait_multiple w fuel p_events c_events wait_all p_time p_idx s
  = (Ok r, s') ->
  modes s' = modes s.
Proof.
  intros H.
  pose proof (event_wait_multiple_keep w (modes_are (modes s)) fuel p_events
                c_events wait_all p_time p_idx s eq_refl) as Hk.
  rewrite H in Hk. exact Hk.
Qed.

(** A wait_any during which another thread signals the second event. *)
Lemma reset_mode_is_fixed_witness :
  let w := World (fun _ => thrd_success)
             (fun _ => [ProxyRun 0; ProxyRun 1; ExtStore 1 true]) true in
  let out := event_wait_multiple w 9 (Some [Some 0; Some 1]) 2 false None
               true (st_init [ev false false; ev false true]) in
  fst out = Ok 0%Z
  /\ events (snd out) = [ev false false; ev true true]
  /\ modes (snd out) = [false; true].
Proof.
  split; [vm_compute; reflexivity|]. split; [vm_compute; reflexivity|].
  apply (reset_mode_is_fixed
           (World (fun _ => thrd_success)
              (fun _ => [ProxyRun 0; ProxyRun 1; ExtStore 1 true]) true)
           9 (Some [Some 0; Some 1]) 2 false None true
           (st_init [ev false false; ev false true]) 0%Z).
  vm_compute. reflexivity.
Defined.

(** ** The teardown *)

(** X13.  The cancel loop, whenever it completes: it sets [canceled] on
    exactly the waiters below [c_events] that are not [done], and writes
    nothing else in the waiters; each mutex it takes it releases, so the
    events are what they were, latches included; afterwards every waiter
    below [c_events] is done or canceled.  It completes only if there are
    [c_events] waiters and no lock, broadcast or unlock fails. *)
Theorem cancel_loop_marks_pending w c s s' :
  for_loop c 0 (cancel_waiter w) s = (Ok tt, s') ->
  events s' = events s
  /\ wait_info_mtx s' = wait_info_mtx s
  /\ idx_signaled_event s' = idx_signaled_event s
  /\ length (waiters s') = length (waiters s)
  /\ (forall i wt, waiters s !! i = Some wt ->
        waiters s' !! i = Some (if i <? c then cancel wt else wt))
  /\ (forall i wt', i < c -> waiters s' !! i = Some wt' ->
        done wt' = true \/ canceled wt' = true).
Proof.
  intros H. apply cancel_loop_inv in H as (_ & He & Hl & Hws & Hm & Hx).
  do 4 (split; [assumption|]). split.
  - intros i wt Hi. rewrite (Hws i wt Hi). reflexivity.
  - intros i wt' Hi Hw'.
    destruct (waiters s !! i) as [wt|] eqn:Hw.
    + rewrite (Hws i wt Hw) in Hw'. simpl in Hw'.
      apply Nat.ltb_lt in Hi. rewrite Hi in Hw'. injection Hw' as <-.
      unfold cancel. destruct (done wt) eqn:Hd; [left; exact Hd|right].
      reflexivity.
    + apply lookup_lt_Some in Hw'. apply lookup_ge_None in Hw. lia.
Qed.

Lemma cancel_loop_marks_pending_witness :
  let ws := [Waiter (thrd_exit 0) (Some 0) true false true;
             Waiter thrd_sleep (Some 1) true false false] in
  let s := State [ev true false; ev false false] true ws 0 4 T_caller [] in
  let s' := snd (for_loop 2 0 (cancel_waiter w_quiet) s) in
  waiters s'
  = [Waiter (thrd_exit 0) (Some 0) true false true;
     Waiter thrd_sleep (Some 1) true true false]
  /\ events s' = events s
  /\ wait_info_mtx s' = wait_info_mtx s
  /\ idx_signaled_event s' = idx_signaled_event s
  /\ length (waiters s') = length (waiters s)
  /\ (forall i wt, waiters s !! i = Some wt ->
        waiters s' !! i = Some (if i <? 2 then cancel wt else wt))
  /\ (forall i wt', i < 2 -> waiters s' !! i = Some wt' ->
        done wt' = true \/ canceled wt' = true).
Proof.
  split; [vm_compute; reflexivity|].
  apply (cancel_loop_marks_pending w_quiet 2
           (State [ev true false; ev false false] true
              [Waiter (thrd_exit 0) (Some 0) true false true;
               Waiter thrd_sleep (Some 1) true false false] 0 4 T_caller [])).
  vm_compute. reflexivity.
Defined.

(** ** What the call acquires and releases *)

(** X14.  On every return, [event_wait_multiple] has released exactly what
    it acquired, in reverse order: nothing when it returns before
    [calloc]; nothing after a failed [calloc]; the array of waiters after
    a failed [mtx_init]; the mutex, then the array, after a failed
    [cnd_init]; and on every other path, whatever happened to the proxies
    and however often the wait restarted, the condition variable, the
    mutex and the array, each once.  Nothing in between initialises,
    destroys, allocates or frees. *)
Theorem resources_released_on_return w fuel p_events c_events wait_all p_time
    p_idx s r s' :
  event_wait_multiple w fuel p_events c_events wait_all p_time p_idx s
  = (Ok r, s') ->
  exists new, trace s' = trace s ++ new /\ released (resources new).
Proof.
  intros Hrun.
  assert (H : hoare (logged_since is_resource (trace s) [])
                (event_wait_multiple w fuel p_events c_events wait_all p_time
                   p_idx)
                (fun _ s' => exists res,
                   logged_since is_resource (trace s) res s' /\ released res)).
  2: { specialize (H s). rewrite Hrun in H.
       destruct H as (res & (new & Ht & Hr) & Hres).
       - exists []. split; [symmetry; apply app_nil_r|reflexivity].
       - exists new. unfold resources. rewrite Hr. auto. }
  assert (Hret : forall res (z : Z), released res ->
            hoare (logged_since is_resource (trace s) res) (ret z)
              (fun _ s' => exists res,
                 logged_since is_resource (trace s) res s' /\ released res)).
  { intros res z Hres. apply hoare_ret. intros s0 Hs0. eauto. }
  unfold event_wait_multiple.
  apply hoare_step_quiet.
  { unfold store_idx. destruct p_idx; quiet. }
  intros _. destruct (c_events =? 0); [apply Hret; left; reflexivity|].
  destruct p_events as [arr|]; [|apply Hret; left; reflexivity].
  destruct (negb wait_all && negb p_idx); [apply Hret; left; reflexivity|].
  destruct (c_events =? 1).
  { apply hoare_step_quiet; [quiet|intros po].
    eapply hoare_conseq with (Q' := fun _ => logged_since is_resource (trace s) []);
      [apply (event_wait_quiet w (fun a => negb (is_resource a))); typeclasses eauto|auto|].
    intros z s0 Hs0. exists []. split; [exact Hs0|left; reflexivity]. }
  destruct (negb (calloc_ok w)).
  { apply hoare_step_log; [reflexivity|].
    apply Hret. right. left. reflexivity. }
  apply hoare_step_log; [reflexivity|].
  apply hoare_step_quiet; [quiet|intros _].
  unfold mtx_init, cnd_init, mtx_destroy, cnd_destroy.
  eapply hoare_bind with
    (R := fun ts => logged_since is_resource (trace s)
                      [A_calloc true; A_mtx_init O_wait_info ts]).
  { apply hoare_step_quiet; [quiet|intros ts].
    apply hoare_step_log; [reflexivity|]. apply hoare_ret. auto. }
  intros ts. destruct (negb (is_success ts)) eqn:Hts.
  { apply hoare_step_log; [reflexivity|].
    apply Hret. right. right. left. exists ts.
    split; [destruct (is_success ts); [discriminate|reflexivity]|reflexivity]. }
  apply negb_is_success_false in Hts. subst ts.
  apply hoare_step_quiet; [quiet|intros _].
  eapply hoare_bind with
    (R := fun ts => logged_since is_resource (trace s)
                      [A_calloc true; A_mtx_init O_wait_info thrd_success;
                       A_cnd_init O_wait_info ts]).
  { apply hoare_step_quiet; [quiet|intros ts].
    apply hoare_step_log; [reflexivity|]. apply hoare_ret. auto. }
  intros ts. destruct (negb (is_success ts)) eqn:Hts.
  { apply hoare_step_log; [reflexivity|].
    apply hoare_step_log; [reflexivity|].
    apply Hret. right. right. right. left. exists ts.
    split; [destruct (is_success ts); [discriminate|reflexivity]|reflexivity]. }
  apply negb_is_success_false in Hts. subst ts.
  apply hoare_step_quiet; [apply (restart_wait_quiet w (fun a => negb (is_resource a))); typeclasses eauto|].
  intros [e t b].
  apply hoare_step_log; [reflexivity|].
  apply hoare_step_log; [reflexivity|].
  apply hoare_step_log; [reflexivity|].
  destruct (negb (e =? 0)%Z); apply Hret; do 4 right; reflexivity.
Qed.

(** A spawn failure whose join returns: everything is released. *)
Lemma resources_released_on_return_witness :
  let w := w_fail_at 5 thrd_nomem [ProxyRun 0; ProxyRun 1] in
  let s := st_init [ev true false; ev false false] in
  let out := event_wait_multiple w 5 (Some [Some 0; Some 1]) 2 true None true
               s in
  fst out = Ok ENOMEM
  /\ exists new, trace (snd out) = trace s ++ new /\ released (resources new).
Proof.
  split; [vm_compute; reflexivity|].
  apply (resources_released_on_return
           (w_fail_at 5 thrd_nomem [ProxyRun 0; ProxyRun 1]) 5
           (Some [Some 0; Some 1]) 2 true None true
           (st_init [ev true false; ev false false]) ENOMEM).
  vm_compute. reflexivity.
Defined.

(** ** Who writes what in the waiters *)

(** X15.  A burst of proxy [i], whatever its primitives return: of all
    the waiters it writes only its own, and of its own only [done], which
    it only ever sets, and its thread state, which never goes back to
    not created.  [p_event], [joinable] and [canceled] of every waiter
    stay what the coordinator made them. *)
Theorem proxy_writes_only_its_done w i s s' :
  _event_wait_helper w i s = (Ok tt, s') ->
  length (waiters s') = length (waiters s)
  /\ forall j wt, waiters s !! j = Some wt ->
       exists wt', waiters s' !! j = Some wt'
         /\ p_event wt' = p_event wt /\ joinable wt' = joinable wt
         /\ canceled wt' = canceled wt
         /\ (done wt = true -> done wt' = true)
         /\ (thrd wt <> thrd_none -> thrd wt' <> thrd_none)
         /\ (j <> i -> wt' = wt).
Proof.
  intros H.
  pose proof (_event_wait_helper_kept w i (waiters s) s
                (waiters_kept_refl i s)) as Hk.
  rewrite H in Hk. exact Hk.
Qed.

Lemma proxy_writes_only_its_done_witness :
  let ws := [Waiter thrd_sleep (Some 0) true false false;
             Waiter thrd_start (Some 0) true true false] in
  let s := State [ev true false] false ws 0 4 T_caller [] in
  let s' := snd (_event_wait_helper w_quiet 1 s) in
  waiters s' = [Waiter thrd_sleep (Some 0) true false false;
                Waiter (thrd_exit 0) (Some 0) true true true]
  /\ length (waiters s') = length (waiters s)
  /\ forall j wt, waiters s !! j = Some wt ->
       exists wt', waiters s' !! j = Some wt'
         /\ p_event wt' = p_event wt /\ joinable wt' = joinable wt
         /\ canceled wt' = canceled wt
         /\ (done wt = true -> done wt' = true)
         /\ (thrd wt <> thrd_none -> thrd wt' <> thrd_none)
         /\ (j <> 1 -> wt' = wt).
Proof.
  split; [vm_compute; reflexivity|].
  apply (proxy_writes_only_its_done w_quiet 1
           (State [ev true false] false
              [Waiter thrd_sleep (Some 0) true false false;
               Waiter thrd_start (Some 0) true true false] 0 4 T_caller [])).
  vm_compute. reflexivity.
Defined.

(** X17.  A wait_any on two or more events takes at most one signal:
    over the whole call, the coordinator and its proxies store to at most
    one latch, once, clearing it; they do so only when the call returns
    success, and the event is the one whose index the call reports.  No
    other event is consumed, and none is ever set. *)
Theorem wait_any_takes_one_signal w fuel arr c p_time s r s' :
  2 <= c ->
  event_wait_multiple w fuel (Some arr) c false p_time true s = (Ok r, s') ->
  exists new, trace s' = trace s ++ new
    /\ (latch_stores new = []
        \/ (r = 0%Z
            /\ exists p, arr !! idx_signaled_event s' = Some (Some p)
                 /\ latch_stores new = [A_set_signaled p false])).
Proof.
  intros Hc Hrun.
  assert (H : hoare (logged_since is_latch_store (trace s) [])
                (event_wait_multiple w fuel (Some arr) c false p_time true)
                (fun r => took_at_most_one arr (trace s) (r = 0%Z))).
  2: { specialize (H s). rewrite Hrun in H.
       destruct H as [(new & Ht & Hn)|(Hr & p & Hp & new & Ht & Hn)].
       - exists []. split; [symmetry; apply app_nil_r|reflexivity].
       - exists new. split; [exact Ht|]. left. exact Hn.
       - exists new. split; [exact Ht|]. right. split; [exact Hr|eauto]. }
  assert (Hleft : forall (z : Z),
            hoare (logged_since is_latch_store (trace s) []) (ret z)
              (fun r => took_at_most_one arr (trace s) (r = 0%Z))).
  { intros z. apply hoare_ret. intros s0 Hs0. left. exact Hs0. }
  unfold event_wait_multiple, store_idx, mtx_init, cnd_init, mtx_destroy,
    cnd_destroy.
  destruct c as [|[|c]]; try lia. simpl.
  apply hoare_bind_inv; [quiet|intros ?].
  destruct (negb (calloc_ok w)).
  { apply hoare_bind_inv; [quiet|intros ?]. apply Hleft. }
  apply hoare_bind_inv; [quiet|intros ?].
  apply hoare_bind_inv; [quiet|intros ?].
  apply hoare_bind_inv; [quiet|intros ts].
  destruct (negb (is_success ts)).
  { apply hoare_bind_inv; [quiet|intros ?]. apply Hleft. }
  apply hoare_bind_inv; [quiet|intros ?].
  apply hoare_bind_inv; [quiet|intros ts'].
  destruct (negb (is_success ts')) eqn:Hts'.
  { apply hoare_bind_inv; [quiet|intros ?].
    apply hoare_bind_inv; [quiet|intros ?]. apply Hleft. }
  eapply hoare_bind.
  { apply restart_wait_one. split; simpl; [reflexivity|].
    apply negb_is_success_false. exact Hts'. }
  intros [e t b]; cbv beta.
  apply hoare_bind_inv; [quiet|intros ?].
  apply hoare_bind_inv; [quiet|intros ?].
  apply hoare_bind_inv; [quiet|intros ?].
  assert (Hok : no_failure (Locals e t b) ->
                (if negb (e =? 0)%Z then e else _thrd_status_to_errno t) = 0%Z).
  { intros [He Ht]. simpl in He, Ht. subst e t. reflexivity. }
  destruct (negb (e =? 0)%Z) eqn:He; apply hoare_ret;
    (intros s0 [Hs0|(Hnf & p & Hp & Hs0)];
     [left; exact Hs0
     |right; split; [exact (Hok Hnf)|eauto]]).
Qed.

Lemma wait_any_takes_one_signal_witness :
  let out := event_wait_multiple w_run 5 (Some [Some 0; Some 1]) 2 false None
               true (st_init [ev true false; ev true false]) in
  fst out = Ok 0%Z
  /\ events (snd out) = [ev false false; ev true false]
  /\ exists new, trace (snd out) = [] ++ new
       /\ (latch_stores new = []
           \/ (0%Z = 0%Z
               /\ exists p, [Some 0; Some 1] !! idx_signaled_event (snd out)
                            = Some (Some p)
                    /\ latch_stores new = [A_set_signaled p false])).
Proof.
  split; [vm_compute; reflexivity|]. split; [vm_compute; reflexivity|].
  apply (wait_any_takes_one_signal w_run 5 [Some 0; Some 1] 2 None
           (st_init [ev true false; ev true false]) 0%Z).
  - lia.
  - vm_compute. reflexivity.
Defined.

(** X18.  When the spawn loop completes without a failure, every waiter
    below [c_events] is set up and still is, whatever the proxies already
    running have done meanwhile: waiter [i] waits for [p_events[i]], is
    joinable and not canceled, and its thread has been created. *)
Theorem spawn_binds_proxies w fuel arr c s s' :
  spawn_waiters w fuel arr c 0 s = (Ok thrd_success, s') ->
  forall i, i < c ->
    exists wt, waiters s' !! i = Some wt /\ arr !! i = Some (p_event wt)
      /\ joinable wt = true /\ canceled wt = false
      /\ thrd wt <> thrd_none.
Proof.
  intros H.
  apply (spawn_waiters_binds w fuel arr c 0 s thrd_success s' H eq_refl).
  intros i Hi. lia.
Qed.

Lemma spawn_binds_proxies_witness :
  let s := State [ev false false; ev true false] false
             (replicate 2 waiter_zero) 0 0 T_caller [] in
  let s' := snd (spawn_waiters w_run 5 [Some 0; Some 1] 2 0 s) in
  waiters s' = [Waiter thrd_sleep (Some 0) true false false;
                Waiter (thrd_exit 0) (Some 1) true false true]
  /\ forall i, i < 2 ->
       exists wt, waiters s' !! i = Some wt
         /\ [Some 0; Some 1] !! i = Some (p_event wt)
         /\ joinable wt = true /\ canceled wt = false
         /\ thrd wt <> thrd_none.
Proof.
  split; [vm_compute; reflexivity|].
  apply (spawn_binds_proxies w_run 5 [Some 0; Some 1] 2
           (State [ev false false; ev true false] false
              (replicate 2 waiter_zero) 0 0 T_caller [])).
  vm_compute. reflexivity.
Defined.

(** ** The threads the call creates and joins *)

(** X19.  Every thread the call creates it joins exactly once.  For each
    proxy index, the successful [thrd_create]s and the [thrd_join]s of a
    call of [event_wait_multiple] that returns alternate, starting with a
    create and ending with a join: no thread is left unjoined, none is
    joined twice or before it is created, and none is created again (on a
    restart) before the one before it has been joined.  This holds on
    every path, whatever the primitives return. *)
Theorem every_thread_joined_once w fuel p_events c_events wait_all p_time
    p_idx s r s' :
  event_wait_multiple w fuel p_events c_events wait_all p_time p_idx s
  = (Ok r, s') ->
  exists new, trace s' = trace s ++ new
    /\ forall i, thread_after i new = Some false.
Proof.
  intros Hrun.
  assert (H : preserves (threads_since (trace s) (fun _ => false))
                (event_wait_multiple w fuel p_events c_events wait_all p_time
                   p_idx)).
  2: { specialize (H s). rewrite Hrun in H. apply H.
       exists []. split; [symmetry; apply app_nil_r|reflexivity]. }
  pose proof (restart_wait_owed w fuel) as Hr.
  unfold event_wait_multiple, store_idx, mtx_init, cnd_init, mtx_destroy,
    cnd_destroy.
  quiet.
Qed.

Lemma every_thread_joined_once_witness :
  let out := event_wait_multiple w_run 5 (Some [Some 0; Some 1]) 2 false None
               true (st_init [ev false false; ev true false]) in
  List.filter is_thread (map snd (trace (snd out)))
  = [A_thrd_create 0 thrd_success; A_thrd_create 1 thrd_success;
     A_thrd_join 1 thrd_success; A_thrd_join 0 thrd_success]
  /\ exists new, trace (snd out) = [] ++ new
       /\ forall i, thread_after i new = Some false.
Proof.
  split; [vm_compute; reflexivity|].
  apply (every_thread_joined_once w_run 5 (Some [Some 0; Some 1]) 2 false
           None true (st_init [ev false false; ev true false]) 0%Z).
  vm_compute. reflexivity.
Defined.

(** ** A wait_all needs distinct events *)

(** X20.  A wait_all on two or more events returns success only if the
    array names no event twice: the group verification holds the plain
    mutexes of all the events at once, so on an event named twice it
    would lock a mutex it already holds. *)
Theorem wait_all_success_needs_distinct_events w fuel arr c p_time p_idx s s' :
  2 <= c ->
  event_wait_multiple w fuel (Some arr) c true p_time p_idx s = (Ok 0%Z, s') ->
  forall a b, a < b < c -> arr !! a <> arr !! b.
Proof.
  intros Hc H. destruct c as [|[|c]]; try lia. clear Hc.
  unfold event_wait_multiple in H.
  apply bind_inv in H as ([] & s0 & _ & H). simpl in H.
  destruct (negb (calloc_ok w)).
  { apply bind_inv in H as ([] & ? & _ & H). discriminate. }
  apply bind_inv in H as ([] & ? & _ & H).
  apply bind_inv in H as ([] & ? & _ & H).
  apply bind_inv in H as (ts & ? & _ & H).
  destruct (negb (is_success ts)) eqn:Hts.
  { apply bind_inv in H as ([] & ? & _ & H). injection H as H _.
    apply errno_zero in H. subst ts. discriminate. }
  apply bind_inv in H as ([] & ? & _ & H).
  apply bind_inv in H as (ts' & ? & _ & H).
  destruct (negb (is_success ts')) eqn:Hts'.
  { apply bind_inv in H as ([] & ? & _ & H).
    apply bind_inv in H as ([] & ? & _ & H). injection H as H _.
    apply errno_zero in H. subst ts'. discriminate. }
  apply bind_inv in H as ([e t b] & sr & Hr & H).
  apply bind_inv in H as ([] & sa & _ & H).
  apply bind_inv in H as ([] & sb & _ & H).
  apply bind_inv in H as ([] & sc & _ & H).
  assert (Hl : no_failure (Locals e t b)).
  { destruct (negb (e =? 0)%Z) eqn:He; simpl in H; injection H as H _.
    - subst e. discriminate.
    - split; simpl; [|apply errno_zero; exact H].
      apply Z.eqb_eq. destruct (e =? 0)%Z; [reflexivity|discriminate]. }
  destruct (restart_wait_all_success _ _ _ _ _ _ _ _ _ _ _ Hr Hl)
    as (l1 & s1 & s2 & Hv & Hall & _).
  unfold verify_group in Hv.
  apply bind_inv in Hv as ([[locked ts1] b1] & s3 & Hlock & Hv).
  apply bind_inv in Hv as (ts2 & s4 & _ & Hv).
  injection Hv as He Ht Hb Hs4.
  simpl in Hall. subst b b1.
  destruct (lock_events_all _ _ _ _ _ _ _ _ _ Hlock) as (Hle & Hfail & _).
  destruct (lock_events_distinct _ _ _ _ _ _ _ _ _ _ Hlock) as (_ & Hdist).
  assert (Hlocked : locked = S (S c)).
  { destruct (decide (locked < S (S c))) as [Hlt|]; [|lia].
    specialize (Hfail ltac:(lia)). rewrite Hfail in Ht.
    destruct Hl as [_ Hl]. simpl in Hl. subst t. rewrite Ht in Hfail.
    discriminate. }
  subst locked. intros a b' Hab. apply Hdist; lia.
Qed.

Lemma wait_all_success_needs_distinct_events_witness :
  let out := event_wait_multiple w_run 5 (Some [Some 0; Some 1]) 2 true None
               true (st_init [ev true false; ev true true]) in
  fst out = Ok 0%Z
  /\ forall a b, a < b < 2 ->
       [Some 0; Some 1] !! a <> [Some 0; Some 1] !! b.
Proof.
  split; [vm_compute; reflexivity|].
  apply (wait_all_success_needs_distinct_events w_run 5 [Some 0; Some 1] 2
           None true (st_init [ev true false; ev true true])
           (snd (event_wait_multiple w_run 5 (Some [Some 0; Some 1]) 2 true
                   None true (st_init [ev true false; ev true true])))).
  - lia.
  - vm_compute. reflexivity.
Defined.

(** The same event twice: the second lock of the verification never
    returns. *)
Example wait_all_same_event_twice_blocks :
  let out := event_wait_multiple w_run 5 (Some [Some 0; Some 0]) 2 true None
               true (st_init [ev true true]) in
  fst out = Stop Stuck
  /\ last (trace (snd out))
     = Some (T_caller, A_mtx_lock (O_event 0) thrd_success).
Proof. vm_compute. split; reflexivity. Qed.

(** ** The teardown returns *)





(** X23 ([event_wait_multiple], lines 192-363, waiting for all events;
    with [_event_wait_helper], lines 59-97).  Liveness of the wait for all
    events.  Take a call for two or more events that all exist and are all
    signaled at the call, no event mutex held, the array naming no event
    twice.  If no primitive fails, the other threads are the proxies
    alone, and every proxy gets a burst whenever the caller blocks, the
    call returns 0 in its first pass, without a restart.  Afterwards no
    proxy is running, the signal of every event of the array is cleared
    unless it is a manual-reset event, and every other event is as it
    was. *)
Theorem wait_all_returns_when_all_signaled w fuel arr c p_time p_idx s :
  (forall t, prim w t = thrd_success) -> calloc_ok w = true ->
  (forall t i, i < c -> In (ProxyRun i) (sched w t)) ->
  (forall t a, In a (sched w t) -> exists j, a = ProxyRun j) ->
  2 <= c -> 2 <= fuel -> events_free s ->
  (forall i, i < c -> exists p e,
     arr !! i = Some (Some p) /\ events s !! p = Some e
     /\ signaled e = true) ->
  NoDup (take c arr) ->
  exists s',
    event_wait_multiple w fuel (Some arr) c true p_time p_idx s = (Ok 0%Z, s')
    /\ (forall q, events s' !! q
                  = (fun e => if named arr c q then consumed e else e)
                    <$> events s !! q)
    /\ no_proxy_running s'.
Proof.
  intros Hprim Hcal Hfair Honly Hc Hfuel Hfree Hall Hnd.
  assert (Hpro : exists sA,
    (forall sE,
       restart_wait w fuel arr true p_time p_idx fuel c
         (Locals 0 thrd_success false) sA
       = (Ok (Locals 0 thrd_success true), sE) ->
       event_wait_multiple w fuel (Some arr) c true p_time p_idx s
       = (Ok 0%Z, log A_free (log (A_mtx_destroy O_wait_info)
                    (log (A_cnd_destroy O_wait_info) sE))))
    /\ wait_info_mtx sA = false /\ events sA = events s
    /\ waiters sA = replicate c waiter_zero).
  { destruct s as [es wm ws ix t me tr]. destruct p_idx.
    all: eexists; split;
      [ intros sE ER;
        unfold event_wait_multiple, store_idx, mtx_init, cnd_init, cnd_destroy,
          mtx_destroy, next_status, modify, get, ret, bind;
        replace (c =? 0) with false by (symmetry; apply Nat.eqb_neq; lia);
        replace (c =? 1) with false by (symmetry; apply Nat.eqb_neq; lia);
        rewrite Hcal; simpl; repeat (rewrite Hprim; simpl);
        rewrite ER; reflexivity
      | simpl; auto ]. }
  destruct Hpro as (sA & Hrun & HwiA & HevA & HwsA).
  assert (HmA : waiters_match arr (events s) c 0 nobody nobody sA).
  { split; [rewrite HwsA; apply length_replicate|]. intros j wt.
    rewrite HwsA. intros [-> _]%lookup_replicate. reflexivity. }
  destruct (restart_wait_all_total w Hprim arr (events s) c Hfree Hfair Honly
              Hall Hnd fuel p_time p_idx fuel sA Hfuel HwiA HevA HmA)
    as (sE & ER & HgE & HqE & HnE).
  eexists. split; [apply (Hrun _ ER)|]. simpl. split; [|exact HnE].
  intros q. rewrite (HgE q). destruct (events s !! q); [|reflexivity].
  simpl. destruct (named arr c q); reflexivity.
Qed.

Lemma wait_all_returns_when_all_signaled_witness :
  exists s',
    event_wait_multiple w_run 2 (Some [Some 1; Some 0]) 2 true None false
      (st_init [ev true false; ev true true; ev false false]) = (Ok 0%Z, s')
    /\ (forall q, events s' !! q
                  = (fun e => if named [Some 1; Some 0] 2 q then consumed e
                              else e)
                    <$> [ev true false; ev true true; ev false false] !! q)
    /\ no_proxy_running s'.
Proof.
  apply (wait_all_returns_when_all_signaled w_run 2 [Some 1; Some 0] 2 None
           false (st_init [ev true false; ev true true; ev false false])).
  - intros t. reflexivity.
  - reflexivity.
  - intros t i Hi. destruct i as [|[|i]]; simpl; [left|right; left|lia];
      reflexivity.
  - intros t a [<-|[<-|[]]]; eauto.
  - lia.
  - lia.
  - intros p e. destruct p as [|[|[|p]]]; simpl; intros [= <-]; reflexivity.
  - intros i Hi. destruct i as [|[|i]]; [| |lia]; eexists _, _;
      repeat split; reflexivity.
  - simpl. apply NoDup_cons. split; [|apply NoDup_singleton].
    intros [=]%list_elem_of_singleton.
Defined.
